(** * SEN_HACKER: the ZSDIC PAK extractor and repacker

    A shallow embedding of [SEN_HACKER.py]: the dictionary resolver
    ([load_dictionary], [extract_dictionary_from_pak]), the segment indexer
    ([split_segments], [extract_segment]), the patch writer
    ([replace_segment]) and the two batch operations ([unpack_zsdic],
    [repack_zsdic]), followed by the properties of these functions.

    Conventions.
    - A [bytes] object is a [list byte]; an offset or a length is a [nat];
      a Python [int] that may be negative (a sequence number parsed from a
      file name) is a [Z].
    - A Python call either returns, raises or loops for ever: [comp A].
    - The zstandard codec is not part of the program: it is a parameter of
      the section that holds the batch operations. *)

From Stdlib Require Import Ascii String.
From Stdlib Require Import List Arith ZArith Lia Bool DecimalString.
From Stdlib Require Import Sorted Permutation DecimalNat.
From Stdlib.Strings Require Import Byte.
Import ListNotations.

(* ================================================================== *)
(** ** Bytes *)

Definition bytes := list byte.

(** [CONFIGURATION], lines 20-22. *)
Definition MAGIC_NUMBER : bytes := [x28; xb5; x2f; xfd].
Definition DICT_START_HEX : bytes := [x37; xa4; x30; xec].
Definition MAX_COMPRESSION_LEVEL : nat := 22.

(** [data[lo:hi]] for [0 <= lo], [0 <= hi]: Python clips the slice to the
    object, and gives the empty object when [hi <= lo]. *)
Definition slice (data : bytes) (lo hi : nat) : bytes :=
  firstn (hi - lo) (skipn lo data).

(** [data[lo:]]. *)
Definition slice_from (data : bytes) (lo : nat) : bytes := skipn lo data.

(** [data.startswith(sub)]: the comparison [bytes.find] makes at one
    offset. *)
Fixpoint starts_with (data sub : bytes) : bool :=
  match sub, data with
  | [], _ => true
  | _ :: _, [] => false
  | b :: sub', a :: data' => Byte.eqb a b && starts_with data' sub'
  end.

(** The scan of [bytes.find] over the suffix [data] of the object, whose
    first byte is at offset [pos]: the lowest offset where [sub] is found. *)
Fixpoint find_in_suffix (data sub : bytes) (pos : nat) : option nat :=
  if starts_with data sub then Some pos
  else match data with
       | [] => None
       | _ :: data' => find_in_suffix data' sub (S pos)
       end.

(** [data.find(sub, start)] for [0 <= start]: the lowest offset [i >= start]
    with [data[i:i+len(sub)] == sub]; [None] is Python's [-1]. A start
    beyond the end finds nothing, not even the empty pattern. *)
Definition find (data sub : bytes) (start : nat) : option nat :=
  if length data <? start then None
  else find_in_suffix (skipn start data) sub start.

(* ================================================================== *)
(** ** Outcomes of a call *)

(** The exception classes the program raises or catches by name. [ZstdError]
    is the codec's own class (not a [ValueError]); [OSError] stands for the
    I/O failures of the file collaborator. *)
Inductive exn : Type :=
| IndexError
| ValueError
| FileNotFoundError
| RuntimeError
| ZstdError
| OSError.

Inductive comp (A : Type) : Type :=
| Ret (a : A)
| Raise (e : exn)
| Diverge.

Arguments Ret {A} a.
Arguments Raise {A} e.
Arguments Diverge {A}.

Definition bind {A B : Type} (c : comp A) (k : A -> comp B) : comp B :=
  match c with
  | Ret a => k a
  | Raise e => Raise e
  | Diverge => Diverge
  end.

Notation "x <- c ;; k" := (bind c (fun x => k))
  (at level 61, c at next level, right associativity).
Notation "' p <- c ;; k" := (bind c (fun p => k))
  (at level 61, p pattern, c at next level, right associativity).

(* ================================================================== *)
(** ** The segment indexer *)

(** The loop of lines 134-136 and 167-169:
<<
    while (start := data.find(magic_number, start)) != -1:
        split_indices.append(start)
        start += len(magic_number)
>>
    [fuel] bounds the number of evaluations of the loop condition; [None]
    means the bound was reached with the loop still running. *)
Fixpoint scan_loop (fuel : nat) (data magic_number : bytes)
    (start : nat) (split_indices : list nat) : option (list nat) :=
  match fuel with
  | 0 => None
  | S fuel' =>
      match find data magic_number start with
      | None => Some split_indices
      | Some i =>
          scan_loop fuel' data magic_number (i + length magic_number)
            (split_indices ++ [i])
      end
  end.

(** Lines 132-137 and 165-170: the boundaries, end of file included. With a
    non-empty pattern the loop condition is evaluated at most
    [length data + 1] times ([scan_loop_terminates]); with the empty pattern
    the cursor never moves and the loop never ends
    ([scan_loop_empty_magic]). *)
Definition boundaries (data magic_number : bytes) : comp (list nat) :=
  match scan_loop (S (length data)) data magic_number 0 [] with
  | Some split_indices => Ret (split_indices ++ [length data])
  | None => Diverge
  end.

(** Lines 139-143: one [(i + 1, data[start:end])] per pair of neighbouring
    boundaries. The loop variable runs over [range(len(split_indices) - 1)],
    so both list reads are inside the list. *)
Definition segments_of (data : bytes) (split_indices : list nat)
    : list (nat * bytes) :=
  map (fun i =>
         (i + 1,
          slice data (nth i split_indices 0) (nth (i + 1) split_indices 0)))
      (seq 0 (length split_indices - 1)).

Definition split_segments (data magic_number : bytes)
    : comp (list (nat * bytes)) :=
  split_indices <- boundaries data magic_number ;;
  Ret (segments_of data split_indices).

(** [l[i]] on a list: an index from 0 to [len(l) - 1] reads from the
    front, one from [-len(l)] to [-1] reads from the back, any other raises
    [IndexError]. *)
Definition getitem {A : Type} (l : list A) (i : Z) : comp A :=
  let n := Z.of_nat (length l) in
  let j := if (i <? 0)%Z then (n + i)%Z else i in
  if ((j <? 0) || (n <=? j))%Z then Raise IndexError
  else match nth_error l (Z.to_nat j) with
       | Some x => Ret x
       | None => Raise IndexError
       end.

(** [extract_segment], lines 161-177, on the bytes read from [pak_file]. The
    guard of line 172 comes before the two list reads. *)
Definition extract_segment (data : bytes) (segment_index : Z)
    (magic_number : bytes) : comp (nat * nat * bytes) :=
  split_indices <- boundaries data magic_number ;;
  if ((segment_index <? 1)
      || (Z.of_nat (length split_indices) - 1 <? segment_index))%Z
  then Raise IndexError
  else
    segment_start <- getitem split_indices (segment_index - 1) ;;
    segment_end <- getitem split_indices segment_index ;;
    Ret (segment_start, segment_end, slice data segment_start segment_end).

(* ================================================================== *)
(** ** The dictionary resolver *)

(** The global [DICT_FILE] together with what reading the file it names
    gives: nothing was detected, the file cannot be read, or its content
    (which may be empty). *)
Inductive dict_file : Type :=
| NoDictFile
| UnreadableDictFile
| DictFileContent (content : bytes).

(** [load_dictionary], lines 100-109. The test of line 102 is on the path,
    not on the bytes read. *)
Definition load_dictionary (DICT_FILE : dict_file) : comp bytes :=
  match DICT_FILE with
  | NoDictFile => Raise FileNotFoundError
  | UnreadableDictFile => Raise RuntimeError
  | DictFileContent content => Ret content
  end.

(** [extract_dictionary_from_pak], lines 121-128, on the bytes read from
    [pak_file]. *)
Definition extract_dictionary_from_pak (data start_hex : bytes)
    : comp bytes :=
  match find data start_hex 0 with
  | None => Raise ValueError
  | Some dict_start => Ret (slice_from data dict_start)
  end.

(** What the program prints, one constructor per [console.print] of the two
    operations. *)
Inductive message : Type :=
| NoPakDetected
| NoModifiedFiles
| BackupCreated
| UsingExternalDictionary
| UsingEmbeddedDictionary
| FoundSegments (count : nat)
| Decompressed (name : string)
| ErrorDecompressing (name : string) (e : exn)
| UnpackCompleted
| UnpackFailed (e : exn)
| Repacking (total_files : nat)
| Reimported (file_name : string) (compression_level : nat)
| FailedToReimport (file_name : string)
| ErrorProcessing (file_name : string) (e : exn)
| RepackCompleted (success_count total_files : nat)
| RepackFailed (e : exn).

(** Lines 223-229 and 275-281: the external dictionary first, the embedded
    one when loading raised. The first component is what is printed. *)
Definition resolve_dictionary (DICT_FILE : dict_file) (pak : bytes)
    : list message * comp bytes :=
  match load_dictionary DICT_FILE with
  | Ret dict_data => ([UsingExternalDictionary], Ret dict_data)
  | Raise _ =>
      ([UsingEmbeddedDictionary],
       extract_dictionary_from_pak pak DICT_START_HEX)
  | Diverge => ([], Diverge)
  end.

(* ================================================================== *)
(** ** The patch writer *)

(** [f.write(buf)] with the file position at [pos], on a file opened
    ['rb+']: the bytes are overwritten in place, the file grows when the
    write runs past its end, and a position beyond the end leaves a gap of
    zero bytes. *)
Definition write_at (file : bytes) (pos : nat) (buf : bytes) : bytes :=
  firstn pos file ++ repeat x00 (pos - length file) ++ buf
  ++ skipn (pos + length buf) file.

(** [replace_segment], lines 189-200, on the content of [pak_file]: the new
    content, or [ValueError] with the file not opened. *)
Definition replace_segment (pak : bytes) (segment_start segment_end : nat)
    (compressed_data : bytes) : comp bytes :=
  let original_segment_size :=
    (Z.of_nat segment_end - Z.of_nat segment_start)%Z in
  if (original_segment_size <? Z.of_nat (length compressed_data))%Z
  then Raise ValueError
  else
    let f := write_at pak segment_start compressed_data in
    if (Z.of_nat (length compressed_data) <? original_segment_size)%Z
    then
      Ret (write_at f (segment_start + length compressed_data)
             (repeat x00
                (Z.to_nat (original_segment_size
                           - Z.of_nat (length compressed_data)))))
    else Ret f.

(* ================================================================== *)
(** ** Files and directories *)

(** [f'{index:08d}']: decimal, padded with zeros to eight digits. *)
Definition format_08d (index : nat) : string :=
  let digits := NilEmpty.string_of_uint (Nat.to_uint index) in
  String.concat "" (repeat "0"%string (8 - String.length digits))
  ++ digits.

(** [name.endswith(suffix)]. *)
Definition endswith (name suffix : string) : bool :=
  let n := String.length name in
  let k := String.length suffix in
  (k <=? n) && String.eqb (String.substring (n - k) k name) suffix.

(** A directory: its entries in [os.listdir] order, each with its
    content. *)
Definition directory := list (string * bytes).

(** [open(path, 'wb').write(content)] for a file of the directory. *)
Fixpoint write_file (dir : directory) (name : string) (content : bytes)
    : directory :=
  match dir with
  | [] => [(name, content)]
  | (n, c) :: dir' =>
      if String.eqb n name then (n, content) :: dir'
      else (n, c) :: write_file dir' name content
  end.

(** What the two operations read and write. [ORIGINAL_PAK] is the content
    of the detected archive, [None] when [detect_files] found none;
    [UNPACK_DIR] is [None] when the directory does not exist; [backup_file]
    and [repacked_pak] are the files of those names in [BACKUP_DIR] and
    [REPACK_DIR]. *)
Record world : Type := {
  ORIGINAL_PAK : option bytes;
  DICT_FILE : dict_file;
  UNPACK_DIR : option directory;
  backup_file : option bytes;
  repacked_pak : option bytes;
  console : list message
}.

Definition print (w : world) (msgs : list message) : world :=
  {| ORIGINAL_PAK := ORIGINAL_PAK w; DICT_FILE := DICT_FILE w;
     UNPACK_DIR := UNPACK_DIR w; backup_file := backup_file w;
     repacked_pak := repacked_pak w; console := console w ++ msgs |}.

(** How a run of statements that changes a state [S] ends: normally, with
    an exception on its way out, or not at all. *)
Inductive run (S : Type) : Type :=
| Normal (s : S)
| Escaped (s : S) (e : exn)
| Hang.

Arguments Normal {S} s.
Arguments Escaped {S} s e.
Arguments Hang {S}.

(** [sorted(xs, key=...)] on keys already computed: a stable insertion
    sort. *)
Fixpoint insert_by_key {A : Type} (x : Z * A) (l : list (Z * A))
    : list (Z * A) :=
  match l with
  | [] => [x]
  | y :: l' =>
      if (fst x <=? fst y)%Z then x :: l else y :: insert_by_key x l'
  end.

Fixpoint sorted_by_key {A : Type} (l : list (Z * A)) : list (Z * A) :=
  match l with
  | [] => []
  | x :: l' => insert_by_key x (sorted_by_key l')
  end.

(** The key of every element, or the first exception a key raises. *)
Fixpoint with_keys {A : Type} (key : A -> comp Z) (l : list A)
    : comp (list (Z * A)) :=
  match l with
  | [] => Ret []
  | x :: l' =>
      k <- key x ;;
      rest <- with_keys key l' ;;
      Ret ((k, x) :: rest)
  end.

Definition set_UNPACK_DIR (w : world) (dir : option directory) : world :=
  {| ORIGINAL_PAK := ORIGINAL_PAK w; DICT_FILE := DICT_FILE w;
     UNPACK_DIR := dir; backup_file := backup_file w;
     repacked_pak := repacked_pak w; console := console w |}.

Definition set_backup_file (w : world) (content : option bytes) : world :=
  {| ORIGINAL_PAK := ORIGINAL_PAK w; DICT_FILE := DICT_FILE w;
     UNPACK_DIR := UNPACK_DIR w; backup_file := content;
     repacked_pak := repacked_pak w; console := console w |}.

Definition set_repacked_pak (w : world) (content : option bytes) : world :=
  {| ORIGINAL_PAK := ORIGINAL_PAK w; DICT_FILE := DICT_FILE w;
     UNPACK_DIR := UNPACK_DIR w; backup_file := backup_file w;
     repacked_pak := content; console := console w |}.

(** [os.makedirs(dir, exist_ok=True)]. *)
Definition makedirs (dir : option directory) : option directory :=
  match dir with
  | None => Some []
  | Some entries => Some entries
  end.

(** What the repack loop changes: the content of [repacked_pak], the
    console and [success_count]. [codec_calls] is not in the program: it
    records, in order, the file and level of every call of
    [compress_file]. *)
Record repack_state : Type := {
  pak : bytes;
  log : list message;
  success_count : nat;
  codec_calls : list (string * nat)
}.

Definition set_pak (st : repack_state) (content : bytes) : repack_state :=
  {| pak := content; log := log st; success_count := success_count st;
     codec_calls := codec_calls st |}.

Definition say (st : repack_state) (m : message) : repack_state :=
  {| pak := pak st; log := log st ++ [m];
     success_count := success_count st; codec_calls := codec_calls st |}.

Definition count_success (st : repack_state) : repack_state :=
  {| pak := pak st; log := log st; success_count := success_count st + 1;
     codec_calls := codec_calls st |}.

Definition note_calls (st : repack_state) (file_name : string)
    (levels : list nat) : repack_state :=
  {| pak := pak st; log := log st; success_count := success_count st;
     codec_calls := codec_calls st ++ map (pair file_name) levels |}.

(* ================================================================== *)
(** ** The detection of the files *)

(** [SUPPORTED_DICT_EXTENSIONS], line 24. *)
Definition SUPPORTED_DICT_EXTENSIONS : list string :=
  [".bin"; ".dict"; ".zstdict"; ".zdict"]%string.

(** [c.lower()] for a character of a file name; the names are taken to be
    ASCII. *)
Definition lower_char (c : Ascii.ascii) : Ascii.ascii :=
  let n := Ascii.nat_of_ascii c in
  if (65 <=? n) && (n <=? 90) then Ascii.ascii_of_nat (n + 32) else c.

(** [s.lower()]. *)
Fixpoint lower (s : string) : string :=
  match s with
  | EmptyString => EmptyString
  | String c s' => String (lower_char c) (lower s')
  end.

(** [sub in s]. *)
Fixpoint contains (sub s : string) : bool :=
  String.prefix sub s
  || match s with
     | EmptyString => false
     | String _ s' => contains sub s'
     end.

(** An entry of a directory as [detect_files] sees it: its name and what
    [os.path.getsize] gives for it. Every entry is taken to have a size: a
    dangling link, for which [getsize] raises, is outside the model. *)
Definition sized_entry : Type := string * nat.

(** [glob.glob(os.path.join(dir, "*" + ext))] on the entries of [dir], in
    the order the directory is listed: the names that end with [ext], those
    that begin with a dot left out. The match is case-sensitive, as it is
    where the program runs. *)
Definition glob_ext (dir : list sized_entry) (ext : string)
    : list sized_entry :=
  filter (fun entry =>
            negb (String.prefix "." (fst entry)) && endswith (fst entry) ext)
         dir.

(** The key of line 91-94: [-1] for a name with [dict] in it, then the
    size, negated. *)
Definition dict_key (entry : sized_entry) : Z * Z :=
  ((if contains "dict" (lower (fst entry)) then -1 else 0)%Z,
   (- Z.of_nat (snd entry))%Z).

(** The order of Python on pairs of integers. *)
Definition pair_leb (a b : Z * Z) : bool :=
  ((fst a <? fst b) || ((fst a =? fst b) && (snd a <=? snd b)))%Z.

(** [l.sort(key=key)]: a stable insertion sort. *)
Fixpoint insert_by {A : Type} (key : A -> Z * Z) (x : A) (l : list A)
    : list A :=
  match l with
  | [] => [x]
  | y :: l' =>
      if pair_leb (key x) (key y) then x :: l
      else y :: insert_by key x l'
  end.

Fixpoint sort_by {A : Type} (key : A -> Z * Z) (l : list A) : list A :=
  match l with
  | [] => []
  | x :: l' => insert_by key x (sort_by key l')
  end.

(** The globals [ORIGINAL_PAK] and [DICT_FILE]: the name of the file in its
    directory, [None] for Python's [None]. *)
Record detected : Type := {
  pak_path : option string;
  dict_path : option string
}.

Inductive detect_message : Type :=
| DetectedPak (path : string)
| SelectedDictionary (path : string).

(** [detect_files], lines 74-98, on the listings of [INPUT_DIR] and
    [DICT_DIR]: the globals after the call, what is printed and what is
    returned. A global is assigned when something is found and is left
    alone otherwise. *)
Definition detect_files (g : detected) (input_dir dict_dir : list sized_entry)
    : detected * list detect_message * bool :=
  let pak_files := glob_ext input_dir ".pak" in
  let '(pak, out1) :=
    match pak_files with
    | p :: _ => (Some (fst p), [DetectedPak (fst p)])
    | [] => (pak_path g, [])
    end in
  let dict_files :=
    flat_map (fun ext => glob_ext dict_dir ext) SUPPORTED_DICT_EXTENSIONS in
  let '(dict, out2) :=
    match sort_by dict_key dict_files with
    | d :: _ => (Some (fst d), [SelectedDictionary (fst d)])
    | [] => (dict_path g, [])
    end in
  ({| pak_path := pak; dict_path := dict |}, out1 ++ out2,
   match pak, dict with
   | Some _, Some _ => true
   | _, _ => false
   end).

(* ================================================================== *)
(** ** The two operations *)

Section Operations.

(** The zstandard binding: [zstd.ZstdCompressionDict(dict_data)],
    [ZstdCompressor(dict_data=d, level=l).compress(data)] and
    [ZstdDecompressor(dict_data=d).decompress(data)]. *)
Variable zdict : Type.
Variable ZstdCompressionDict : bytes -> comp zdict.
Variable zstd_compress : zdict -> nat -> bytes -> comp bytes.
Variable zstd_decompress : zdict -> bytes -> comp bytes.

(** [int(x.split('.')[0])], the key of line 284 and the sequence number of
    line 293. *)
Variable int_prefix : string -> comp Z.

(** [decompress_segment], lines 146-159: the directory after the call and
    the string returned. Every exception is turned into a string. *)
Definition decompress_segment (segment : nat * bytes) (dictionary : zdict)
    (output_dir : directory) : comp (directory * message) :=
  let '(index, segment_data) := segment in
  let name := (format_08d index ++ ".dat")%string in
  match zstd_decompress dictionary segment_data with
  | Ret decompressed_data =>
      Ret (write_file output_dir name decompressed_data, Decompressed name)
  | Raise e => Ret (output_dir, ErrorDecompressing name e)
  | Diverge => Diverge
  end.

(** Lines 237-244: every segment is submitted to the pool and the results
    are printed in the order of submission; the tasks write files of
    different names, so they are run here one after the other. *)
Fixpoint decompress_all (segments : list (nat * bytes)) (dictionary : zdict)
    (output_dir : directory) : comp (directory * list message) :=
  match segments with
  | [] => Ret (output_dir, [])
  | seg :: rest =>
      '(dir1, result) <- decompress_segment seg dictionary output_dir ;;
      '(dir2, results) <- decompress_all rest dictionary dir1 ;;
      Ret (dir2, result :: results)
  end.

(** [unpack_zsdic], lines 202-253, up to the return to the menu. *)
Definition unpack_zsdic (w : world) : run world :=
  match ORIGINAL_PAK w with
  | None => Normal (print w [NoPakDetected])
  | Some data =>
      let w := set_UNPACK_DIR w (makedirs (UNPACK_DIR w)) in
      let w := print (set_backup_file w (Some data)) [BackupCreated] in
      let '(msgs, dict) := resolve_dictionary (DICT_FILE w) data in
      let w := print w msgs in
      match (dict_data <- dict ;;
             dictionary <- ZstdCompressionDict dict_data ;;
             segments <- split_segments data MAGIC_NUMBER ;;
             Ret (dictionary, segments)) with
      | Ret (dictionary, segments) =>
          let w := print w [FoundSegments (length segments)] in
          let output_dir :=
            match UNPACK_DIR w with Some d => d | None => [] end in
          match decompress_all segments dictionary output_dir with
          | Ret (dir, results) =>
              Normal (print (set_UNPACK_DIR w (Some dir))
                        (results ++ [UnpackCompleted]))
          | Raise e => Normal (print w [UnpackFailed e])
          | Diverge => Hang
          end
      | Raise e => Normal (print w [UnpackFailed e])
      | Diverge => Hang
      end
  end.

(** [compress_file], lines 179-187, on the bytes read from [input_file]. *)
Definition compress_file (input_data dict_data : bytes)
    (compression_level : nat) : comp bytes :=
  dictionary <- ZstdCompressionDict dict_data ;;
  zstd_compress dictionary compression_level input_data.

(** An entry of [files]: its name, its sequence number and its content. *)
Record edit : Type := {
  file_name : string;
  sequence_number : Z;
  input_data : bytes
}.

(** The [for ... else] of lines 298-308 over the levels still to try. A
    [ValueError] of the body goes on to the next level, any other
    exception leaves the loop. *)
Fixpoint level_loop (levels : list nat) (st : repack_state) (e : edit)
    (dict_data : bytes) (segment_start segment_end : nat)
    : run repack_state :=
  match levels with
  | [] => Normal (say st (FailedToReimport (file_name e)))
  | compression_level :: rest =>
      let st := note_calls st (file_name e) [compression_level] in
      match (compressed_data <-
               compress_file (input_data e) dict_data compression_level ;;
             replace_segment (pak st) segment_start segment_end
               compressed_data) with
      | Ret pak' =>
          Normal (count_success
                    (say (set_pak st pak')
                       (Reimported (file_name e) compression_level)))
      | Raise ValueError =>
          level_loop rest st e dict_data segment_start segment_end
      | Raise ex => Escaped st ex
      | Diverge => Hang
      end
  end.

(** The body of the loop over the files, lines 292-310. *)
Definition repack_file (st : repack_state) (e : edit) (dict_data : bytes)
    : run repack_state :=
  let body :=
    match extract_segment (pak st) (sequence_number e) MAGIC_NUMBER with
    | Ret (segment_start, segment_end, _) =>
        level_loop (seq 1 MAX_COMPRESSION_LEVEL) st e dict_data
          segment_start segment_end
    | Raise ex => Escaped st ex
    | Diverge => Hang
    end in
  match body with
  | Normal st' => Normal st'
  | Escaped st' ex => Normal (say st' (ErrorProcessing (file_name e) ex))
  | Hang => Hang
  end.

(** Lines 291-310. *)
Fixpoint repack_files (files : list edit) (st : repack_state)
    (dict_data : bytes) : run repack_state :=
  match files with
  | [] => Normal st
  | e :: rest =>
      match repack_file st e dict_data with
      | Normal st' => repack_files rest st' dict_data
      | Escaped st' ex => Escaped st' ex
      | Hang => Hang
      end
  end.

(** Lines 283-284: the [.dat] entries of the directory, sorted by the
    number in their name. *)
Definition sorted_dat_files (dir : directory) : comp (list edit) :=
  keyed <- with_keys (fun entry => int_prefix (fst entry))
             (filter (fun entry => endswith (fst entry) ".dat") dir) ;;
  Ret (map (fun '(k, (name, content)) =>
              {| file_name := name; sequence_number := k;
                 input_data := content |})
           (sorted_by_key keyed)).

(** [repack_zsdic], lines 255-322, up to the return to the menu. *)
Definition repack_zsdic (w : world) : run world :=
  match ORIGINAL_PAK w with
  | None => Normal (print w [NoPakDetected])
  | Some data =>
      match UNPACK_DIR w with
      | None | Some [] => Normal (print w [NoModifiedFiles])
      | Some dir =>
          let w := set_repacked_pak w (Some data) in
          let '(msgs, dict) := resolve_dictionary (DICT_FILE w) data in
          let w := print w msgs in
          match (dict_data <- dict ;;
                 files <- sorted_dat_files dir ;;
                 Ret (dict_data, files)) with
          | Ret (dict_data, files) =>
              let total_files := length files in
              let st :=
                {| pak := data;
                   log := console w ++ [Repacking total_files];
                   success_count := 0;
                   codec_calls := [] |} in
              match repack_files files st dict_data with
              | Normal st' =>
                  Normal
                    {| ORIGINAL_PAK := ORIGINAL_PAK w;
                       DICT_FILE := DICT_FILE w;
                       UNPACK_DIR := UNPACK_DIR w;
                       backup_file := backup_file w;
                       repacked_pak := Some (pak st');
                       console :=
                         log st'
                         ++ [RepackCompleted (success_count st')
                               total_files] |}
              | Escaped st' ex =>
                  Normal
                    {| ORIGINAL_PAK := ORIGINAL_PAK w;
                       DICT_FILE := DICT_FILE w;
                       UNPACK_DIR := UNPACK_DIR w;
                       backup_file := backup_file w;
                       repacked_pak := Some (pak st');
                       console := log st' ++ [RepackFailed ex] |}
              | Hang => Hang
              end
          | Raise ex => Normal (print w [RepackFailed ex])
          | Diverge => Hang
          end
      end
  end.

(* ================================================================== *)
(** ** Vocabulary of the properties *)

(** [sub] occurs in [data] at offset [i]: [data[i:i+len(sub)] == sub]. *)
Definition occurs_at (data sub : bytes) (i : nat) : bool :=
  (i <=? length data) && starts_with (skipn i data) sub.

(** Every offset at which [sub] occurs, overlapping occurrences included. *)
Definition occurrences (data sub : bytes) : list nat :=
  filter (occurs_at data sub) (seq 0 (S (length data))).

(** No proper non-empty suffix of [sub] is a prefix of [sub]: two
    occurrences of [sub] cannot overlap. *)
Definition unbordered (sub : bytes) : bool :=
  forallb (fun d => negb (starts_with sub (skipn d sub)))
          (seq 1 (length sub - 1)).

(** The loop of [scan_loop] without its fuel: [scanned data magic start
    found] when the loop entered with cursor [start] appends [found] and
    leaves. *)
Inductive scanned (data magic : bytes) : nat -> list nat -> Prop :=
| scanned_done start :
    find data magic start = None -> scanned data magic start []
| scanned_step start i found :
    find data magic start = Some i ->
    scanned data magic (i + length magic) found ->
    scanned data magic start (i :: found).

(** The half-open ranges between neighbouring boundaries. *)
Definition ranges_of (split_indices : list nat) : list (nat * nat) :=
  combine split_indices (tl split_indices).

(** [ranges] tile [lo, hi): each range is non-empty and begins where the
    one before it ends; the first begins at [lo], the last ends at [hi]. *)
Fixpoint tiles (lo : nat) (ranges : list (nat * nat)) (hi : nat) : Prop :=
  match ranges with
  | [] => lo = hi
  | (s, e) :: rest => s = lo /\ s < e /\ tiles e rest hi
  end.

(** Neighbouring boundaries are at least [m] apart. *)
Fixpoint spaced (m : nat) (split_indices : list nat) : Prop :=
  match split_indices with
  | a :: (b :: _) as rest => a + m <= b /\ spaced m rest
  | _ => True
  end.

(** The indexer's result on [data] as the specification words it: one range
    per occurrence of [magic], and the ranges tile the whole of [data]. *)
Definition tiles_whole_buffer (data magic : bytes) : Prop :=
  exists split_indices,
    boundaries data magic = Ret split_indices
    /\ length (ranges_of split_indices) = length (occurrences data magic)
    /\ tiles 0 (ranges_of split_indices) (length data).

(** Dictionary resolution as the specification words it: external bytes win
    when they are supplied and non-empty; otherwise the suffix of the
    archive from the first marker on. *)
Definition resolve_as_specified (external : option bytes)
    (archive_bytes : bytes) : comp bytes :=
  match external with
  | Some (b :: rest) => Ret (b :: rest)
  | _ => extract_dictionary_from_pak archive_bytes DICT_START_HEX
  end.

(** No file or directory differs between [w] and [w']: only the console may
    have grown. *)
Definition untouched (w w' : world) : Prop :=
  ORIGINAL_PAK w' = ORIGINAL_PAK w
  /\ UNPACK_DIR w' = UNPACK_DIR w
  /\ backup_file w' = backup_file w
  /\ repacked_pak w' = repacked_pak w.

(** At [level] the codec returns more than [size] bytes for the content of
    [e]. *)
Definition oversize (e : edit) (dict_data : bytes) (size level : nat)
    : Prop :=
  exists compressed_data,
    compress_file (input_data e) dict_data level = Ret compressed_data
    /\ size < length compressed_data.

(** The codec returns or raises: it does not loop. *)
Definition codec_returns : Prop :=
  forall input_data dict_data level,
    compress_file input_data dict_data level <> Diverge.

(** Every output of the codec for the content of [e] holds the magic at its
    start and nowhere else. *)
Definition clean_outputs (e : edit) (dict_data : bytes) : Prop :=
  forall level compressed_data,
    compress_file (input_data e) dict_data level = Ret compressed_data ->
    occurrences compressed_data MAGIC_NUMBER = [0].

(** At [level] the attempt of lines 300-301 ends in a [ValueError]: the
    codec raises it, or its output is too large for [size] bytes. *)
Definition skipped (e : edit) (dict_data : bytes) (size level : nat)
    : Prop :=
  compress_file (input_data e) dict_data level = Raise ValueError
  \/ oversize e dict_data size level.

Definition is_reimported (m : message) : bool :=
  match m with
  | Reimported _ _ => true
  | _ => false
  end.

(** The content of the file [name] of a directory, if there is one. *)
Fixpoint read_file (dir : directory) (name : string) : option bytes :=
  match dir with
  | [] => None
  | (n, c) :: dir' => if String.eqb n name then Some c else read_file dir' name
  end.

(** What [decompress_segment] returns for a segment: the outcome of its own
    decoding. It is read only for a decoder that returns or raises; the
    last branch is never reached then. *)
Definition decompress_outcome (dictionary : zdict) (segment : nat * bytes)
    : message :=
  let name := (format_08d (fst segment) ++ ".dat")%string in
  match zstd_decompress dictionary (snd segment) with
  | Ret _ => Decompressed name
  | Raise e => ErrorDecompressing name e
  | Diverge => Decompressed name
  end.

(** The number that a string of decimal digits writes. *)
Definition decimal_value (s : string) : option nat :=
  option_map Nat.of_uint (NilEmpty.uint_of_string s).

(** The entries of the dictionary directory that [detect_files] chooses
    from. *)
Definition dict_candidates (dict_dir : list sized_entry)
    : list sized_entry :=
  flat_map (fun ext => glob_ext dict_dir ext) SUPPORTED_DICT_EXTENSIONS.

Definition has_dict (entry : sized_entry) : bool :=
  contains "dict" (lower (fst entry)).

(** What the decoder gives for a segment, when it gives something. *)
Definition decoded (dictionary : zdict) (segment : nat * bytes) : bytes :=
  match zstd_decompress dictionary (snd segment) with
  | Ret plain => plain
  | _ => []
  end.

(** The file that [decompress_segment] writes for a segment. *)
Definition artifact (dictionary : zdict) (segment : nat * bytes)
    : string * bytes :=
  ((format_08d (fst segment) ++ ".dat")%string, decoded dictionary segment).

(* ================================================================== *)
(** ** Inputs for the examples *)

(** The archive of the specification's scenario:
    [MAGIC + b"AAA" + MAGIC + b"BBBB"]. *)
Definition scenario_archive : bytes :=
  MAGIC_NUMBER ++ [x41; x41; x41] ++ MAGIC_NUMBER ++ [x42; x42; x42; x42].

(** An archive with two bytes before its only marker:
    [b"XX" + MAGIC + b"AAA"]. *)
Definition prefixed_archive : bytes :=
  [x58; x58] ++ MAGIC_NUMBER ++ [x41; x41; x41].

(** The archive of the specification's second scenario:
    [b"XX" + EMBEDDED_MARKER + b"DICTDATA"]. *)
Definition DICTDATA : bytes := [x44; x49; x43; x54; x44; x41; x54; x41].

Definition dictionary_archive : bytes :=
  [x58; x58] ++ DICT_START_HEX ++ DICTDATA.

(** A world with the scenario archive, one edited artifact and no
    dictionary, external or embedded. *)
Definition world_without_dictionary : world :=
  {| ORIGINAL_PAK := Some scenario_archive;
     DICT_FILE := NoDictFile;
     UNPACK_DIR := Some [("00000001.dat"%string, [x61; x62; x63])];
     backup_file := None;
     repacked_pak := None;
     console := [] |}.

(** A stand-in for the codec, for the examples: a dictionary is its bytes,
    and the "compressed" form of an input at level [l] is the magic followed
    by the input without its last [l] bytes. *)
Definition toy_dictionary (dict_data : bytes) : comp bytes := Ret dict_data.

Definition toy_compress (_ : bytes) (level : nat) (input_data : bytes)
    : comp bytes :=
  Ret (MAGIC_NUMBER ++ firstn (length input_data - level) input_data).

Definition toy_decompress (_ : bytes) (segment_data : bytes) : comp bytes :=
  if starts_with segment_data MAGIC_NUMBER
  then Ret (skipn (length MAGIC_NUMBER) segment_data)
  else Raise ZstdError.

(** A stand-in for [int(x.split('.')[0])]: the number of characters before
    the first dot. *)
Definition toy_int_prefix (name : string) : comp Z :=
  match String.index 0 "." name with
  | Some n => Ret (Z.of_nat n)
  | None => Raise ValueError
  end.

(** The state of the repack loop on the scenario archive. *)
Definition scenario_state : repack_state :=
  {| pak := scenario_archive; log := []; success_count := 0;
     codec_calls := [] |}.

(** Two edits of the first segment of the scenario archive (7 bytes): one
    of 5 bytes, one of 30; and an edit of a segment it does not have. *)
Definition small_edit : edit :=
  {| file_name := "00000001.dat"; sequence_number := 1;
     input_data := [x61; x62; x63; x64; x65] |}.

Definition large_edit : edit :=
  {| file_name := "00000001.dat"; sequence_number := 1;
     input_data := repeat x61 30 |}.

Definition stray_edit : edit :=
  {| file_name := "00000003.dat"; sequence_number := 3;
     input_data := [x61] |}.

(** A stand-in codec that raises: [ValueError] below [at_level], [ex] at
    [at_level], and above it returns the magic alone. *)
Definition raising_compress (ex : exn) (at_level : nat) (_ : bytes)
    (level : nat) (_ : bytes) : comp bytes :=
  if level <? at_level then Raise ValueError
  else if level =? at_level then Raise ex
  else Ret MAGIC_NUMBER.

(** A stand-in for [int(x.split('.')[0])] that finds no number in
    [notes.dat]. *)
Definition picky_int_prefix (name : string) : comp Z :=
  if String.eqb name "notes.dat" then Raise ValueError else Ret 1%Z.

(** A world with a dictionary file, the scenario archive and two [.dat]
    files, one of them without a number. *)
Definition world_with_notes : world :=
  {| ORIGINAL_PAK := Some scenario_archive;
     DICT_FILE := DictFileContent [x01];
     UNPACK_DIR := Some [("00000001.dat"%string, [x61; x62; x63]);
                         ("notes.dat"%string, [x61])];
     backup_file := None;
     repacked_pak := None;
     console := [] |}.

(** A world with the scenario archive followed by an embedded dictionary,
    and nothing else. *)
Definition world_with_embedded_dictionary : world :=
  {| ORIGINAL_PAK := Some (scenario_archive ++ DICT_START_HEX);
     DICT_FILE := NoDictFile;
     UNPACK_DIR := None;
     backup_file := None;
     repacked_pak := None;
     console := [] |}.

(** Listings of the input and dictionary directories. *)
Definition input_listing : list sized_entry :=
  [("a.pak", 10); (".hidden.pak", 3); ("b.pak", 5)]%string.

Definition dict_listing : list sized_entry :=
  [("big.bin", 1000); ("MyDICT.bin", 5); ("x.zdict", 7); ("y.txt", 1);
   ("z.dict", 7)]%string.

Definition nothing_detected : detected :=
  {| pak_path := None; dict_path := None |}.

(** A stand-in encoder that [toy_decompress] undoes: the magic, then the
    content. *)
Definition framing_compress (_ : bytes) (_ : nat) (input_data : bytes)
    : comp bytes :=
  Ret (MAGIC_NUMBER ++ input_data).

(** A stand-in for [int(x.split('.')[0])] on names with an extension of
    three letters: the number that the characters before it write. *)
Definition decimal_int_prefix (name : string) : comp Z :=
  match decimal_value
          (String.substring 0 (String.length name - 4) name) with
  | Some n => Ret (Z.of_nat n)
  | None => Raise ValueError
  end.

(* ================================================================== *)
(** ** Facts about [find] and the scan *)

Lemma starts_with_nil (data : bytes) : starts_with data [] = true.
Proof. now destruct data. Qed.

Lemma starts_with_app (sub rest : bytes) :
  starts_with (sub ++ rest) sub = true.
Proof.
  induction sub as [|b sub IH]; simpl; [apply starts_with_nil|].
  rewrite IH, andb_true_r. now apply Byte.byte_dec_lb.
Qed.

Lemma starts_with_split (data sub : bytes) :
  starts_with data sub = true -> data = sub ++ skipn (length sub) data.
Proof.
  revert data; induction sub as [|b sub IH]; intros [|a data]; simpl;
    try easy.
  intros H. apply andb_true_iff in H as [Hab H].
  apply Byte.byte_dec_bl in Hab. subst. f_equal. now apply IH.
Qed.

Lemma starts_with_length (data sub : bytes) :
  starts_with data sub = true -> length sub <= length data.
Proof.
  intros H. apply starts_with_split in H.
  apply (f_equal (@length byte)) in H. rewrite length_app in H. lia.
Qed.

Lemma starts_with_firstn (data sub : bytes) :
  starts_with data sub = true -> firstn (length sub) data = sub.
Proof.
  intros H. apply starts_with_split in H. rewrite H.
  rewrite firstn_app, Nat.sub_diag, firstn_all. simpl. apply app_nil_r.
Qed.

(** A prefix of [a ++ rest] that is at least as long as [a] begins with
    [a]. *)
Lemma starts_with_short_prefix (a rest sub : bytes) :
  starts_with (a ++ rest) sub = true -> length a <= length sub ->
  starts_with sub a = true.
Proof.
  revert sub; induction a as [|x a IH]; intros [|b sub]; simpl; try easy;
    try lia.
  intros H Hlen. apply andb_true_iff in H as [Hxb H].
  apply Byte.byte_dec_bl in Hxb. subst.
  rewrite (Byte.byte_dec_lb eq_refl). simpl. apply IH; [exact H | lia].
Qed.

Lemma occurs_at_bound (data sub : bytes) (i : nat) :
  occurs_at data sub i = true -> i + length sub <= length data.
Proof.
  unfold occurs_at. intros H. apply andb_true_iff in H as [Hi H].
  apply Nat.leb_le in Hi. apply starts_with_length in H.
  rewrite length_skipn in H. lia.
Qed.

Lemma find_in_suffix_Some (sub data : bytes) (pos i : nat) :
  find_in_suffix data sub pos = Some i ->
  pos <= i <= pos + length data
  /\ starts_with (skipn (i - pos) data) sub = true
  /\ forall j, pos <= j < i -> starts_with (skipn (j - pos) data) sub = false.
Proof.
  revert pos; induction data as [|a data IH]; intros pos;
    unfold find_in_suffix; fold find_in_suffix;
    destruct (starts_with _ sub) eqn:E; try discriminate.
  1, 2: intros [= <-]; rewrite Nat.sub_diag; simpl skipn;
    repeat split; try lia; try exact E; intros; lia.
  intros H. apply IH in H as (Hb & Hs & Hn).
  replace (i - pos) with (S (i - S pos)) by lia.
  simpl length. simpl skipn. repeat split; try lia; [exact Hs|].
  intros j Hj. destruct (Nat.eq_dec j pos) as [->|Hne].
  - rewrite Nat.sub_diag. exact E.
  - replace (j - pos) with (S (j - S pos)) by lia. simpl skipn.
    apply Hn. lia.
Qed.

Lemma find_in_suffix_None (sub data : bytes) (pos : nat) :
  find_in_suffix data sub pos = None ->
  forall j, j <= length data -> starts_with (skipn j data) sub = false.
Proof.
  revert pos; induction data as [|a data IH]; intros pos;
    unfold find_in_suffix; fold find_in_suffix;
    destruct (starts_with _ sub) eqn:E; try discriminate.
  - intros _ j Hj. simpl in Hj. now replace j with 0 by lia.
  - intros H [|j] Hj; [exact E|]. simpl in *. apply (IH _ H). lia.
Qed.

(** What [data.find(sub, start)] returns when it finds something: the
    lowest offset from [start] on at which [sub] occurs. *)
Lemma find_Some (data sub : bytes) (start i : nat) :
  find data sub start = Some i ->
  start <= i
  /\ occurs_at data sub i = true
  /\ forall j, start <= j < i -> occurs_at data sub j = false.
Proof.
  unfold find, occurs_at. destruct (length data <? start) eqn:L;
    [discriminate|].
  apply Nat.ltb_ge in L. intros H.
  apply find_in_suffix_Some in H as (Hb & Hs & Hn).
  rewrite length_skipn in Hb. rewrite skipn_skipn in Hs.
  replace (i - start + start) with i in Hs by lia.
  split; [lia|]. split.
  - rewrite Hs, andb_true_r. apply Nat.leb_le. lia.
  - intros j Hj. specialize (Hn j Hj). rewrite skipn_skipn in Hn.
    replace (j - start + start) with j in Hn by lia.
    rewrite Hn. apply andb_false_r.
Qed.

(** ... and when it returns [-1]: no occurrence from [start] on. *)
Lemma find_None (data sub : bytes) (start : nat) :
  find data sub start = None ->
  forall j, start <= j -> occurs_at data sub j = false.
Proof.
  unfold find, occurs_at. intros H j Hj.
  destruct (j <=? length data) eqn:Lj; [|reflexivity].
  apply Nat.leb_le in Lj. simpl.
  destruct (length data <? start) eqn:L.
  - apply Nat.ltb_lt in L. lia.
  - apply Nat.ltb_ge in L.
    pose proof (find_in_suffix_None _ _ _ H (j - start)) as Hn.
    rewrite length_skipn, skipn_skipn in Hn.
    replace (j - start + start) with j in Hn by lia.
    apply Hn. lia.
Qed.

(** The other direction: an occurrence at or after [start] is found. *)
Lemma find_occurs (data sub : bytes) (start j : nat) :
  start <= j -> occurs_at data sub j = true ->
  exists i, find data sub start = Some i /\ i <= j.
Proof.
  intros Hj Ho. destruct (find data sub start) as [i|] eqn:F.
  - exists i. split; [reflexivity|].
    apply find_Some in F as (_ & _ & Hn).
    destruct (Nat.le_gt_cases i j) as [|Hlt]; [assumption|].
    rewrite Hn in Ho by lia. discriminate.
  - rewrite (find_None _ _ _ F j Hj) in Ho. discriminate.
Qed.

(** No occurrence at all: the first search already fails. *)
Lemma find_no_occurrence (data sub : bytes) :
  occurrences data sub = [] -> find data sub 0 = None.
Proof.
  intros Hocc. destruct (find data sub 0) as [i|] eqn:F; [|reflexivity].
  apply find_Some in F as (_ & Ho & _).
  assert (In i (occurrences data sub)) as Hin.
  { unfold occurrences. apply filter_In. split; [|exact Ho].
    apply in_seq. apply occurs_at_bound in Ho. lia. }
  rewrite Hocc in Hin. contradiction.
Qed.

Lemma scan_loop_sound (data magic : bytes) (fuel : nat) :
  forall start acc r,
    scan_loop fuel data magic start acc = Some r ->
    exists found, r = acc ++ found /\ scanned data magic start found.
Proof.
  induction fuel as [|fuel IH]; intros start acc r; simpl; [discriminate|].
  destruct (find data magic start) as [i|] eqn:F.
  - intros H. apply IH in H as (found & -> & Hs).
    exists (i :: found). rewrite <- app_assoc. split; [reflexivity|].
    now apply scanned_step.
  - intros [= <-]. exists []. rewrite app_nil_r. split; [reflexivity|].
    now apply scanned_done.
Qed.

(** With a non-empty pattern every match moves the cursor forward, and a
    match leaves the cursor inside the data: the loop ends. *)
Lemma scan_loop_terminates (data magic : bytes) (fuel : nat) :
  magic <> [] ->
  forall start acc,
    start <= length data -> length data < fuel + start ->
    exists r, scan_loop fuel data magic start acc = Some r.
Proof.
  intros Hm. induction fuel as [|fuel IH]; intros start acc Hs Hf; simpl;
    [lia|].
  destruct (find data magic start) as [i|] eqn:F; [|eauto].
  apply find_Some in F as (Hi & Ho & _). apply occurs_at_bound in Ho.
  apply IH; [exact Ho|].
  destruct magic; [contradiction|]. simpl. lia.
Qed.

Lemma scan_loop_fuel_mono (data magic : bytes) (fuel : nat) :
  forall fuel' start acc r,
    scan_loop fuel data magic start acc = Some r -> fuel <= fuel' ->
    scan_loop fuel' data magic start acc = Some r.
Proof.
  induction fuel as [|fuel IH]; intros fuel' start acc r; simpl;
    [discriminate|].
  intros H Hle. destruct fuel' as [|fuel']; [lia|]. simpl.
  destruct (find data magic start); [|exact H].
  apply IH; [exact H | lia].
Qed.

(** The empty pattern is found at the cursor itself, which then stays where
    it is: no amount of fuel is enough. *)
Lemma scan_loop_empty_magic (data : bytes) (fuel : nat) :
  forall start acc,
    start <= length data -> scan_loop fuel data [] start acc = None.
Proof.
  induction fuel as [|fuel IH]; intros start acc Hs; simpl; [reflexivity|].
  assert (F : find data [] start = Some start).
  { unfold find. destruct (length data <? start) eqn:L.
    - apply Nat.ltb_lt in L. lia.
    - destruct (skipn start data); reflexivity. }
  rewrite F, Nat.add_0_r. now apply IH.
Qed.

(** The fuel of [boundaries] is enough: more fuel gives the same list. *)
Lemma scan_loop_fuel_enough (data magic : bytes) (fuel : nat) :
  magic <> [] -> length data < fuel ->
  scan_loop fuel data magic 0 []
  = scan_loop (S (length data)) data magic 0 [].
Proof.
  intros Hm Hf.
  destruct (scan_loop_terminates data magic (S (length data)) Hm 0 [])
    as [r Hr]; [lia | lia |].
  rewrite Hr. apply scan_loop_fuel_mono with (fuel := S (length data));
    [exact Hr | lia].
Qed.

Lemma boundaries_empty_magic (data : bytes) : boundaries data [] = Diverge.
Proof.
  unfold boundaries. rewrite scan_loop_empty_magic; [reflexivity | lia].
Qed.

(** [boundaries] returns, and what it returns is what the loop appends
    followed by the length of the data. *)
Lemma boundaries_scanned (data magic : bytes) :
  magic <> [] ->
  exists starts,
    boundaries data magic = Ret (starts ++ [length data])
    /\ scanned data magic 0 starts.
Proof.
  intros Hm. unfold boundaries.
  destruct (scan_loop_terminates data magic (S (length data)) Hm 0 [])
    as [r Hr]; [lia | lia |].
  rewrite Hr. apply scan_loop_sound in Hr as (found & -> & Hs).
  exists found. split; [reflexivity | exact Hs].
Qed.

Lemma scanned_first (data magic : bytes) (start : nat) (found : list nat) :
  scanned data magic start found ->
  hd_error found = find data magic start.
Proof. now intros [s F|s i rest F _]. Qed.

Lemma scanned_occurs (data magic : bytes) (start : nat) (found : list nat) :
  scanned data magic start found ->
  Forall (fun i => occurs_at data magic i = true) found.
Proof.
  induction 1 as [s F|s i rest F _ IH]; constructor; [|exact IH].
  now apply find_Some in F.
Qed.

Lemma scanned_spaced (data magic : bytes) (start : nat) (found : list nat) :
  scanned data magic start found ->
  spaced (length magic) (found ++ [length data]).
Proof.
  induction 1 as [s F|s i rest F Hrest IH]; [exact I|].
  destruct rest as [|j rest]; simpl.
  - split; [|exact I]. apply find_Some in F as (_ & Ho & _).
    now apply occurs_at_bound.
  - split; [|exact IH]. inversion Hrest as [|s' j' rest' Fj]; subst.
    now apply find_Some in Fj.
Qed.

Lemma spaced_nth (m : nat) (split_indices : list nat) (n : nat) :
  spaced m split_indices -> S n < length split_indices ->
  nth n split_indices 0 + m <= nth (S n) split_indices 0.
Proof.
  revert n; induction split_indices as [|a [|b rest] IH]; intros n;
    simpl; try lia.
  intros [Hab Hs] Hn. destruct n as [|n]; [exact Hab|].
  apply (IH n Hs). simpl. lia.
Qed.

Lemma spaced_tiles (m : nat) (a : nat) (rest : list nat) :
  0 < m -> spaced m (a :: rest) ->
  tiles a (ranges_of (a :: rest)) (last (a :: rest) 0).
Proof.
  intros Hm. revert a; induction rest as [|b rest IH]; intros a;
    [reflexivity|].
  intros [Hab Hs]. unfold ranges_of. simpl combine.
  change (a = a /\ a < b
          /\ tiles b (ranges_of (b :: rest)) (last (b :: rest) 0)).
  repeat split; [lia|]. now apply IH.
Qed.

Lemma length_ranges_of (split_indices : list nat) :
  length (ranges_of split_indices) = length split_indices - 1.
Proof.
  unfold ranges_of. rewrite length_combine.
  destruct split_indices; cbn [tl length]; lia.
Qed.

Lemma nth_error_ranges_of (split_indices : list nat) (n s e : nat) :
  nth_error (ranges_of split_indices) n = Some (s, e) <->
  S n < length split_indices
  /\ s = nth n split_indices 0 /\ e = nth (S n) split_indices 0.
Proof.
  unfold ranges_of. revert n; induction split_indices as [|a rest IH];
    intros n.
  - simpl. destruct n; simpl; split; try discriminate; lia.
  - destruct rest as [|b rest].
    + simpl. destruct n; simpl; split; try discriminate; lia.
    + destruct n as [|n].
      * simpl. split; [intros [= <- <-]; repeat split; lia|].
        now intros (_ & -> & ->).
      * change (nth_error (combine (b :: rest) (tl (b :: rest))) n
                = Some (s, e) <->
                S (S n) < length (a :: b :: rest)
                /\ s = nth n (b :: rest) 0 /\ e = nth (S n) (b :: rest) 0).
        rewrite IH. simpl. intuition lia.
Qed.

Lemma filter_seq_none (P : nat -> bool) (a n : nat) :
  (forall j, a <= j < a + n -> P j = false) -> filter P (seq a n) = [].
Proof.
  revert a; induction n as [|n IH]; intros a H; [reflexivity|].
  simpl. rewrite H by lia. apply IH. intros j Hj. apply H. lia.
Qed.

(** Two occurrences of an unbordered pattern do not overlap. *)
Lemma unbordered_no_overlap (data magic : bytes) (i j : nat) :
  unbordered magic = true ->
  occurs_at data magic i = true -> i < j < i + length magic ->
  occurs_at data magic j = false.
Proof.
  intros Hu Hi Hj. destruct (occurs_at data magic j) eqn:Ho; [|reflexivity].
  exfalso. unfold occurs_at in Hi, Ho.
  apply andb_true_iff in Hi as [_ Hi]. apply andb_true_iff in Ho as [_ Ho].
  apply starts_with_split in Hi.
  replace j with ((j - i) + i) in Ho by lia.
  rewrite <- skipn_skipn, Hi, skipn_app in Ho.
  apply starts_with_short_prefix in Ho; [|rewrite length_skipn; lia].
  unfold unbordered in Hu. rewrite forallb_forall in Hu.
  specialize (Hu (j - i)). rewrite Ho in Hu.
  assert (In (j - i) (seq 1 (length magic - 1))) as Hin
    by (apply in_seq; lia).
  specialize (Hu Hin). discriminate.
Qed.

(** For an unbordered pattern the scan finds every occurrence. *)
Lemma scanned_all_occurrences (data magic : bytes) (start : nat)
    (found : list nat) :
  magic <> [] -> unbordered magic = true ->
  scanned data magic start found ->
  found = filter (occurs_at data magic)
                 (seq start (S (length data) - start)).
Proof.
  intros Hm Hu. induction 1 as [s F|s i rest F _ IH].
  - symmetry. apply filter_seq_none. intros j Hj.
    apply (find_None _ _ _ F). lia.
  - apply find_Some in F as (Hsi & Ho & Hn).
    pose proof (occurs_at_bound _ _ _ Ho) as Hb.
    assert (0 < length magic) as Hpos by (destruct magic; simpl; easy || lia).
    replace (S (length data) - s)
      with ((i - s) + (1 + ((length magic - 1)
                            + (S (length data) - (i + length magic)))))
      by lia.
    rewrite !seq_app, !filter_app.
    rewrite (filter_seq_none _ s (i - s))
      by (intros j Hj; apply Hn; lia).
    replace (s + (i - s)) with i by lia.
    simpl seq at 1. simpl filter at 1. rewrite Ho.
    rewrite (filter_seq_none _ (i + 1) (length magic - 1))
      by (intros j Hj; apply (unbordered_no_overlap _ _ i); [easy..|lia]).
    replace (i + 1 + (length magic - 1)) with (i + length magic) by lia.
    rewrite <- IH. reflexivity.
Qed.

Lemma MAGIC_NUMBER_unbordered : unbordered MAGIC_NUMBER = true.
Proof. reflexivity. Qed.

(* ================================================================== *)
(** ** Facts about the indexer *)

Lemma nonempty_length (magic : bytes) : magic <> [] -> 0 < length magic.
Proof. destruct magic; simpl; [contradiction | lia]. Qed.

(** No boundary lies beyond the end of the data. *)
Lemma scanned_nth_le (data magic : bytes) (start : nat) (found : list nat)
    (n : nat) :
  scanned data magic start found ->
  nth n (found ++ [length data]) 0 <= length data.
Proof.
  intros Hs. apply scanned_occurs in Hs.
  destruct (Nat.lt_ge_cases n (length found)) as [Hn|Hn].
  - rewrite app_nth1 by exact Hn. rewrite Forall_forall in Hs.
    pose proof (occurs_at_bound _ _ _ (Hs _ (nth_In found 0 Hn))). lia.
  - rewrite app_nth2 by exact Hn.
    destruct (n - length found) as [|[|k]]; simpl; lia.
Qed.

(** A read at an index inside the list. *)
Lemma getitem_in_range {A : Type} (l : list A) (i : Z) (d : A) :
  (0 <= i < Z.of_nat (length l))%Z ->
  getitem l i = Ret (nth (Z.to_nat i) l d).
Proof.
  intros Hi. unfold getitem.
  destruct (i <? 0)%Z eqn:N; [apply Z.ltb_lt in N; lia|].
  destruct (_ || _)%bool eqn:G.
  { apply orb_true_iff in G as [G|G];
      [apply Z.ltb_lt in G | apply Z.leb_le in G]; lia. }
  rewrite (nth_error_nth' l d) by lia. reflexivity.
Qed.

(** What [extract_segment] computes from the boundaries. *)
Lemma extract_segment_spec (data magic : bytes) (segment_index : Z)
    (split_indices : list nat) :
  boundaries data magic = Ret split_indices ->
  extract_segment data segment_index magic =
  if ((segment_index <? 1)
      || (Z.of_nat (length split_indices) - 1 <? segment_index))%Z
  then Raise IndexError
  else
    let s := nth (Z.to_nat (segment_index - 1)) split_indices 0 in
    let e := nth (Z.to_nat segment_index) split_indices 0 in
    Ret (s, e, slice data s e).
Proof.
  unfold extract_segment. intros ->. simpl.
  destruct (_ || _)%bool eqn:G; [reflexivity|].
  apply orb_false_iff in G as [G1 G2]. apply Z.ltb_ge in G1, G2.
  rewrite (getitem_in_range _ _ 0) by lia. simpl.
  rewrite (getitem_in_range _ _ 0) by lia. reflexivity.
Qed.

(** A range returned by [extract_segment] lies inside the data and is at
    least as long as the pattern. *)
Lemma extract_segment_bounds (data magic : bytes) (segment_index : Z)
    (s e : nat) (d : bytes) :
  magic <> [] ->
  extract_segment data segment_index magic = Ret (s, e, d) ->
  s + length magic <= e /\ e <= length data /\ d = slice data s e.
Proof.
  intros Hm H.
  destruct (boundaries_scanned data magic Hm) as (starts & Hb & Hs).
  rewrite (extract_segment_spec _ _ _ _ Hb) in H.
  destruct (_ || _)%bool eqn:G in H; [discriminate|].
  apply orb_false_iff in G as [G1 G2].
  apply Z.ltb_ge in G1, G2. injection H as <- <- <-.
  split; [|split; [|reflexivity]].
  - replace (Z.to_nat segment_index)
      with (S (Z.to_nat (segment_index - 1))) by lia.
    apply spaced_nth; [now apply scanned_spaced with (start := 0)|lia].
  - now apply scanned_nth_le with (magic := magic) (start := 0).
Qed.

Lemma length_segments_of (data : bytes) (split_indices : list nat) :
  length (segments_of data split_indices) = length split_indices - 1.
Proof. unfold segments_of. now rewrite length_map, length_seq. Qed.

Lemma nth_error_segments_of (data : bytes) (split_indices : list nat)
    (n : nat) :
  S n < length split_indices ->
  nth_error (segments_of data split_indices) n
  = Some (n + 1,
          slice data (nth n split_indices 0) (nth (S n) split_indices 0)).
Proof.
  intros Hn. unfold segments_of.
  rewrite nth_error_map, nth_error_seq.
  destruct (n <? length split_indices - 1) eqn:L.
  - simpl. now rewrite Nat.add_1_r.
  - apply Nat.ltb_ge in L. lia.
Qed.

Lemma length_slice (data : bytes) (lo hi : nat) :
  hi <= length data -> length (slice data lo hi) = hi - lo.
Proof.
  intros H. unfold slice. rewrite length_firstn, length_skipn. lia.
Qed.

(* ================================================================== *)
(** ** Facts about the patch writer *)

(** A write that stays inside the file replaces the bytes it covers. *)
Lemma write_at_inside (file buf : bytes) (pos : nat) :
  pos + length buf <= length file ->
  write_at file pos buf
  = firstn pos file ++ buf ++ skipn (pos + length buf) file.
Proof.
  intros H. unfold write_at.
  replace (pos - length file) with 0 by lia. reflexivity.
Qed.

Lemma length_write_at_inside (file buf : bytes) (pos : nat) :
  pos + length buf <= length file ->
  length (write_at file pos buf) = length file.
Proof.
  intros H. rewrite write_at_inside by exact H.
  rewrite !length_app, length_firstn, length_skipn. lia.
Qed.

(** The size test of line 193. *)
Lemma replace_segment_too_large (pak compressed_data : bytes)
    (segment_start segment_end : nat) :
  (Z.of_nat segment_end - Z.of_nat segment_start
   < Z.of_nat (length compressed_data))%Z ->
  replace_segment pak segment_start segment_end compressed_data
  = Raise ValueError.
Proof.
  intros H. unfold replace_segment.
  apply Z.ltb_lt in H. now rewrite H.
Qed.

(** The content after a patch that fits, for a range inside the file. *)
Lemma replace_segment_fits (pak compressed_data : bytes)
    (segment_start segment_end : nat) :
  segment_end <= length pak ->
  segment_start + length compressed_data <= segment_end ->
  replace_segment pak segment_start segment_end compressed_data
  = Ret (firstn segment_start pak ++ compressed_data
         ++ repeat x00
              (segment_end - segment_start - length compressed_data)
         ++ skipn segment_end pak).
Proof.
  intros He Hl. unfold replace_segment.
  destruct (_ <? Z.of_nat (length compressed_data))%Z eqn:G.
  { apply Z.ltb_lt in G. lia. }
  set (f := write_at pak segment_start compressed_data).
  assert (Hf : f = firstn segment_start pak ++ compressed_data
                   ++ skipn (segment_start + length compressed_data) pak)
    by (apply write_at_inside; lia).
  destruct (Z.of_nat (length compressed_data) <? _)%Z eqn:G2.
  - apply Z.ltb_lt in G2. f_equal.
    replace (Z.to_nat _)
      with (segment_end - segment_start - length compressed_data) by lia.
    set (pad := segment_end - segment_start - length compressed_data).
    assert (Hlen : length f = length pak)
      by (apply length_write_at_inside; lia).
    rewrite write_at_inside by (rewrite repeat_length, Hlen; lia).
    rewrite repeat_length, Hf.
    rewrite firstn_app, length_firstn.
    replace (Nat.min segment_start (length pak)) with segment_start by lia.
    rewrite firstn_app.
    replace (segment_start + length compressed_data - segment_start
             - length compressed_data) with 0 by lia.
    rewrite (firstn_all2 (firstn segment_start pak))
      by (rewrite length_firstn; lia).
    rewrite (firstn_all2 compressed_data) by lia.
    simpl firstn. rewrite app_nil_r.
    rewrite !skipn_app, length_firstn.
    replace (Nat.min segment_start (length pak)) with segment_start by lia.
    rewrite (skipn_all2 (firstn segment_start pak))
      by (rewrite length_firstn; lia).
    rewrite (skipn_all2 compressed_data) by lia.
    rewrite skipn_skipn. simpl app.
    rewrite <- app_assoc. do 3 f_equal. f_equal. lia.
  - apply Z.ltb_ge in G2. f_equal. rewrite Hf.
    replace (segment_end - segment_start - length compressed_data)
      with 0 by lia.
    simpl. do 3 f_equal. lia.
Qed.

(* ================================================================== *)
(** ** Facts about the repack loop *)

Lemma note_calls_nil (st : repack_state) (name : string) :
  note_calls st name [] = st.
Proof. destruct st. unfold note_calls. simpl. now rewrite app_nil_r. Qed.

Lemma note_calls_cons (st : repack_state) (name : string) (l : nat)
    (levels : list nat) :
  note_calls (note_calls st name [l]) name levels
  = note_calls st name (l :: levels).
Proof. unfold note_calls. simpl. now rewrite <- app_assoc. Qed.

(** Levels whose output is too large are tried one after the other and
    leave the file as it is. *)
Lemma level_loop_oversize (levels rest : list nat) (e : edit)
    (dict_data : bytes) (segment_start segment_end : nat) :
  segment_start <= segment_end ->
  (forall l, In l levels ->
             oversize e dict_data (segment_end - segment_start) l) ->
  forall st,
    level_loop (levels ++ rest) st e dict_data segment_start segment_end
    = level_loop rest (note_calls st (file_name e) levels) e dict_data
        segment_start segment_end.
Proof.
  intros Hse. induction levels as [|l levels IH]; intros Hall st.
  - now rewrite note_calls_nil.
  - destruct (Hall l (or_introl eq_refl)) as (c & Hc & Hlen).
    simpl. rewrite Hc. simpl.
    rewrite replace_segment_too_large by lia.
    rewrite IH by (intros l' Hl'; apply Hall; now right).
    now rewrite note_calls_cons.
Qed.

(** A level whose output fits ends the loop. *)
Lemma level_loop_fit (l : nat) (rest : list nat) (st : repack_state)
    (e : edit) (dict_data compressed_data pak' : bytes)
    (segment_start segment_end : nat) :
  compress_file (input_data e) dict_data l = Ret compressed_data ->
  replace_segment (pak st) segment_start segment_end compressed_data
  = Ret pak' ->
  level_loop (l :: rest) st e dict_data segment_start segment_end
  = Normal (count_success
              (say (set_pak (note_calls st (file_name e) [l]) pak')
                 (Reimported (file_name e) l))).
Proof. intros Hc Hr. simpl. rewrite Hc. simpl. now rewrite Hr. Qed.

(** The level loop keeps the length of the file, however it ends. *)
Lemma level_loop_length (levels : list nat) (e : edit) (dict_data : bytes)
    (segment_start segment_end : nat) :
  forall st,
    segment_end <= length (pak st) ->
    match level_loop levels st e dict_data segment_start segment_end with
    | Normal st' | Escaped st' _ => length (pak st') = length (pak st)
    | Hang => True
    end.
Proof.
  induction levels as [|l levels IH]; intros st He; [reflexivity|].
  simpl. destruct (compress_file _ _ _) as [c| ex |]; simpl;
    [|destruct ex; try reflexivity; apply (IH (note_calls st _ [l]) He)
     |exact I].
  destruct (Z_lt_ge_dec (Z.of_nat segment_end - Z.of_nat segment_start)
              (Z.of_nat (length c))) as [Hbig|Hfit].
  - rewrite replace_segment_too_large by exact Hbig.
    apply (IH (note_calls st _ [l]) He).
  - rewrite replace_segment_fits by lia. simpl.
    rewrite !length_app, length_firstn, repeat_length, length_skipn. lia.
Qed.

Lemma repack_file_length (st : repack_state) (e : edit)
    (dict_data : bytes) :
  match repack_file st e dict_data with
  | Normal st' | Escaped st' _ => length (pak st') = length (pak st)
  | Hang => True
  end.
Proof.
  unfold repack_file.
  destruct (extract_segment _ _ _) as [[[s en] seg]| ex |] eqn:X;
    [|reflexivity|exact I].
  apply extract_segment_bounds in X as (_ & He & _); [|discriminate].
  pose proof (level_loop_length (seq 1 MAX_COMPRESSION_LEVEL) e dict_data
                s en st He) as H.
  destruct (level_loop _ _ _ _ _ _); simpl; exact H.
Qed.

Lemma repack_files_length (files : list edit) (dict_data : bytes) :
  forall st,
    match repack_files files st dict_data with
    | Normal st' | Escaped st' _ => length (pak st') = length (pak st)
    | Hang => True
    end.
Proof.
  induction files as [|e files IH]; intros st; [reflexivity|].
  simpl. pose proof (repack_file_length st e dict_data) as H.
  destruct (repack_file st e dict_data) as [st1|st1 ex|];
    [|exact H|exact I].
  specialize (IH st1). destruct (repack_files files st1 dict_data);
    try exact I; now rewrite IH.
Qed.

(** With a codec that returns, the level loop ends, normally or with an
    exception. *)
Lemma level_loop_returns (levels : list nat) (e : edit) (dict_data : bytes)
    (segment_start segment_end : nat) :
  codec_returns ->
  forall st,
    level_loop levels st e dict_data segment_start segment_end <> Hang.
Proof.
  intros Hc. induction levels as [|l levels IH]; intros st; [discriminate|].
  simpl. pose proof (Hc (input_data e) dict_data l) as Hl.
  destruct (compress_file _ _ _) as [c| ex |]; simpl;
    [| destruct ex; try discriminate; apply IH | contradiction].
  unfold replace_segment.
  destruct (_ <? _)%Z; [apply IH|].
  destruct (_ <? _)%Z; discriminate.
Qed.

(** ... and the body of the file loop ends normally: line 309 catches what
    the level loop lets through. *)
Lemma repack_file_returns (st : repack_state) (e : edit)
    (dict_data : bytes) :
  codec_returns -> exists st', repack_file st e dict_data = Normal st'.
Proof.
  intros Hc. unfold repack_file.
  destruct (extract_segment _ _ _) as [[[s en] seg]| ex |] eqn:X.
  - pose proof (level_loop_returns (seq 1 MAX_COMPRESSION_LEVEL) e
                  dict_data s en Hc st) as H.
    destruct (level_loop _ _ _ _ _ _); eauto. contradiction.
  - eauto.
  - destruct (boundaries_scanned (pak st) MAGIC_NUMBER) as (b & Hb & _);
      [discriminate|].
    rewrite (extract_segment_spec _ _ _ _ Hb) in X.
    destruct (_ || _)%bool; discriminate.
Qed.

Lemma repack_files_returns (files : list edit) (dict_data : bytes) :
  codec_returns ->
  forall st, exists st', repack_files files st dict_data = Normal st'.
Proof.
  intros Hc. induction files as [|e files IH]; intros st; simpl; [eauto|].
  destruct (repack_file_returns st e dict_data Hc) as [st1 ->].
  apply IH.
Qed.

Lemma seq_split_at (level n : nat) :
  1 <= level <= n ->
  seq 1 n = seq 1 (level - 1) ++ level :: seq (S level) (n - level).
Proof.
  intros H. replace n with ((level - 1) + S (n - level)) at 1 by lia.
  rewrite seq_app. f_equal.
  replace (1 + (level - 1)) with level by lia. reflexivity.
Qed.

(** No occurrence of the marker, no embedded dictionary. *)
Lemma extract_dictionary_absent (data start_hex : bytes) :
  occurrences data start_hex = [] ->
  extract_dictionary_from_pak data start_hex = Raise ValueError.
Proof.
  intros Hocc. unfold extract_dictionary_from_pak.
  now rewrite (find_no_occurrence _ _ Hocc).
Qed.

(* ================================================================== *)
(** ** More facts about occurrences *)

Lemma starts_with_of_firstn (data sub : bytes) :
  firstn (length sub) data = sub -> starts_with data sub = true.
Proof.
  intros H. rewrite <- (firstn_skipn (length sub) data), H.
  apply starts_with_app.
Qed.

(** An occurrence is a window of the data equal to the pattern. *)
Lemma occurs_at_window (data sub : bytes) (j : nat) :
  occurs_at data sub j = true <->
  j + length sub <= length data /\ slice data j (j + length sub) = sub.
Proof.
  unfold slice. replace (j + length sub - j) with (length sub) by lia.
  split.
  - intros H. split; [now apply occurs_at_bound|].
    unfold occurs_at in H. apply andb_true_iff in H as [_ H].
    now apply starts_with_firstn.
  - intros [Hb Hw]. unfold occurs_at. apply andb_true_iff. split.
    + apply Nat.leb_le. lia.
    + now apply starts_with_of_firstn.
Qed.

Lemma occurs_in_occurrences (data sub : bytes) (j : nat) :
  In j (occurrences data sub) <-> occurs_at data sub j = true.
Proof using.
  unfold occurrences. rewrite filter_In, in_seq.
  split; [intros [_ H]; exact H|].
  intros H. split; [|exact H]. apply occurs_at_bound in H. lia.
Qed.

Lemma slice_app_l (a b : bytes) (lo hi : nat) :
  hi <= length a -> slice (a ++ b) lo hi = slice a lo hi.
Proof.
  intros H. unfold slice. rewrite skipn_app, firstn_app.
  rewrite length_skipn.
  replace (hi - lo - (length a - lo)) with 0 by lia.
  simpl. apply app_nil_r.
Qed.

Lemma slice_app_r (a b : bytes) (lo hi : nat) :
  length a <= lo ->
  slice (a ++ b) lo hi = slice b (lo - length a) (hi - length a).
Proof.
  intros H. unfold slice. rewrite skipn_app.
  rewrite (skipn_all2 a) by lia. simpl. f_equal. lia.
Qed.

Lemma slice_slice (data : bytes) (s e lo hi : nat) :
  s + hi <= e -> e <= length data ->
  slice (slice data s e) lo hi = slice data (s + lo) (s + hi).
Proof.
  intros H He. unfold slice.
  rewrite skipn_firstn_comm, firstn_firstn, skipn_skipn.
  replace (lo + s) with (s + lo) by lia. f_equal. lia.
Qed.

Lemma slice_full (data : bytes) : slice data 0 (length data) = data.
Proof. unfold slice. rewrite Nat.sub_0_r. apply firstn_all. Qed.

Lemma firstn_plus {A : Type} (a b : nat) (l : list A) :
  firstn (a + b) l = firstn a l ++ firstn b (skipn a l).
Proof.
  revert l; induction a as [|a IH]; intros [|x l]; simpl;
    try reflexivity.
  - now rewrite firstn_nil.
  - now rewrite IH.
Qed.

Lemma slice_split (data : bytes) (lo mid hi : nat) :
  lo <= mid <= hi ->
  slice data lo mid ++ slice data mid hi = slice data lo hi.
Proof.
  intros H. unfold slice.
  replace (hi - lo) with ((mid - lo) + (hi - mid)) by lia.
  rewrite firstn_plus, skipn_skipn.
  replace (mid - lo + lo) with mid by lia. reflexivity.
Qed.

(** A window inside the first part of the data, or after it. *)
Lemma occurs_at_app_l (a b sub : bytes) (j : nat) :
  j + length sub <= length a ->
  occurs_at (a ++ b) sub j = occurs_at a sub j.
Proof using.
  intros H. apply eq_true_iff_eq. rewrite !occurs_at_window.
  rewrite slice_app_l, length_app by exact H.
  split; intros [H1 H2]; (split; [lia | exact H2]).
Qed.

Lemma occurs_at_app_r (a b sub : bytes) (j : nat) :
  length a <= j ->
  occurs_at (a ++ b) sub j = occurs_at b sub (j - length a).
Proof using.
  intros H. apply eq_true_iff_eq. rewrite !occurs_at_window.
  rewrite slice_app_r, length_app by exact H.
  replace (j + length sub - length a) with (j - length a + length sub)
    by lia.
  split; intros [H1 H2]; (split; [lia | exact H2]).
Qed.

Lemma occurs_at_slice (data sub : bytes) (s e j : nat) :
  s + j + length sub <= e -> e <= length data ->
  occurs_at (slice data s e) sub j = occurs_at data sub (s + j).
Proof using.
  intros H He. apply eq_true_iff_eq. rewrite !occurs_at_window.
  rewrite slice_slice by lia. rewrite length_slice by exact He.
  replace (s + (j + length sub)) with (s + j + length sub) by lia.
  split; intros [H1 H2]; (split; [lia | exact H2]).
Qed.

(** [scanned] has one result. *)
Lemma scanned_unique (data magic : bytes) (start : nat) (f1 f2 : list nat) :
  scanned data magic start f1 -> scanned data magic start f2 -> f1 = f2.
Proof.
  intros H1. revert f2.
  induction H1 as [s F|s i rest F _ IH]; intros f2 H2;
    inversion H2 as [s' F'|s' i' rest' F' Hr]; subst; try congruence.
  rewrite F in F'. injection F' as <-. f_equal. now apply IH.
Qed.

(** What the scan leaves between two neighbouring boundaries: the first is
    an occurrence, nothing occurs from its end to the second, and the second
    is an occurrence or the end of the data. *)
Lemma scanned_neighbours (data magic : bytes) (start : nat)
    (found : list nat) :
  scanned data magic start found ->
  forall n, n < length found ->
    let a := nth n (found ++ [length data]) 0 in
    let b := nth (S n) (found ++ [length data]) 0 in
    occurs_at data magic a = true
    /\ (forall j, a + length magic <= j -> j < b ->
                  occurs_at data magic j = false)
    /\ (b = length data \/ occurs_at data magic b = true).
Proof.
  induction 1 as [s F|s i rest F Hrest IH]; intros n Hn; [simpl in Hn; lia|].
  destruct n as [|n].
  - cbv zeta. simpl nth at 1 3.
    pose proof F as Hi. apply find_Some in Hi as (_ & Hi & _).
    inversion Hrest as [s' F'|s' i' rest' F' Hr]; subst.
    + simpl. split; [exact Hi|]. split; [|now left].
      intros j Hj _. now apply (find_None _ _ _ F').
    + simpl. apply find_Some in F' as (_ & Hi' & Hn').
      split; [exact Hi|]. split; [|now right].
      intros j Hj Hlt. apply Hn'. lia.
  - simpl in Hn. apply (IH n). lia.
Qed.

Lemma boundaries_of_scanned (data magic : bytes) (found : list nat) :
  magic <> [] -> scanned data magic 0 found ->
  boundaries data magic = Ret (found ++ [length data]).
Proof.
  intros Hm Hs.
  destruct (boundaries_scanned data magic Hm) as (starts & Hb & Hs').
  now rewrite (scanned_unique _ _ _ _ _ Hs Hs').
Qed.

(** The bytes between two neighbouring boundaries, taken alone, hold the
    pattern at their start and are scanned as one segment. *)
Lemma piece_scanned (data magic : bytes) (a b : nat) :
  magic <> [] ->
  occurs_at data magic a = true ->
  (forall j, a + length magic <= j -> j < b ->
             occurs_at data magic j = false) ->
  a + length magic <= b -> b <= length data ->
  scanned (slice data a b) magic 0 [0].
Proof.
  intros Hm Ha Hgap Hw Hb.
  pose proof (nonempty_length magic Hm) as Hpos.
  assert (Hfirst : occurs_at (slice data a b) magic 0 = true).
  { rewrite occurs_at_slice by lia. now rewrite Nat.add_0_r. }
  assert (Hlater : forall j, 0 < j ->
                             length magic <= j ->
                             occurs_at (slice data a b) magic j = false).
  { intros j _ Hj.
    destruct (occurs_at (slice data a b) magic j) eqn:E; [|reflexivity].
    pose proof (occurs_at_bound _ _ _ E) as Hfit.
    rewrite length_slice in Hfit by exact Hb.
    rewrite occurs_at_slice in E by lia.
    rewrite Hgap in E by lia. discriminate. }
  apply scanned_step.
  - destruct (find_occurs _ _ 0 0 (Nat.le_refl 0) Hfirst) as (i & F & Hi).
    rewrite F. f_equal. lia.
  - apply scanned_done.
    destruct (find (slice data a b) magic (0 + length magic)) as [i|] eqn:F;
      [|reflexivity].
    apply find_Some in F as (Hi & Ho & _).
    rewrite Hlater in Ho by lia. discriminate.
Qed.

Lemma split_segments_spec (data magic : bytes) :
  magic <> [] ->
  exists starts,
    scanned data magic 0 starts
    /\ boundaries data magic = Ret (starts ++ [length data])
    /\ split_segments data magic
       = Ret (segments_of data (starts ++ [length data])).
Proof.
  intros Hm.
  destruct (boundaries_scanned data magic Hm) as (starts & Hb & Hs).
  exists starts. split; [exact Hs|]. split; [exact Hb|].
  unfold split_segments. now rewrite Hb.
Qed.

(** An entry of the result of [split_segments]: its number, its range, and
    what the scan says of the two boundaries. *)
Lemma segments_of_entry (data magic : bytes) (starts : list nat)
    (i n : nat) (piece : bytes) :
  scanned data magic 0 starts ->
  nth_error (segments_of data (starts ++ [length data])) i
  = Some (n, piece) ->
  let a := nth i (starts ++ [length data]) 0 in
  let b := nth (S i) (starts ++ [length data]) 0 in
  i < length starts /\ n = i + 1 /\ piece = slice data a b
  /\ a + length magic <= b /\ b <= length data
  /\ occurs_at data magic a = true
  /\ (forall j, a + length magic <= j -> j < b ->
                occurs_at data magic j = false)
  /\ (b = length data \/ occurs_at data magic b = true).
Proof.
  intros Hs Hnth. cbv zeta.
  assert (Hi : i < length starts).
  { assert (Hlt : i < length (segments_of data (starts ++ [length data])))
      by (apply nth_error_Some; congruence).
    rewrite length_segments_of, length_app in Hlt. simpl in Hlt. lia. }
  rewrite nth_error_segments_of in Hnth
    by (rewrite length_app; simpl; lia).
  injection Hnth as <- <-.
  destruct (scanned_neighbours _ _ _ _ Hs i Hi) as (Ha & Hgap & Hb).
  split; [exact Hi|]. split; [reflexivity|]. split; [reflexivity|].
  split.
  { apply spaced_nth; [now apply scanned_spaced with (start := 0)|].
    rewrite length_app. simpl. lia. }
  split; [now apply scanned_nth_le with (magic := magic) (start := 0)|].
  repeat split; assumption.
Qed.

Lemma tiles_le (lo hi : nat) (ranges : list (nat * nat)) :
  tiles lo ranges hi -> lo <= hi.
Proof.
  revert lo; induction ranges as [|[s e] rest IH]; intros lo; simpl.
  - intros ->. lia.
  - intros (-> & Hlt & Ht). apply IH in Ht. lia.
Qed.

(** The slices of ranges that tile [lo, hi), put end to end. *)
Lemma concat_tiles (data : bytes) (ranges : list (nat * nat)) :
  forall lo hi,
    tiles lo ranges hi ->
    concat (map (fun r => slice data (fst r) (snd r)) ranges)
    = slice data lo hi.
Proof.
  induction ranges as [|[s e] rest IH]; intros lo hi; simpl.
  - intros ->. unfold slice. now rewrite Nat.sub_diag.
  - intros (-> & Hlt & Ht). rewrite (IH _ _ Ht).
    apply slice_split. apply tiles_le in Ht. lia.
Qed.

Lemma segments_of_ranges (data : bytes) (split_indices : list nat) :
  map snd (segments_of data split_indices)
  = map (fun r => slice data (fst r) (snd r)) (ranges_of split_indices).
Proof.
  apply nth_error_ext. intros n. rewrite !nth_error_map.
  destruct (Nat.lt_ge_cases (S n) (length split_indices)) as [Hn|Hn].
  - rewrite nth_error_segments_of by exact Hn.
    assert (R : nth_error (ranges_of split_indices) n
                = Some (nth n split_indices 0, nth (S n) split_indices 0))
      by (apply nth_error_ranges_of; auto).
    now rewrite R.
  - rewrite (proj2 (nth_error_None _ _))
      by (rewrite length_segments_of; lia).
    rewrite (proj2 (nth_error_None _ _))
      by (rewrite length_ranges_of; lia).
    reflexivity.
Qed.

(** The embedded dictionary is found exactly when the marker occurs. *)
Lemma extract_dictionary_cases (data start_hex : bytes) :
  occurrences data start_hex = []
  /\ extract_dictionary_from_pak data start_hex = Raise ValueError
  \/ occurrences data start_hex <> []
     /\ exists d, extract_dictionary_from_pak data start_hex = Ret d.
Proof.
  destruct (occurrences data start_hex) as [|j l] eqn:E.
  - left. split; [reflexivity|]. now apply extract_dictionary_absent.
  - right. split; [discriminate|].
    assert (Ho : occurs_at data start_hex j = true)
      by (apply occurs_in_occurrences; rewrite E; now left).
    destruct (find_occurs _ _ 0 j (Nat.le_0_l j) Ho) as (i & F & _).
    unfold extract_dictionary_from_pak. rewrite F. eauto.
Qed.

(* ================================================================== *)
(** ** More facts about the patch writer *)

Lemma firstn_app_exact {A : Type} (a b : list A) (n : nat) :
  length a = n -> firstn n (a ++ b) = a.
Proof.
  intros <-. rewrite firstn_app, Nat.sub_diag, firstn_all. simpl.
  apply app_nil_r.
Qed.

Lemma skipn_app_exact {A : Type} (a b : list A) (n : nat) :
  length a = n -> skipn n (a ++ b) = b.
Proof.
  intros <-. rewrite skipn_app, Nat.sub_diag, skipn_all. reflexivity.
Qed.

(** The patch of the middle of three parts. *)
Lemma replace_segment_app (before old after compressed_data : bytes) :
  length compressed_data <= length old ->
  replace_segment (before ++ old ++ after) (length before)
    (length before + length old) compressed_data
  = Ret (before ++ compressed_data
         ++ repeat x00 (length old - length compressed_data) ++ after).
Proof.
  intros H.
  rewrite replace_segment_fits by (rewrite ?length_app; lia).
  rewrite firstn_app_exact by reflexivity.
  rewrite (app_assoc before old after).
  rewrite skipn_app_exact by (rewrite length_app; reflexivity).
  do 3 f_equal. f_equal. f_equal. lia.
Qed.

(** A file cut at two offsets. *)
Lemma cut_at (pak : bytes) (s e : nat) :
  s <= e -> e <= length pak ->
  pak = firstn s pak ++ slice pak s e ++ skipn e pak
  /\ length (firstn s pak) = s
  /\ length (slice pak s e) = e - s.
Proof.
  intros Hse He. split; [|split].
  - rewrite <- (firstn_skipn s pak) at 1. f_equal.
    rewrite <- (firstn_skipn (e - s) (skipn s pak)) at 1.
    unfold slice. f_equal. rewrite skipn_skipn. f_equal. lia.
  - rewrite length_firstn. lia.
  - now apply length_slice.
Qed.

Lemma replace_segment_middle (before old after compressed_data : bytes)
    (s e : nat) :
  s = length before -> e = s + length old ->
  length compressed_data <= length old ->
  replace_segment (before ++ old ++ after) s e compressed_data
  = Ret (before ++ compressed_data
         ++ repeat x00 (length old - length compressed_data) ++ after).
Proof. intros -> -> H. now apply replace_segment_app. Qed.

Lemma skipn_cut (pak : bytes) (a b : nat) :
  a <= b -> skipn a pak = slice pak a b ++ skipn b pak.
Proof.
  intros H. rewrite <- (firstn_skipn (b - a) (skipn a pak)) at 1.
  unfold slice. f_equal. rewrite skipn_skipn. f_equal. lia.
Qed.

(** Two patches of the second and fourth of five parts, in both orders. *)
Lemma replace_segment_commute_app (p1 o1 p2 o2 p3 c1 c2 : bytes)
    (s1 e1 s2 e2 : nat) :
  s1 = length p1 -> e1 = s1 + length o1 ->
  s2 = e1 + length p2 -> e2 = s2 + length o2 ->
  length c1 <= length o1 -> length c2 <= length o2 ->
  let pak := p1 ++ o1 ++ p2 ++ o2 ++ p3 in
  let pak' := p1 ++ c1 ++ repeat x00 (length o1 - length c1) ++ p2
              ++ c2 ++ repeat x00 (length o2 - length c2) ++ p3 in
  (pak1 <- replace_segment pak s1 e1 c1 ;; replace_segment pak1 s2 e2 c2)
  = Ret pak'
  /\ (pak2 <- replace_segment pak s2 e2 c2 ;; replace_segment pak2 s1 e1 c1)
     = Ret pak'.
Proof.
  intros Hs1 He1 Hs2 He2 H1 H2. cbv zeta.
  set (z1 := repeat x00 (length o1 - length c1)).
  set (z2 := repeat x00 (length o2 - length c2)).
  assert (Hz1 : length z1 = length o1 - length c1) by apply repeat_length.
  assert (Hz2 : length z2 = length o2 - length c2) by apply repeat_length.
  split.
  - rewrite (replace_segment_middle p1 o1 (p2 ++ o2 ++ p3) c1 s1 e1)
      by assumption.
    simpl. fold z1.
    replace (p1 ++ c1 ++ z1 ++ p2 ++ o2 ++ p3)
      with ((p1 ++ c1 ++ z1 ++ p2) ++ o2 ++ p3)
      by (now rewrite <- !app_assoc).
    rewrite (replace_segment_middle _ o2 p3 c2 s2 e2);
      [|rewrite !length_app; lia|assumption|assumption].
    fold z2. now rewrite <- !app_assoc.
  - replace (p1 ++ o1 ++ p2 ++ o2 ++ p3)
      with ((p1 ++ o1 ++ p2) ++ o2 ++ p3)
      by (now rewrite <- !app_assoc).
    rewrite (replace_segment_middle _ o2 p3 c2 s2 e2);
      [|rewrite !length_app; lia|assumption|assumption].
    simpl. fold z2. rewrite <- !app_assoc.
    rewrite (replace_segment_middle p1 o1 _ c1 s1 e1) by assumption.
    reflexivity.
Qed.

(* ================================================================== *)
(** ** Occurrences of the pattern after a patch *)

Lemma occurrences_single (data magic : bytes) :
  occurrences data magic = [0] ->
  occurs_at data magic 0 = true
  /\ forall j, 0 < j -> occurs_at data magic j = false.
Proof.
  intros H. split.
  - apply occurs_in_occurrences. rewrite H. now left.
  - intros j Hj. destruct (occurs_at data magic j) eqn:E; [|reflexivity].
    apply occurs_in_occurrences in E. rewrite H in E.
    destruct E as [E|[]]. lia.
Qed.

Lemma boundaries_unbordered (data magic : bytes) :
  magic <> [] -> unbordered magic = true ->
  boundaries data magic = Ret (occurrences data magic ++ [length data]).
Proof.
  intros Hm Hu.
  destruct (boundaries_scanned data magic Hm) as (starts & Hb & Hs).
  rewrite Hb. do 2 f_equal. unfold occurrences.
  rewrite (scanned_all_occurrences _ _ _ _ Hm Hu Hs).
  now rewrite Nat.sub_0_r.
Qed.

(** The middle part [x] of a file begins with the pattern and holds it
    nowhere else; what follows it is nothing or begins with the pattern.
    Then an occurrence of the pattern in the file is still one when [x] is
    replaced by a part [y] of the same length that begins with the
    pattern. *)
Lemma occurrence_survives_patch (magic pre x y post : bytes) (j : nat) :
  magic <> [] -> unbordered magic = true ->
  length x = length y ->
  occurs_at x magic 0 = true ->
  (forall k, 0 < k -> occurs_at x magic k = false) ->
  occurs_at y magic 0 = true ->
  post = [] \/ occurs_at post magic 0 = true ->
  occurs_at (pre ++ x ++ post) magic j = true ->
  occurs_at (pre ++ y ++ post) magic j = true.
Proof.
  intros Hm Hu Hlen Hx0 Hxk Hy0 Hpost Ho.
  pose proof (nonempty_length magic Hm) as Hpos.
  pose proof (occurs_at_bound _ _ _ Hx0) as Hxl.
  pose proof (occurs_at_bound _ _ _ Hy0) as Hyl.
  simpl in Hxl, Hyl.
  destruct (Nat.le_gt_cases (j + length magic) (length pre)) as [Hc1|Hc1].
  { (* before the part *)
    rewrite occurs_at_app_l in Ho |- * by exact Hc1. exact Ho. }
  destruct (Nat.le_gt_cases (length pre + length x) j) as [Hc2|Hc2].
  { (* after the part *)
    rewrite app_assoc in Ho |- *.
    rewrite occurs_at_app_r in Ho |- * by (rewrite length_app; lia).
    rewrite !length_app in Ho |- *. now rewrite <- Hlen. }
  destruct (Nat.lt_trichotomy j (length pre)) as [Hc3|[Hc3|Hc3]].
  - (* over the start of the part *)
    apply occurs_at_window in Hx0 as [_ Hx0].
    apply occurs_at_window in Hy0 as [_ Hy0].
    simpl in Hx0, Hy0.
    assert (Ex : x = magic ++ skipn (length magic) x).
    { rewrite <- Hx0 at 1. unfold slice. rewrite Nat.sub_0_r. simpl.
      now rewrite firstn_skipn. }
    assert (Ey : y = magic ++ skipn (length magic) y).
    { rewrite <- Hy0 at 1. unfold slice. rewrite Nat.sub_0_r. simpl.
      now rewrite firstn_skipn. }
    rewrite Ex in Ho. rewrite Ey.
    rewrite <- !app_assoc in Ho |- *.
    rewrite (app_assoc pre magic) in Ho |- *.
    rewrite occurs_at_app_l in Ho |- * by (rewrite length_app; lia).
    exact Ho.
  - (* at the start of the part *)
    subst j. rewrite occurs_at_app_r by lia. rewrite Nat.sub_diag.
    rewrite occurs_at_app_l by (simpl; lia). exact Hy0.
  - (* inside the part: there is no such occurrence *)
    exfalso.
    rewrite occurs_at_app_r in Ho by lia.
    destruct (Nat.le_gt_cases (j - length pre + length magic) (length x))
      as [Hin|Hout].
    + rewrite occurs_at_app_l in Ho by exact Hin.
      rewrite Hxk in Ho by lia. discriminate.
    + pose proof (occurs_at_bound _ _ _ Ho) as Hfit.
      rewrite length_app in Hfit.
      destruct Hpost as [-> | Hp]; [simpl in Hfit; lia|].
      assert (He : occurs_at (x ++ post) magic (length x) = true).
      { rewrite occurs_at_app_r by lia. now rewrite Nat.sub_diag. }
      rewrite (unbordered_no_overlap _ _ (j - length pre) (length x) Hu Ho)
        in He by lia.
      discriminate.
Qed.

(** Zero bytes after a part bring no occurrence of a pattern that has no
    zero byte. *)
Lemma zero_padding_no_occurrence (magic c : bytes) (k j : nat) :
  magic <> [] -> ~ In x00 magic ->
  (forall i, 0 < i -> occurs_at c magic i = false) ->
  0 < j -> occurs_at (c ++ repeat x00 k) magic j = false.
Proof.
  intros Hm Hz Hc Hj.
  destruct (occurs_at (c ++ repeat x00 k) magic j) eqn:Ho; [|reflexivity].
  exfalso.
  destruct (Nat.le_gt_cases (j + length magic) (length c)) as [Hin|Hout].
  - rewrite occurs_at_app_l in Ho by exact Hin.
    rewrite Hc in Ho by exact Hj. discriminate.
  - apply occurs_at_window in Ho as [Hfit Hw].
    rewrite length_app, repeat_length in Hfit.
    set (p := Nat.max (length c) j).
    pose proof (nonempty_length magic Hm) as Hpos.
    assert (Hp : length c <= p /\ j <= p /\ p < j + length magic)
      by (unfold p; lia).
    clearbody p.
    assert (Hq : nth_error magic (p - j) = Some x00).
    { rewrite <- Hw. unfold slice.
      rewrite nth_error_firstn.
      replace (p - j <? j + length magic - j) with true
        by (symmetry; apply Nat.ltb_lt; lia).
      rewrite nth_error_skipn.
      rewrite nth_error_app2 by lia.
      apply nth_error_repeat. lia. }
    clear Hp.
    apply nth_error_In in Hq. contradiction.
Qed.

Lemma occurs_at_0_app (a b magic : bytes) :
  occurs_at a magic 0 = true -> occurs_at (a ++ b) magic 0 = true.
Proof.
  intros H. rewrite occurs_at_app_l; [exact H|].
  apply occurs_at_bound in H. exact H.
Qed.

(** What [extract_segment] returns, with what the scan says of the two
    boundaries of the range. *)
Lemma extract_segment_entry (data magic : bytes) (segment_index : Z)
    (s e : nat) (d : bytes) :
  magic <> [] ->
  extract_segment data segment_index magic = Ret (s, e, d) ->
  s + length magic <= e /\ e <= length data /\ d = slice data s e
  /\ occurs_at data magic s = true
  /\ (forall j, s + length magic <= j -> j < e ->
                occurs_at data magic j = false)
  /\ (e = length data \/ occurs_at data magic e = true).
Proof.
  intros Hm H.
  destruct (extract_segment_bounds _ _ _ _ _ _ Hm H) as (Hw & He & Hd).
  destruct (boundaries_scanned data magic Hm) as (starts & Hb & Hs).
  rewrite (extract_segment_spec _ _ _ _ Hb) in H.
  destruct (_ || _)%bool eqn:G in H; [discriminate|].
  apply orb_false_iff in G as [G1 G2]. apply Z.ltb_ge in G1, G2.
  rewrite length_app in G2. simpl in G2.
  cbv zeta in H. injection H as Hs1 He1 _.
  replace (Z.to_nat segment_index)
    with (S (Z.to_nat (segment_index - 1))) in He1 by lia.
  destruct (scanned_neighbours _ _ _ _ Hs (Z.to_nat (segment_index - 1)))
    as (Ha & Hgap & Hend); [lia|].
  rewrite Hs1 in Ha, Hgap. rewrite He1 in Hgap, Hend.
  repeat split; assumption.
Qed.

(** The bytes of a range returned by [extract_segment] begin with the
    pattern and, when the pattern cannot overlap itself, hold it nowhere
    else. *)
Lemma segment_marker_only_first (data magic : bytes) (s e : nat) :
  magic <> [] -> unbordered magic = true ->
  s + length magic <= e -> e <= length data ->
  occurs_at data magic s = true ->
  (forall j, s + length magic <= j -> j < e ->
             occurs_at data magic j = false) ->
  occurs_at (slice data s e) magic 0 = true
  /\ forall k, 0 < k -> occurs_at (slice data s e) magic k = false.
Proof.
  intros Hm Hu Hw He Ha Hgap.
  pose proof (nonempty_length magic Hm) as Hpos.
  assert (H0 : occurs_at (slice data s e) magic 0 = true).
  { rewrite occurs_at_slice by lia. now rewrite Nat.add_0_r. }
  split; [exact H0|].
  intros k Hk.
  destruct (occurs_at (slice data s e) magic k) eqn:E; [|reflexivity].
  destruct (Nat.lt_ge_cases k (length magic)) as [Hlt|Hge].
  - rewrite (unbordered_no_overlap _ _ 0 k Hu H0) in E by lia.
    discriminate.
  - pose proof (occurs_at_bound _ _ _ E) as Hfit.
    rewrite length_slice in Hfit by exact He.
    rewrite occurs_at_slice in E by lia.
    rewrite Hgap in E by lia. discriminate.
Qed.

(** A patch of a range returned by [extract_segment] with bytes that hold
    the magic at their start and nowhere else leaves every occurrence of
    the magic where it was. *)
Lemma patch_keeps_occurrences (pak c old : bytes) (segment_index : Z)
    (s e : nat) :
  extract_segment pak segment_index MAGIC_NUMBER = Ret (s, e, old) ->
  s + length c <= e ->
  occurrences c MAGIC_NUMBER = [0] ->
  exists pak',
    replace_segment pak s e c = Ret pak'
    /\ length pak' = length pak
    /\ occurrences pak' MAGIC_NUMBER = occurrences pak MAGIC_NUMBER.
Proof.
  intros X Hfit Hclean.
  assert (Hm : MAGIC_NUMBER <> []) by discriminate.
  assert (Hu : unbordered MAGIC_NUMBER = true) by reflexivity.
  destruct (extract_segment_entry _ _ _ _ _ _ Hm X)
    as (Hw & He & _ & Ha & Hgap & Hend).
  destruct (segment_marker_only_first _ _ _ _ Hm Hu Hw He Ha Hgap)
    as (Hx0 & Hxk).
  destruct (occurrences_single _ _ Hclean) as (Hc0 & Hck).
  set (pad := repeat x00 (e - s - length c)).
  assert (Hy0 : occurs_at (c ++ pad) MAGIC_NUMBER 0 = true)
    by now apply occurs_at_0_app.
  assert (Hyk : forall k, 0 < k ->
                          occurs_at (c ++ pad) MAGIC_NUMBER k = false).
  { intros k Hk. apply zero_padding_no_occurrence; try assumption.
    simpl. intros [H|[H|[H|[H|[]]]]]; discriminate. }
  assert (Hpost : skipn e pak = []
                  \/ occurs_at (skipn e pak) MAGIC_NUMBER 0 = true).
  { destruct Hend as [-> | Hoe]; [left; apply skipn_all|].
    right. unfold occurs_at in Hoe |- *.
    apply andb_true_iff in Hoe as [_ Hoe]. simpl. exact Hoe. }
  destruct (cut_at pak s e) as (Hp & Hl1 & Hl2); [lia | exact He |].
  assert (Hlen : length (slice pak s e) = length (c ++ pad)).
  { rewrite Hl2, length_app. unfold pad. rewrite repeat_length. lia. }
  eexists. split; [apply replace_segment_fits; lia|]. fold pad.
  assert (Hsame : length (firstn s pak ++ c ++ pad ++ skipn e pak)
                  = length pak).
  { rewrite !length_app, length_firstn, length_skipn. unfold pad.
    rewrite repeat_length. lia. }
  split; [exact Hsame|].
  assert (Hpt : forall j,
             occurs_at (firstn s pak ++ (c ++ pad) ++ skipn e pak)
               MAGIC_NUMBER j
             = occurs_at (firstn s pak ++ slice pak s e ++ skipn e pak)
                 MAGIC_NUMBER j).
  { intros j. apply eq_true_iff_eq. split; intros Ho.
    - apply (occurrence_survives_patch MAGIC_NUMBER _ (c ++ pad)); auto.
    - apply (occurrence_survives_patch MAGIC_NUMBER _ (slice pak s e));
        auto. }
  rewrite <- Hp, <- app_assoc in Hpt.
  unfold occurrences. rewrite Hsame. now apply filter_ext.
Qed.

(* ================================================================== *)
(** ** More facts about the repack loop *)

(** Levels whose attempt ends in a [ValueError] are tried one after the
    other and leave the file as it is. *)
Lemma level_loop_skipped (levels rest : list nat) (e : edit)
    (dict_data : bytes) (segment_start segment_end : nat) :
  segment_start <= segment_end ->
  (forall l, In l levels ->
             skipped e dict_data (segment_end - segment_start) l) ->
  forall st,
    level_loop (levels ++ rest) st e dict_data segment_start segment_end
    = level_loop rest (note_calls st (file_name e) levels) e dict_data
        segment_start segment_end.
Proof.
  intros Hse. induction levels as [|l levels IH]; intros Hall st.
  - now rewrite note_calls_nil.
  - assert (Hstep : (compressed_data <-
                       compress_file (input_data e) dict_data l ;;
                     replace_segment (pak (note_calls st (file_name e) [l]))
                       segment_start segment_end compressed_data)
                    = Raise ValueError).
    { destruct (Hall l (or_introl eq_refl)) as [Hv|(c & Hc & Hlen)].
      - now rewrite Hv.
      - rewrite Hc. simpl. apply replace_segment_too_large. lia. }
    simpl. simpl in Hstep. rewrite Hstep.
    rewrite IH by (intros l' Hl'; apply Hall; now right).
    now rewrite note_calls_cons.
Qed.

Lemma note_calls_app (st : repack_state) (name : string)
    (l1 l2 : list nat) :
  note_calls (note_calls st name l1) name l2 = note_calls st name (l1 ++ l2).
Proof. unfold note_calls. simpl. now rewrite map_app, <- app_assoc. Qed.

Lemma seq_snoc (level : nat) :
  1 <= level -> seq 1 (level - 1) ++ [level] = seq 1 level.
Proof.
  intros H. replace level with (S (level - 1)) at 3 by lia.
  rewrite seq_S. do 2 f_equal. lia.
Qed.

(** An exception of the codec that is not a [ValueError] leaves the loop. *)
Lemma level_loop_raise (l : nat) (rest : list nat) (st : repack_state)
    (e : edit) (dict_data : bytes) (segment_start segment_end : nat)
    (ex : exn) :
  compress_file (input_data e) dict_data l = Raise ex ->
  ex <> ValueError ->
  level_loop (l :: rest) st e dict_data segment_start segment_end
  = Escaped (note_calls st (file_name e) [l]) ex.
Proof.
  intros Hc Hex. simpl. rewrite Hc. simpl.
  destruct ex; try reflexivity. contradiction.
Qed.

(** The level loop keeps the occurrences of the magic where they are when
    the outputs of the codec are clean. *)
Lemma level_loop_occurrences (levels : list nat) (e : edit)
    (dict_data old : bytes) (segment_index : Z) (s en : nat) :
  clean_outputs e dict_data ->
  forall st,
    extract_segment (pak st) segment_index MAGIC_NUMBER = Ret (s, en, old) ->
    match level_loop levels st e dict_data s en with
    | Normal st' | Escaped st' _ =>
        length (pak st') = length (pak st)
        /\ occurrences (pak st') MAGIC_NUMBER
           = occurrences (pak st) MAGIC_NUMBER
    | Hang => True
    end.
Proof.
  intros Hclean.
  induction levels as [|l levels IH]; intros st X; [now split|].
  simpl. destruct (compress_file _ _ _) as [c| ex |] eqn:Hc; simpl;
    [|destruct ex; try (now split); apply (IH (note_calls st _ [l]) X)
     |exact I].
  destruct (Z_lt_ge_dec (Z.of_nat en - Z.of_nat s) (Z.of_nat (length c)))
    as [Hbig|Hfit].
  - rewrite replace_segment_too_large by exact Hbig.
    apply (IH (note_calls st _ [l]) X).
  - pose proof X as Hb.
    apply extract_segment_bounds in Hb as (Hw & _ & _); [|discriminate].
    destruct (patch_keeps_occurrences (pak st) c old segment_index s en X)
      as (pak' & Hr & Hl & Ho); [lia|now apply (Hclean l)|].
    rewrite Hr. simpl. now split.
Qed.

Lemma repack_file_occurrences (st : repack_state) (e : edit)
    (dict_data : bytes) :
  clean_outputs e dict_data ->
  match repack_file st e dict_data with
  | Normal st' | Escaped st' _ =>
      length (pak st') = length (pak st)
      /\ occurrences (pak st') MAGIC_NUMBER
         = occurrences (pak st) MAGIC_NUMBER
  | Hang => True
  end.
Proof.
  intros Hclean. unfold repack_file.
  destruct (extract_segment _ _ _) as [[[s en] seg]| ex |] eqn:X;
    [|now split|exact I].
  pose proof (level_loop_occurrences (seq 1 MAX_COMPRESSION_LEVEL) e
                dict_data seg _ s en Hclean st X) as H.
  destruct (level_loop _ _ _ _ _ _); simpl; exact H.
Qed.

Lemma repack_files_occurrences (files : list edit) (dict_data : bytes) :
  (forall e, In e files -> clean_outputs e dict_data) ->
  forall st,
    match repack_files files st dict_data with
    | Normal st' | Escaped st' _ =>
        length (pak st') = length (pak st)
        /\ occurrences (pak st') MAGIC_NUMBER
           = occurrences (pak st) MAGIC_NUMBER
    | Hang => True
    end.
Proof.
  induction files as [|e files IH]; intros Hclean st; [now split|].
  simpl.
  pose proof (repack_file_occurrences st e dict_data
                (Hclean e (or_introl eq_refl))) as H.
  destruct (repack_file st e dict_data) as [st1|st1 ex|];
    [|exact H|exact I].
  specialize (IH (fun e' He' => Hclean e' (or_intror He')) st1).
  destruct (repack_files files st1 dict_data); try exact I;
    destruct IH as [IH1 IH2]; destruct H as [H1 H2]; split; congruence.
Qed.

(** What the level loop adds to the console and to the count: one line and
    one success, or one line of failure, or nothing when an exception is on
    its way out. *)
Lemma level_loop_log (levels : list nat) (e : edit) (dict_data : bytes)
    (s en : nat) :
  forall st,
    match level_loop levels st e dict_data s en with
    | Normal st' =>
        exists m,
          log st' = log st ++ [m]
          /\ success_count st'
             = success_count st + (if is_reimported m then 1 else 0)
    | Escaped st' _ =>
        log st' = log st /\ success_count st' = success_count st
    | Hang => True
    end.
Proof.
  induction levels as [|l levels IH]; intros st.
  - simpl. exists (FailedToReimport (file_name e)). split; [reflexivity|].
    simpl. lia.
  - simpl. destruct (compress_file _ _ _) as [c| ex |]; simpl;
      [|destruct ex; try (now split); apply (IH (note_calls st _ [l]))
       |exact I].
    destruct (replace_segment _ _ _ _) as [pak'| ex |];
      [|destruct ex; try (now split); apply (IH (note_calls st _ [l]))
       |exact I].
    exists (Reimported (file_name e) l). now split.
Qed.

Lemma repack_file_log (st : repack_state) (e : edit) (dict_data : bytes) :
  match repack_file st e dict_data with
  | Normal st' =>
      exists m,
        log st' = log st ++ [m]
        /\ success_count st'
           = success_count st + (if is_reimported m then 1 else 0)
  | Escaped _ _ => False
  | Hang => True
  end.
Proof.
  unfold repack_file.
  destruct (extract_segment _ _ _) as [[[s en] seg]| ex |].
  - pose proof (level_loop_log (seq 1 MAX_COMPRESSION_LEVEL) e dict_data
                  s en st) as H.
    destruct (level_loop _ _ _ _ _ _) as [st'|st' ex|]; [exact H| |exact I].
    destruct H as [Hl Hc]. eexists. simpl. rewrite Hl, Hc.
    split; [reflexivity|]. simpl. lia.
  - eexists. simpl. split; [reflexivity|]. simpl. lia.
  - exact I.
Qed.

Lemma repack_files_log (files : list edit) (dict_data : bytes) :
  forall st,
    match repack_files files st dict_data with
    | Normal st' =>
        exists added,
          log st' = log st ++ added
          /\ length added = length files
          /\ success_count st'
             = success_count st + length (filter is_reimported added)
    | Escaped _ _ => False
    | Hang => True
    end.
Proof.
  induction files as [|e files IH]; intros st.
  - simpl. exists []. rewrite app_nil_r. simpl. repeat split. lia.
  - simpl. pose proof (repack_file_log st e dict_data) as H.
    destruct (repack_file st e dict_data) as [st1|st1 ex|];
      [|exact H|exact I].
    destruct H as (m & Hl & Hc). specialize (IH st1).
    destruct (repack_files files st1 dict_data) as [st2|st2 ex|];
      [|exact IH|exact I].
    destruct IH as (added & Hl2 & Hn & Hc2).
    exists (m :: added). rewrite Hl2, Hl, <- app_assoc.
    split; [reflexivity|]. split; [simpl; lia|].
    rewrite Hc2, Hc. simpl. destruct (is_reimported m); simpl; lia.
Qed.

(* ================================================================== *)
(** ** Facts about the sort of the files *)

Lemma insert_by_key_perm {A : Type} (x : Z * A) (l : list (Z * A)) :
  Permutation (insert_by_key x l) (x :: l).
Proof.
  induction l as [|y l IH]; simpl; [reflexivity|].
  destruct (fst x <=? fst y)%Z; [reflexivity|].
  rewrite IH. apply perm_swap.
Qed.

Lemma sorted_by_key_perm {A : Type} (l : list (Z * A)) :
  Permutation (sorted_by_key l) l.
Proof.
  induction l as [|x l IH]; simpl; [reflexivity|].
  rewrite insert_by_key_perm. now constructor.
Qed.

Lemma insert_by_key_sorted {A : Type} (x : Z * A) (l : list (Z * A)) :
  StronglySorted (fun a b => (fst a <= fst b)%Z) l ->
  StronglySorted (fun a b => (fst a <= fst b)%Z) (insert_by_key x l).
Proof.
  induction l as [|y l IH]; intros Hs; simpl.
  - constructor; constructor.
  - inversion Hs as [|y' l' Hl Hy]; subst.
    destruct (fst x <=? fst y)%Z eqn:E.
    + apply Z.leb_le in E. constructor; [exact Hs|].
      constructor; [exact E|].
      apply Forall_impl with (2 := Hy). intros a Ha. lia.
    + apply Z.leb_gt in E. constructor; [now apply IH|].
      apply Forall_forall. intros a Ha.
      apply (Permutation_in _ (insert_by_key_perm x l)) in Ha.
      destruct Ha as [<-|Ha]; [lia|].
      rewrite Forall_forall in Hy. now apply Hy.
Qed.

Lemma sorted_by_key_sorted {A : Type} (l : list (Z * A)) :
  StronglySorted (fun a b => (fst a <= fst b)%Z) (sorted_by_key l).
Proof.
  induction l as [|x l IH]; simpl; [constructor|].
  now apply insert_by_key_sorted.
Qed.

(** [with_keys] pairs every element with its key, in order. *)
Lemma with_keys_spec {A : Type} (key : A -> comp Z) (l : list A) :
  forall keyed,
    with_keys key l = Ret keyed ->
    map snd keyed = l
    /\ forall k x, In (k, x) keyed -> key x = Ret k.
Proof.
  induction l as [|x l IH]; intros keyed; simpl.
  - intros [= <-]. split; [reflexivity|]. intros k x [].
  - destruct (key x) as [k| |] eqn:K; simpl; try discriminate.
    destruct (with_keys key l) as [rest| |]; simpl; try discriminate.
    intros [= <-]. destruct (IH rest eq_refl) as [Hm Hk].
    split; [simpl; now rewrite Hm|].
    intros k' x' [[= <- <-]|Hin]; [exact K|now apply Hk].
Qed.

(** One key that raises [ValueError], among keys that return or raise
    [ValueError], makes [with_keys] raise it. *)
Lemma with_keys_raises {A : Type} (key : A -> comp Z) (l : list A) :
  (forall x, key x = Raise ValueError \/ exists k, key x = Ret k) ->
  (exists x, In x l /\ key x = Raise ValueError) ->
  with_keys key l = Raise ValueError.
Proof.
  intros Hkey. induction l as [|x l IH]; intros (bad & Hin & Hbad).
  - destruct Hin.
  - simpl. destruct (Hkey x) as [Hx|[k Hx]]; rewrite Hx; simpl;
      [reflexivity|].
    destruct Hin as [<-|Hin]; [congruence|].
    rewrite IH by eauto. reflexivity.
Qed.

(* ================================================================== *)
(** ** Facts about the names of the artifacts *)

Lemma length_append (a b : string) :
  String.length (a ++ b) = String.length a + String.length b.
Proof. induction a as [|c a IH]; simpl; [reflexivity | now rewrite IH]. Qed.

Lemma append_cancel_r (a b t : string) :
  (a ++ t)%string = (b ++ t)%string -> a = b.
Proof.
  revert b; induction a as [|c a IH]; intros [|d b] H; simpl in H.
  - reflexivity.
  - apply (f_equal String.length) in H. simpl in H.
    rewrite length_append in H. lia.
  - apply (f_equal String.length) in H. simpl in H.
    rewrite length_append in H. lia.
  - injection H as -> H. f_equal. now apply IH.
Qed.

Lemma decimal_value_zero (s : string) :
  decimal_value (String "0"%char s) = decimal_value s.
Proof.
  unfold decimal_value. simpl.
  destruct (NilEmpty.uint_of_string s); reflexivity.
Qed.

Lemma zeros_succ (k : nat) :
  String.concat "" (repeat "0"%string (S k))
  = String "0"%char (String.concat "" (repeat "0"%string k)).
Proof. destruct k; reflexivity. Qed.

Lemma decimal_value_zeros (k : nat) (s : string) :
  decimal_value (String.concat "" (repeat "0"%string k) ++ s)
  = decimal_value s.
Proof.
  induction k as [|k IH]; [reflexivity|].
  rewrite zeros_succ. simpl String.append.
  now rewrite decimal_value_zero.
Qed.

(** The name of an artifact writes the number of its segment. *)
Lemma decimal_value_format_08d (n : nat) :
  decimal_value (format_08d n) = Some n.
Proof.
  unfold format_08d. rewrite decimal_value_zeros.
  unfold decimal_value. rewrite NilEmpty.usu. simpl.
  now rewrite DecimalNat.Unsigned.of_to.
Qed.

Lemma artifact_name_injective (a b : nat) :
  (format_08d a ++ ".dat")%string = (format_08d b ++ ".dat")%string ->
  a = b.
Proof.
  intros H. apply append_cancel_r in H.
  apply (f_equal decimal_value) in H.
  rewrite !decimal_value_format_08d in H. congruence.
Qed.

(* ================================================================== *)
(** ** Facts about the unpack loop *)

Lemma read_write_same (dir : directory) (name : string) (content : bytes) :
  read_file (write_file dir name content) name = Some content.
Proof.
  induction dir as [|[n c] dir IH]; simpl.
  - now rewrite String.eqb_refl.
  - destruct (String.eqb n name) eqn:E; simpl; rewrite E; auto.
Qed.

Lemma read_write_other (dir : directory) (name other : string)
    (content : bytes) :
  name <> other ->
  read_file (write_file dir name content) other = read_file dir other.
Proof.
  intros Hne. induction dir as [|[n c] dir IH]; simpl.
  - destruct (String.eqb name other) eqn:E; [|reflexivity].
    apply String.eqb_eq in E. contradiction.
  - destruct (String.eqb n name) eqn:E; simpl.
    + apply String.eqb_eq in E. subst n.
      destruct (String.eqb name other) eqn:E'; [|reflexivity].
      apply String.eqb_eq in E'. contradiction.
    + destruct (String.eqb n other); [reflexivity | exact IH].
Qed.

(** [decompress_segment] on a decoder that returns or raises. *)
Lemma decompress_segment_spec (segment : nat * bytes) (dictionary : zdict)
    (dir : directory) :
  zstd_decompress dictionary (snd segment) <> Diverge ->
  exists dir',
    decompress_segment segment dictionary dir
    = Ret (dir', decompress_outcome dictionary segment)
    /\ forall name,
         read_file dir' name
         = match zstd_decompress dictionary (snd segment) with
           | Ret plain =>
               if String.eqb (format_08d (fst segment) ++ ".dat") name
               then Some plain else read_file dir name
           | _ => read_file dir name
           end.
Proof.
  intros Hd. destruct segment as [index data].
  unfold decompress_segment, decompress_outcome. simpl in *.
  destruct (zstd_decompress dictionary data) as [plain| ex |];
    [| eauto | contradiction].
  eexists. split; [reflexivity|]. intros name.
  destruct (String.eqb _ name) eqn:E.
  - apply String.eqb_eq in E. subst name. apply read_write_same.
  - apply read_write_other. intros H. rewrite H, String.eqb_refl in E.
    discriminate.
Qed.

(** The loop over the segments returns, with each segment's own outcome in
    the order of the segments. *)
Lemma decompress_all_results (segments : list (nat * bytes))
    (dictionary : zdict) :
  (forall seg, In seg segments ->
               zstd_decompress dictionary (snd seg) <> Diverge) ->
  forall dir,
    exists dir',
      decompress_all segments dictionary dir
      = Ret (dir', map (decompress_outcome dictionary) segments).
Proof.
  induction segments as [|seg segments IH]; intros Hd dir; simpl; [eauto|].
  destruct (decompress_segment_spec seg dictionary dir
              (Hd seg (or_introl eq_refl))) as (dir1 & -> & _).
  simpl.
  destruct (IH (fun s Hs => Hd s (or_intror Hs)) dir1) as (dir2 & ->).
  simpl. eauto.
Qed.

(** A file that no segment names is left as it is. *)
Lemma decompress_all_other (segments : list (nat * bytes))
    (dictionary : zdict) (name : string) :
  (forall seg, In seg segments ->
               (format_08d (fst seg) ++ ".dat")%string <> name) ->
  forall dir dir' results,
    decompress_all segments dictionary dir = Ret (dir', results) ->
    read_file dir' name = read_file dir name.
Proof.
  induction segments as [|seg segments IH]; intros Hn dir dir' results;
    simpl.
  - now intros [= <- _].
  - destruct (decompress_segment seg dictionary dir) as [[dir1 r]| |] eqn:S1;
      simpl; try discriminate.
    destruct (decompress_all segments dictionary dir1)
      as [[dir2 rs]| |] eqn:S2; simpl; try discriminate.
    intros [= <- _].
    rewrite (IH (fun s Hs => Hn s (or_intror Hs)) _ _ _ S2).
    assert (Hd : zstd_decompress dictionary (snd seg) <> Diverge).
    { intros Hd. destruct seg as [i d]. unfold decompress_segment in S1.
      simpl in Hd. rewrite Hd in S1. discriminate. }
    destruct (decompress_segment_spec seg dictionary dir Hd)
      as (dir1' & S1' & Hread).
    rewrite S1 in S1'. injection S1' as -> _.
    rewrite Hread.
    destruct (zstd_decompress dictionary (snd seg)); try reflexivity.
    destruct (String.eqb _ name) eqn:E; [|reflexivity].
    apply String.eqb_eq in E. now apply Hn in E; [|left].
Qed.

(** The artifact of a segment whose number no other segment has. *)
Lemma decompress_all_artifact (segments : list (nat * bytes))
    (dictionary : zdict) :
  NoDup (map fst segments) ->
  forall dir dir' results n piece,
    decompress_all segments dictionary dir = Ret (dir', results) ->
    In (n, piece) segments ->
    read_file dir' (format_08d n ++ ".dat")
    = match zstd_decompress dictionary piece with
      | Ret plain => Some plain
      | _ => read_file dir (format_08d n ++ ".dat")
      end.
Proof.
  induction segments as [|seg segments IH];
    intros Hnd dir dir' results n piece; simpl; [intros _ []|].
  inversion Hnd as [|i l Hnotin Hnd']; subst.
  destruct (decompress_segment seg dictionary dir) as [[dir1 r]| |] eqn:S1;
    simpl; try discriminate.
  destruct (decompress_all segments dictionary dir1)
    as [[dir2 rs]| |] eqn:S2; simpl; try discriminate.
  intros [= <- _] Hin.
  assert (Hd : zstd_decompress dictionary (snd seg) <> Diverge).
  { intros Hd. destruct seg as [i d]. unfold decompress_segment in S1.
    simpl in Hd. rewrite Hd in S1. discriminate. }
  destruct (decompress_segment_spec seg dictionary dir Hd)
    as (dir1' & S1' & Hread).
  rewrite S1 in S1'. injection S1' as <- _.
  destruct Hin as [->|Hin].
  - assert (Hothers : forall s, In s segments ->
                        (format_08d (fst s) ++ ".dat")%string
                        <> (format_08d n ++ ".dat")%string).
    { intros s Hs E. apply artifact_name_injective in E.
      apply Hnotin. simpl. rewrite <- E. now apply in_map. }
    rewrite (decompress_all_other segments dictionary _ Hothers _ _ _ S2).
    rewrite Hread. simpl.
    rewrite String.eqb_refl. now destruct (zstd_decompress dictionary piece).
  - rewrite (IH Hnd' _ _ _ _ _ S2 Hin).
    assert (Hne : (format_08d (fst seg) ++ ".dat")%string
                  <> (format_08d n ++ ".dat")%string).
    { intros E. apply artifact_name_injective in E.
      apply Hnotin. rewrite E. now apply (in_map fst _ (n, piece)). }
    assert (Hsame : read_file dir1 (format_08d n ++ ".dat")
                    = read_file dir (format_08d n ++ ".dat")).
    { rewrite Hread.
      destruct (zstd_decompress dictionary (snd seg)); try reflexivity.
      destruct (String.eqb _ _) eqn:E; [|reflexivity].
      apply String.eqb_eq in E. contradiction. }
    now rewrite Hsame.
Qed.

Lemma segments_of_numbers (data : bytes) (split_indices : list nat) :
  map fst (segments_of data split_indices)
  = seq 1 (length split_indices - 1).
Proof.
  unfold segments_of. rewrite map_map. simpl.
  rewrite <- seq_shift. apply map_ext. intros i. lia.
Qed.

(* ================================================================== *)
(** ** Facts about the detection of the files *)

Lemma pair_leb_total (a b : Z * Z) :
  pair_leb a b = false -> pair_leb b a = true.
Proof.
  unfold pair_leb. intros H.
  apply orb_false_iff in H as [H1 H2]. apply Z.ltb_ge in H1.
  apply andb_false_iff in H2.
  apply orb_true_iff.
  destruct (Z.eq_dec (fst a) (fst b)) as [E|E].
  - right. destruct H2 as [H2|H2]; [apply Z.eqb_neq in H2; lia|].
    apply Z.leb_gt in H2. apply andb_true_iff. split.
    + apply Z.eqb_eq. lia.
    + apply Z.leb_le. lia.
  - left. apply Z.ltb_lt. lia.
Qed.

Lemma pair_leb_trans (a b c : Z * Z) :
  pair_leb a b = true -> pair_leb b c = true -> pair_leb a c = true.
Proof.
  unfold pair_leb. intros H1 H2.
  apply orb_true_iff in H1. apply orb_true_iff in H2. apply orb_true_iff.
  rewrite !andb_true_iff, !Z.ltb_lt, !Z.eqb_eq, !Z.leb_le in *.
  lia.
Qed.

Lemma insert_by_perm {A : Type} (key : A -> Z * Z) (x : A) (l : list A) :
  Permutation (insert_by key x l) (x :: l).
Proof.
  induction l as [|y l IH]; simpl; [reflexivity|].
  destruct (pair_leb (key x) (key y)); [reflexivity|].
  rewrite IH. apply perm_swap.
Qed.

Lemma sort_by_perm {A : Type} (key : A -> Z * Z) (l : list A) :
  Permutation (sort_by key l) l.
Proof.
  induction l as [|x l IH]; simpl; [reflexivity|].
  rewrite insert_by_perm. now constructor.
Qed.

Lemma insert_by_sorted {A : Type} (key : A -> Z * Z) (x : A) (l : list A) :
  StronglySorted (fun a b => pair_leb (key a) (key b) = true) l ->
  StronglySorted (fun a b => pair_leb (key a) (key b) = true)
    (insert_by key x l).
Proof.
  induction l as [|y l IH]; intros Hs; simpl.
  - constructor; constructor.
  - inversion Hs as [|y' l' Hl Hy]; subst.
    destruct (pair_leb (key x) (key y)) eqn:E.
    + constructor; [exact Hs|]. constructor; [exact E|].
      apply Forall_impl with (2 := Hy). intros a Ha.
      now apply pair_leb_trans with (b := key y).
    + apply pair_leb_total in E. constructor; [now apply IH|].
      apply Forall_forall. intros a Ha.
      apply (Permutation_in _ (insert_by_perm key x l)) in Ha.
      destruct Ha as [<-|Ha]; [exact E|].
      rewrite Forall_forall in Hy. now apply Hy.
Qed.

Lemma sort_by_sorted {A : Type} (key : A -> Z * Z) (l : list A) :
  StronglySorted (fun a b => pair_leb (key a) (key b) = true)
    (sort_by key l).
Proof.
  induction l as [|x l IH]; simpl; [constructor|].
  now apply insert_by_sorted.
Qed.

(** The first element of the sorted list is one of the list, and its key
    is the least. *)
Lemma sort_by_head {A : Type} (key : A -> Z * Z) (l : list A) (d : A)
    (rest : list A) :
  sort_by key l = d :: rest ->
  In d l /\ forall c, In c l -> pair_leb (key d) (key c) = true.
Proof.
  intros H. pose proof (sort_by_sorted key l) as Hs.
  pose proof (sort_by_perm key l) as Hp. rewrite H in Hs, Hp.
  split; [apply (Permutation_in _ Hp); now left|].
  intros c Hc. apply (Permutation_in _ (Permutation_sym Hp)) in Hc.
  inversion Hs as [|d' l' _ Hall]; subst.
  destruct Hc as [<-|Hc].
  - unfold pair_leb. rewrite Z.eqb_refl, Z.leb_refl. simpl.
    apply orb_true_r.
  - rewrite Forall_forall in Hall. now apply Hall.
Qed.

Lemma sort_by_nil {A : Type} (key : A -> Z * Z) (l : list A) :
  sort_by key l = [] -> l = [].
Proof.
  intros H. pose proof (sort_by_perm key l) as Hp. rewrite H in Hp.
  now apply Permutation_nil in Hp.
Qed.

(** What the order of the keys says of two entries. *)
Lemma dict_key_leb (d c : sized_entry) :
  pair_leb (dict_key d) (dict_key c) = true ->
  (has_dict c = true -> has_dict d = true)
  /\ (has_dict c = has_dict d -> snd c <= snd d).
Proof.
  unfold pair_leb, dict_key, has_dict. simpl.
  destruct (contains "dict" (lower (fst d)));
    destruct (contains "dict" (lower (fst c))); simpl;
    rewrite ?orb_false_r, ?Z.leb_le; intros H; split; intros E;
    try reflexivity; try discriminate; try lia.
Qed.

Lemma substring_all (s : string) : String.substring 0 (String.length s) s = s.
Proof. induction s as [|c s IH]; simpl; [reflexivity | now rewrite IH]. Qed.

Lemma substring_split (i : nat) (s : string) :
  i <= String.length s ->
  exists pre,
    s = (pre ++ String.substring i (String.length s - i) s)%string.
Proof.
  revert s; induction i as [|i IH]; intros s Hi.
  - exists ""%string. rewrite Nat.sub_0_r, substring_all. reflexivity.
  - destruct s as [|c s]; simpl in Hi; [lia|].
    destruct (IH s) as [pre Hpre]; [lia|].
    exists (String c pre). simpl. now rewrite <- Hpre.
Qed.

Lemma endswith_split (name suffix : string) :
  endswith name suffix = true ->
  exists pre, name = (pre ++ suffix)%string.
Proof.
  unfold endswith. intros H. apply andb_true_iff in H as [Hk He].
  apply Nat.leb_le in Hk. apply String.eqb_eq in He.
  destruct (substring_split (String.length name - String.length suffix) name)
    as [pre Hpre]; [lia|].
  exists pre. rewrite Hpre at 1. f_equal.
  replace (String.length name
           - (String.length name - String.length suffix))
    with (String.length suffix) by lia.
  exact He.
Qed.

Lemma lower_append (a b : string) :
  lower (a ++ b) = (lower a ++ lower b)%string.
Proof. induction a as [|c a IH]; simpl; [reflexivity | now rewrite IH]. Qed.

Lemma contains_append (sub a s : string) :
  contains sub s = true -> contains sub (a ++ s) = true.
Proof.
  intros H. induction a as [|c a IH]; simpl; [exact H|].
  rewrite IH. apply orb_true_r.
Qed.

(** A name with one of the three extensions that hold [dict] has [dict] in
    it. *)
Lemma dict_extension_has_dict (name : string) :
  endswith name ".dict" = true \/ endswith name ".zstdict" = true
  \/ endswith name ".zdict" = true ->
  contains "dict" (lower name) = true.
Proof.
  intros [H|[H|H]]; apply endswith_split in H as [pre ->];
    rewrite lower_append; apply contains_append; reflexivity.
Qed.

(** The dictionary selected is a candidate with the least key. *)
Lemma detect_files_selects_best_aux (g : detected)
    (input_dir dict_dir : list sized_entry) :
  dict_candidates dict_dir <> [] ->
  exists d,
    In d (dict_candidates dict_dir)
    /\ dict_path (fst (fst (detect_files g input_dir dict_dir)))
       = Some (fst d)
    /\ forall c,
         In c (dict_candidates dict_dir) ->
         (has_dict c = true -> has_dict d = true)
         /\ (has_dict c = has_dict d -> snd c <= snd d).
Proof.
  intros Hne. unfold detect_files. fold (dict_candidates dict_dir).
  destruct (sort_by dict_key (dict_candidates dict_dir)) as [|d rest] eqn:S.
  - apply sort_by_nil in S. contradiction.
  - destruct (sort_by_head _ _ _ _ S) as [Hin Hmin].
    exists d. split; [exact Hin|].
    split; [now destruct (glob_ext input_dir ".pak")|].
    intros c Hc. apply dict_key_leb. now apply Hmin.
Qed.

(** *** The index and [extract_segment] *)

Lemma extract_segment_of_entry (data magic : bytes)
    (segments : list (nat * bytes)) (n : nat) (piece : bytes) :
  split_segments data magic = Ret segments ->
  In (n, piece) segments ->
  exists s e,
    extract_segment data (Z.of_nat n) magic = Ret (s, e, piece)
    /\ piece = slice data s e.
Proof using.
  unfold split_segments.
  destruct (boundaries data magic) as [si| |] eqn:B; simpl; try discriminate.
  intros [= <-] Hin. unfold segments_of in Hin.
  apply in_map_iff in Hin as (i & [= <- <-] & Hi). apply in_seq in Hi.
  rewrite (extract_segment_spec _ _ _ _ B).
  destruct (_ || _)%bool eqn:G.
  - apply orb_true_iff in G as [G|G]; apply Z.ltb_lt in G; lia.
  - cbv zeta.
    replace (Z.to_nat (Z.of_nat (i + 1) - 1)) with i by lia.
    replace (Z.to_nat (Z.of_nat (i + 1))) with (i + 1) by lia.
    eauto.
Qed.

Lemma entry_of_extract_segment (data magic : bytes)
    (segments : list (nat * bytes)) (k : Z) (s e : nat) (d : bytes) :
  split_segments data magic = Ret segments ->
  extract_segment data k magic = Ret (s, e, d) ->
  (1 <= k <= Z.of_nat (length segments))%Z
  /\ nth_error segments (Z.to_nat k - 1) = Some (Z.to_nat k, d).
Proof using.
  unfold split_segments.
  destruct (boundaries data magic) as [si| |] eqn:B; simpl; try discriminate.
  intros [= <-]. rewrite (extract_segment_spec _ _ _ _ B).
  destruct (_ || _)%bool eqn:G; [discriminate|].
  apply orb_false_iff in G as [G1 G2]. apply Z.ltb_ge in G1, G2.
  cbv zeta. intros [= <- <- <-].
  rewrite length_segments_of. split; [lia|].
  rewrite nth_error_segments_of by lia.
  replace (Z.to_nat (k - 1)) with (Z.to_nat k - 1) by lia.
  replace (S (Z.to_nat k - 1)) with (Z.to_nat k) by lia.
  replace (Z.to_nat k - 1 + 1) with (Z.to_nat k) by lia.
  reflexivity.
Qed.

(** *** A directory that gets new files *)

Lemma read_file_app (d1 d2 : directory) (name : string) :
  read_file (d1 ++ d2) name
  = match read_file d1 name with
    | Some c => Some c
    | None => read_file d2 name
    end.
Proof using.
  induction d1 as [|[n c] d1 IH]; simpl; [reflexivity|].
  destruct (String.eqb n name); [reflexivity|exact IH].
Qed.

Lemma read_file_absent (dir : directory) (name : string) :
  (forall c, ~ In (name, c) dir) -> read_file dir name = None.
Proof using.
  induction dir as [|[n c] dir IH]; intros H; simpl; [reflexivity|].
  destruct (String.eqb n name) eqn:E.
  - apply String.eqb_eq in E. subst n. exfalso. apply (H c). now left.
  - apply IH. intros c' Hin. apply (H c'). now right.
Qed.

Lemma write_file_fresh (dir : directory) (name : string) (content : bytes) :
  read_file dir name = None ->
  write_file dir name content = dir ++ [(name, content)].
Proof using.
  induction dir as [|[n c] dir IH]; simpl; [reflexivity|].
  destruct (String.eqb n name); [discriminate|].
  intros H. now rewrite IH.
Qed.

Lemma endswith_append (pre suffix : string) :
  endswith (pre ++ suffix) suffix = true.
Proof using.
  unfold endswith. rewrite length_append.
  replace (String.length suffix <=? String.length pre + String.length suffix)
    with true by (symmetry; apply Nat.leb_le; lia).
  replace (String.length pre + String.length suffix - String.length suffix)
    with (String.length pre) by lia.
  simpl. apply String.eqb_eq.
  induction pre as [|c pre IH]; simpl.
  - clear. induction suffix as [|c s IH]; simpl; [reflexivity|].
    now rewrite IH.
  - exact IH.
Qed.

(** With names that are new to the directory, the loop over the segments
    adds one file for each segment, in the order of the segments. *)
Lemma decompress_all_fresh (dictionary : zdict)
    (segments : list (nat * bytes)) :
  NoDup (map fst segments) ->
  (forall seg, In seg segments ->
               exists plain,
                 zstd_decompress dictionary (snd seg) = Ret plain) ->
  forall dir,
    (forall seg, In seg segments ->
                 read_file dir (format_08d (fst seg) ++ ".dat") = None) ->
    exists results,
      decompress_all segments dictionary dir
      = Ret (dir ++ map (artifact dictionary) segments, results).
Proof.
  induction segments as [|[n piece] segments IH]; intros Hnd Hdec dir Hnew.
  - exists []. simpl. now rewrite app_nil_r.
  - simpl in Hnd. apply NoDup_cons_iff in Hnd as [Hn Hnd].
    destruct (Hdec (n, piece) (or_introl eq_refl)) as [plain Hp].
    simpl in Hp.
    destruct (IH Hnd (fun seg H => Hdec seg (or_intror H))
                (dir ++ [(format_08d n ++ ".dat", plain)]%string))
      as [results Hr].
    + intros [n' piece'] Hin. rewrite read_file_app.
      rewrite (Hnew (n', piece') (or_intror Hin)). simpl.
      destruct (String.eqb _ _) eqn:E; [|reflexivity].
      apply String.eqb_eq, artifact_name_injective in E. exfalso.
      apply Hn. subst n'. apply in_map_iff. now exists (n, piece').
    + exists (Decompressed (format_08d n ++ ".dat") :: results).
      cbn [decompress_all decompress_segment]. rewrite Hp.
      rewrite write_file_fresh
        by apply (Hnew (n, piece) (or_introl eq_refl)).
      simpl bind. rewrite Hr. simpl bind.
      unfold artifact at 2, decoded. simpl. rewrite Hp.
      now rewrite <- app_assoc.
Qed.

Lemma substring_prefix (s t : string) :
  String.substring 0 (String.length s) (s ++ t) = s.
Proof using.
  induction s as [|c s IH]; simpl.
  - now destruct t.
  - now rewrite IH.
Qed.

Lemma decimal_int_prefix_artifact (n : nat) :
  decimal_int_prefix (format_08d n ++ ".dat") = Ret (Z.of_nat n).
Proof using.
  unfold decimal_int_prefix. rewrite length_append. simpl String.length.
  replace (String.length (format_08d n) + 4 - 4)
    with (String.length (format_08d n)) by lia.
  now rewrite substring_prefix, decimal_value_format_08d.
Qed.

(** *** The files of repack *)

Lemma filter_none {A : Type} (f : A -> bool) (l : list A) :
  (forall x, In x l -> f x = false) -> filter f l = [].
Proof using.
  induction l as [|x l IH]; intros H; simpl; [reflexivity|].
  rewrite (H x (or_introl eq_refl)).
  apply IH. intros y Hy. apply H. now right.
Qed.

Lemma with_keys_returns {A : Type} (key : A -> comp Z) (l : list A) :
  (forall x, In x l -> exists k, key x = Ret k) ->
  exists keyed, with_keys key l = Ret keyed.
Proof using.
  induction l as [|x l IH]; intros H; simpl; [now exists []|].
  destruct (H x (or_introl eq_refl)) as [k ->].
  destruct (IH (fun y Hy => H y (or_intror Hy))) as [keyed ->].
  simpl. eauto.
Qed.

Lemma sorted_dat_files_spec (dir : directory) (files : list edit) :
  sorted_dat_files dir = Ret files ->
  StronglySorted Z.le (map sequence_number files)
  /\ Permutation (map (fun f => (file_name f, input_data f)) files)
       (filter (fun entry => endswith (fst entry) ".dat") dir)
  /\ forall f, In f files ->
               int_prefix (file_name f) = Ret (sequence_number f).
Proof.
  unfold sorted_dat_files.
  destruct (with_keys _ _) as [keyed| |] eqn:K; simpl; try discriminate.
  intros [= <-].
  destruct (with_keys_spec _ _ _ K) as [Hm Hk].
  set (mk := fun '(k, (name, content)) =>
               {| file_name := name; sequence_number := k;
                  input_data := content |}).
  split; [|split].
  - pose proof (sorted_by_key_sorted keyed) as Hs.
    induction Hs as [|[k [name content]] l Hl IH Hall]; simpl;
      constructor; [exact IH|].
    apply Forall_map, Forall_map. apply Forall_impl with (2 := Hall).
    intros [k' [name' content']]. simpl. auto.
  - rewrite <- Hm.
    rewrite <- (Permutation_map snd (sorted_by_key_perm keyed)).
    rewrite map_map.
    erewrite map_ext; [reflexivity|].
    intros [k [name content]]. reflexivity.
  - intros f Hf. apply in_map_iff in Hf as ([k [name content]] & <- & Hin).
    apply (Permutation_in _ (sorted_by_key_perm keyed)) in Hin.
    simpl. apply (Hk k (name, content) Hin).
Qed.

(** An edit whose content the codec turns, at level 1, into the bytes that
    its segment holds leaves the archive copy as it is. *)
Lemma repack_files_identity (files : list edit) (dict_data data : bytes) :
  (forall e, In e files ->
             exists s en,
               extract_segment data (sequence_number e) MAGIC_NUMBER
               = Ret (s, en, slice data s en)
               /\ compress_file (input_data e) dict_data 1
                  = Ret (slice data s en)) ->
  forall st,
    pak st = data ->
    exists st',
      repack_files files st dict_data = Normal st'
      /\ pak st' = data
      /\ success_count st' = success_count st + length files.
Proof.
  induction files as [|e files IH]; intros H st Hst.
  - exists st. simpl. repeat split; [exact Hst|lia].
  - destruct (H e (or_introl eq_refl)) as (s & en & Hx & Hc).
    assert (Hm : MAGIC_NUMBER <> []) by discriminate.
    destruct (extract_segment_bounds _ _ _ _ _ _ Hm Hx) as (Hw & He & _).
    assert (Hrep : replace_segment (pak st) s en (slice data s en)
                   = Ret data).
    { rewrite Hst.
      destruct (cut_at data s en) as (Hp & _ & Hl); [lia|exact He|].
      rewrite replace_segment_fits by lia.
      rewrite Hl, Nat.sub_diag. simpl. now rewrite <- Hp. }
    assert (Hfile : repack_file st e dict_data
                    = Normal (count_success
                                (say (set_pak
                                        (note_calls st (file_name e) [1])
                                        data)
                                   (Reimported (file_name e) 1)))).
    { unfold repack_file. rewrite Hst, Hx.
      change (seq 1 MAX_COMPRESSION_LEVEL)
        with (1 :: seq 2 (MAX_COMPRESSION_LEVEL - 1)).
      now rewrite (level_loop_fit _ _ _ _ _ _ _ _ _ Hc Hrep). }
    destruct (IH (fun e' H' => H e' (or_intror H'))
                (count_success
                   (say (set_pak (note_calls st (file_name e) [1]) data)
                      (Reimported (file_name e) 1))) eq_refl)
      as (st' & Hr & Hp & Hn).
    exists st'. cbn [repack_files]. rewrite Hfile.
    split; [exact Hr|]. split; [exact Hp|].
    rewrite Hn. simpl. lia.
Qed.

(* ================================================================== *)
(** ** The segment indexer: claims C1, C9, C10 *)

(** C1, as the code has it. For every byte buffer and every non-empty magic
    pattern the indexer returns: its segments start at occurrences of the
    pattern (at every occurrence, so there are exactly k of them, when the
    pattern cannot overlap itself, as is the case for the 4-byte magic);
    [split_segments] and [extract_segment] give the same ranges, numbered
    from 1; the ranges are contiguous, ascending and non-overlapping, and
    their union runs from the first occurrence of the pattern to the end of
    the buffer (no occurrence lies before it). For the buffer
    [MAGIC + b"AAA" + MAGIC + b"BBBB"] the ranges are (0,7) and (7,15),
    with sequence numbers 1 and 2. *)
Theorem index_tiles_from_first_marker :
  (forall data magic : bytes,
     magic <> [] ->
     exists starts : list nat,
       let split_indices := starts ++ [length data] in
       let ranges := ranges_of split_indices in
       let first := hd (length data) starts in
       boundaries data magic = Ret split_indices
       /\ Forall (fun i => occurs_at data magic i = true) starts
       /\ (unbordered magic = true -> starts = occurrences data magic)
       /\ length ranges = length starts
       /\ (exists segments,
             split_segments data magic = Ret segments
             /\ length segments = length starts
             /\ forall n s e,
                 nth_error ranges n = Some (s, e) ->
                 nth_error segments n = Some (n + 1, slice data s e)
                 /\ extract_segment data (Z.of_nat (n + 1)) magic
                    = Ret (s, e, slice data s e))
       /\ (forall j, j < first -> occurs_at data magic j = false)
       /\ tiles first ranges (length data))
  /\ split_segments scenario_archive MAGIC_NUMBER
     = Ret [(1, MAGIC_NUMBER ++ [x41; x41; x41]);
            (2, MAGIC_NUMBER ++ [x42; x42; x42; x42])]
  /\ extract_segment scenario_archive 1 MAGIC_NUMBER
     = Ret (0, 7, MAGIC_NUMBER ++ [x41; x41; x41])
  /\ extract_segment scenario_archive 2 MAGIC_NUMBER
     = Ret (7, 15, MAGIC_NUMBER ++ [x42; x42; x42; x42]).
Proof.
  split; [|repeat split; reflexivity].
  intros data magic Hm.
  destruct (boundaries_scanned data magic Hm) as (starts & Hb & Hs).
  pose proof (nonempty_length magic Hm) as Hpos.
  exists starts. cbv zeta.
  split; [exact Hb|].
  split; [now apply scanned_occurs with (start := 0)|].
  split.
  { intros Hu. unfold occurrences.
    rewrite (scanned_all_occurrences _ _ _ _ Hm Hu Hs).
    now rewrite Nat.sub_0_r. }
  split; [rewrite length_ranges_of, length_app; simpl; lia|].
  split.
  { exists (segments_of data (starts ++ [length data])).
    split; [unfold split_segments; now rewrite Hb|].
    split; [rewrite length_segments_of, length_app; simpl; lia|].
    intros n s e Hn. apply nth_error_ranges_of in Hn as (Hlt & -> & ->).
    split; [now apply nth_error_segments_of|].
    rewrite (extract_segment_spec _ _ _ _ Hb).
    destruct (_ || _)%bool eqn:G.
    - apply orb_true_iff in G as [G|G]; apply Z.ltb_lt in G; lia.
    - cbv zeta. replace (Z.to_nat (Z.of_nat (n + 1) - 1)) with n by lia.
      replace (Z.to_nat (Z.of_nat (n + 1))) with (S n) by lia.
      reflexivity. }
  split.
  { intros j Hj. pose proof (scanned_first _ _ _ _ Hs) as Hf.
    destruct starts as [|i starts]; simpl in Hj, Hf.
    - now apply (find_None _ _ _ (eq_sym Hf)); lia.
    - symmetry in Hf. apply find_Some in Hf as (_ & _ & Hn).
      apply Hn. lia. }
  pose proof (scanned_spaced _ _ _ _ Hs) as Hsp.
  destruct starts as [|i starts]; [reflexivity|].
  pose proof (spaced_tiles (length magic) i (starts ++ [length data])
                Hpos Hsp) as Ht.
  change ((i :: starts) ++ [length data])
    with (i :: (starts ++ [length data])).
  replace (last (i :: starts ++ [length data]) 0) with (length data) in Ht;
    [exact Ht|].
  change (i :: starts ++ [length data])
    with ((i :: starts) ++ [length data]).
  now rewrite last_last.
Qed.

(** C1 as stated fails. With two bytes before its only marker,
    [b"XX" + MAGIC + b"AAA"] is indexed as the single range (2,9), which
    leaves out offsets 0 and 1: the ranges do not tile the whole buffer.
    And in the scenario of the claim itself the second range is (7,15), not
    (7,11). *)
Lemma index_whole_buffer_counterexample :
  ~ tiles_whole_buffer prefixed_archive MAGIC_NUMBER
  /\ occurrences prefixed_archive MAGIC_NUMBER = [2]
  /\ boundaries prefixed_archive MAGIC_NUMBER = Ret [2; 9]
  /\ boundaries scenario_archive MAGIC_NUMBER = Ret [0; 7; 15]
  /\ ranges_of [0; 7; 15] <> [(0, 7); (7, 11)].
Proof.
  split; [|repeat split; try reflexivity; discriminate].
  intros (split_indices & Hb & _ & Ht).
  assert (E : boundaries prefixed_archive MAGIC_NUMBER = Ret [2; 9])
    by reflexivity.
  rewrite E in Hb. injection Hb as <-.
  simpl in Ht. destruct Ht as [H _]. discriminate.
Qed.

(** C9. A buffer in which the pattern does not occur is indexed as the
    empty list of segments: the indexer returns, and returns no segment. *)
Theorem index_without_marker_is_empty (data magic : bytes) :
  occurrences data magic = [] ->
  split_segments data magic = Ret [].
Proof.
  intros Hocc. apply find_no_occurrence in Hocc.
  unfold split_segments, boundaries. simpl scan_loop. now rewrite Hocc.
Qed.

(** C10. Every range the indexer gives for the 4-byte magic is at least 4
    bytes long: the ranges of [extract_segment], and the pieces of
    [split_segments]. *)
Theorem segment_not_shorter_than_magic (data : bytes) :
  (forall segment_index s e d,
     extract_segment data segment_index MAGIC_NUMBER = Ret (s, e, d) ->
     s + 4 <= e /\ e <= length data /\ 4 <= length d)
  /\ (forall segments,
        split_segments data MAGIC_NUMBER = Ret segments ->
        Forall (fun seg => 4 <= length (snd seg)) segments).
Proof.
  assert (Hm : MAGIC_NUMBER <> []) by discriminate.
  split.
  - intros n s e d H.
    apply extract_segment_bounds in H as (Hw & He & ->); [|exact Hm].
    change (length MAGIC_NUMBER) with 4 in Hw.
    rewrite length_slice by exact He. lia.
  - intros segments H.
    destruct (boundaries_scanned data MAGIC_NUMBER Hm) as (starts & Hb & Hs).
    unfold split_segments in H. rewrite Hb in H. simpl in H.
    injection H as <-. unfold segments_of.
    apply Forall_map, Forall_forall. intros n Hn. apply in_seq in Hn.
    rewrite Nat.add_1_r. simpl snd.
    pose proof (spaced_nth 4 _ n (scanned_spaced _ _ _ _ Hs)) as Hw.
    pose proof (scanned_nth_le _ _ _ _ (S n) Hs) as He.
    rewrite length_slice by exact He. lia.
Qed.

(* ================================================================== *)
(** ** The dictionary resolver: claim C5 *)

(** C5, as the code has it. When a dictionary file was detected and can be
    read, its bytes are the result, empty or not, whatever the archive
    holds: the embedded dictionary is not looked for. When no file was
    detected, or the file cannot be read, and the marker 37 A4 30 EC occurs
    in the archive, the result is the archive from the first occurrence of
    the marker to its end. For [b"XX" + EMBEDDED_MARKER + b"DICTDATA"] and
    no dictionary file the result is [EMBEDDED_MARKER + b"DICTDATA"]. *)
Theorem dictionary_resolution :
  (forall content pak,
     resolve_dictionary (DictFileContent content) pak
     = ([UsingExternalDictionary], Ret content))
  /\ (forall file pak i,
        file = NoDictFile \/ file = UnreadableDictFile ->
        occurs_at pak DICT_START_HEX i = true ->
        (forall j, j < i -> occurs_at pak DICT_START_HEX j = false) ->
        resolve_dictionary file pak
        = ([UsingEmbeddedDictionary], Ret (slice_from pak i)))
  /\ resolve_dictionary NoDictFile dictionary_archive
     = ([UsingEmbeddedDictionary], Ret (DICT_START_HEX ++ DICTDATA)).
Proof.
  split; [reflexivity|]. split; [|reflexivity].
  intros file pak i Hfile Ho Hfirst.
  assert (F : find pak DICT_START_HEX 0 = Some i).
  { destruct (find_occurs pak DICT_START_HEX 0 i (Nat.le_0_l i) Ho)
      as (i' & F & Hle).
    rewrite F. f_equal. apply find_Some in F as (_ & Ho' & _).
    destruct (Nat.eq_dec i' i) as [|Hne]; [assumption|].
    rewrite Hfirst in Ho' by lia. discriminate. }
  unfold resolve_dictionary, extract_dictionary_from_pak.
  destruct Hfile as [-> | ->]; simpl; now rewrite F.
Qed.

(** C5 as stated fails for a dictionary file that is empty: the external
    bytes are not "supplied (non-empty)", the marker occurs in the archive,
    and yet the result is the empty external dictionary, not the embedded
    one. *)
Lemma empty_dictionary_file_counterexample :
  resolve_as_specified (Some []) dictionary_archive
  = Ret (DICT_START_HEX ++ DICTDATA)
  /\ occurs_at dictionary_archive DICT_START_HEX 2 = true
  /\ resolve_dictionary (DictFileContent []) dictionary_archive
     = ([UsingExternalDictionary], Ret [])
  /\ snd (resolve_dictionary (DictFileContent []) dictionary_archive)
     <> resolve_as_specified (Some []) dictionary_archive.
Proof. repeat split; try reflexivity. discriminate. Qed.

(* ================================================================== *)
(** ** The patch writer: claim C3 *)

(** C3. A patch of a range [start, end) of the archive with fewer bytes than
    the range holds succeeds; afterwards the archive has the encoded bytes
    from [start] on, zero bytes from there to [end], and the bytes it had
    before [start] and from [end] on. *)
Theorem patch_pads_and_preserves (pak compressed_data : bytes)
    (segment_start segment_end : nat) :
  segment_end <= length pak ->
  length compressed_data < segment_end - segment_start ->
  exists pak',
    replace_segment pak segment_start segment_end compressed_data = Ret pak'
    /\ (forall i, i < length compressed_data ->
          nth_error pak' (segment_start + i) = nth_error compressed_data i)
    /\ (forall i, segment_start + length compressed_data <= i < segment_end ->
          nth_error pak' i = Some x00)
    /\ (forall i, i < segment_start \/ segment_end <= i ->
          nth_error pak' i = nth_error pak i).
Proof.
  intros He HL. eexists. split; [apply replace_segment_fits; lia|].
  set (pad := segment_end - segment_start - length compressed_data).
  assert (Hfirst : length (firstn segment_start pak) = segment_start)
    by (rewrite length_firstn; lia).
  split; [|split].
  - intros i Hi.
    rewrite nth_error_app2 by lia. rewrite Hfirst.
    replace (segment_start + i - segment_start) with i by lia.
    now rewrite nth_error_app1.
  - intros i Hi.
    rewrite nth_error_app2 by lia. rewrite Hfirst.
    rewrite nth_error_app2 by lia.
    rewrite nth_error_app1 by (rewrite repeat_length; unfold pad; lia).
    apply nth_error_repeat. unfold pad. lia.
  - intros i [Hi|Hi].
    + rewrite nth_error_app1 by lia. rewrite nth_error_firstn.
      apply Nat.ltb_lt in Hi. now rewrite Hi.
    + rewrite nth_error_app2 by lia. rewrite Hfirst.
      rewrite nth_error_app2 by lia.
      rewrite nth_error_app2 by (rewrite repeat_length; unfold pad; lia).
      rewrite repeat_length, nth_error_skipn. f_equal. unfold pad. lia.
Qed.

(* ================================================================== *)
(** ** The repack engine: claims C2, C4, C6, C7 *)

(** C2. For an edit whose segment is found, when the codec's output is too
    large at every level below [level] and fits at [level]: the levels 1,
    2, ..., [level] are tried in this order and no other; the output of
    [level] is what is written over the segment; the success is printed
    with that level and counted. *)
Theorem repack_accepts_first_fitting_level (st : repack_state) (e : edit)
    (dict_data seg compressed_data : bytes) (s en level : nat) :
  extract_segment (pak st) (sequence_number e) MAGIC_NUMBER
  = Ret (s, en, seg) ->
  1 <= level <= MAX_COMPRESSION_LEVEL ->
  (forall l, 1 <= l < level -> oversize e dict_data (en - s) l) ->
  compress_file (input_data e) dict_data level = Ret compressed_data ->
  length compressed_data <= en - s ->
  exists pak',
    replace_segment (pak st) s en compressed_data = Ret pak'
    /\ repack_file st e dict_data
       = Normal {| pak := pak';
                   log := log st ++ [Reimported (file_name e) level];
                   success_count := success_count st + 1;
                   codec_calls :=
                     codec_calls st
                     ++ map (pair (file_name e)) (seq 1 level) |}.
Proof.
  intros X Hlevel Hbig Hc Hfit.
  pose proof X as Hb.
  apply extract_segment_bounds in Hb as (Hw & He & _); [|discriminate].
  change (length MAGIC_NUMBER) with 4 in Hw.
  eexists. split; [apply replace_segment_fits; lia|].
  unfold repack_file. rewrite X.
  rewrite (seq_split_at level MAX_COMPRESSION_LEVEL Hlevel).
  rewrite level_loop_oversize;
    [|lia|intros l Hl; apply Hbig; apply in_seq in Hl; lia].
  erewrite level_loop_fit;
    [|exact Hc|simpl pak; apply replace_segment_fits; lia].
  unfold count_success, say, set_pak, note_calls. simpl.
  do 2 f_equal. rewrite <- app_assoc. f_equal.
  replace (seq 1 level) with (seq 1 (level - 1) ++ [level]).
  - now rewrite map_app.
  - replace level with (S (level - 1)) at 3 by lia.
    rewrite seq_S. do 2 f_equal. lia.
Qed.

(** C4. For an edit whose segment is found, when the codec's output is too
    large at every level from 1 to 22: all 22 levels are tried, the failure
    is printed, the archive copy is what it was before the attempt (in the
    range of the segment as everywhere else), nothing is counted, and the
    loop goes on with the next file. *)
Theorem repack_overflow_leaves_archive (st : repack_state) (e : edit)
    (dict_data seg : bytes) (s en : nat) :
  extract_segment (pak st) (sequence_number e) MAGIC_NUMBER
  = Ret (s, en, seg) ->
  (forall l, 1 <= l <= MAX_COMPRESSION_LEVEL ->
             oversize e dict_data (en - s) l) ->
  exists st',
    repack_file st e dict_data = Normal st'
    /\ log st' = log st ++ [FailedToReimport (file_name e)]
    /\ pak st' = pak st
    /\ slice (pak st') s en = seg
    /\ success_count st' = success_count st
    /\ codec_calls st'
       = codec_calls st
         ++ map (pair (file_name e)) (seq 1 MAX_COMPRESSION_LEVEL)
    /\ forall rest,
         repack_files (e :: rest) st dict_data
         = repack_files rest st' dict_data.
Proof.
  intros X Hbig.
  pose proof X as Hb.
  apply extract_segment_bounds in Hb as (Hw & He & Hseg); [|discriminate].
  assert (R : repack_file st e dict_data
              = Normal (say (note_calls st (file_name e)
                               (seq 1 MAX_COMPRESSION_LEVEL))
                          (FailedToReimport (file_name e)))).
  { unfold repack_file. rewrite X.
    rewrite <- (app_nil_r (seq 1 MAX_COMPRESSION_LEVEL)) at 1.
    rewrite level_loop_oversize;
      [reflexivity|lia|intros l Hl; apply Hbig; apply in_seq in Hl; lia]. }
  eexists. split; [exact R|].
  repeat split; try reflexivity; [now symmetry|].
  intros rest. simpl. now rewrite R.
Qed.

(** C6. A sequence number below 1 or above the number of segments makes
    [extract_segment] raise [IndexError] at its guard, before the list of
    boundaries is read; for a sequence number in range the two reads of
    that list are at indices from 0 to its length minus 1 (no read from the
    back, none past the end) and the range they give lies inside the
    archive. In [repack_zsdic] the exception is printed for the file, the
    archive copy and the count stay as they are, and the loop goes on with
    the next file. *)
Theorem out_of_range_sequence_number :
  (forall data segment_index,
     exists segments split_indices,
       split_segments data MAGIC_NUMBER = Ret segments
       /\ boundaries data MAGIC_NUMBER = Ret split_indices
       /\ length split_indices = S (length segments)
       /\ ((segment_index < 1
            \/ Z.of_nat (length segments) < segment_index)%Z ->
           extract_segment data segment_index MAGIC_NUMBER
           = Raise IndexError)
       /\ ((1 <= segment_index <= Z.of_nat (length segments))%Z ->
           exists s e,
             (0 <= segment_index - 1)%Z
             /\ (segment_index < Z.of_nat (length split_indices))%Z
             /\ getitem split_indices (segment_index - 1) = Ret s
             /\ getitem split_indices segment_index = Ret e
             /\ extract_segment data segment_index MAGIC_NUMBER
                = Ret (s, e, slice data s e)
             /\ s < e <= length data))
  /\ (forall st e dict_data segments,
        split_segments (pak st) MAGIC_NUMBER = Ret segments ->
        (sequence_number e < 1
         \/ Z.of_nat (length segments) < sequence_number e)%Z ->
        let st' := say st (ErrorProcessing (file_name e) IndexError) in
        repack_file st e dict_data = Normal st'
        /\ pak st' = pak st
        /\ success_count st' = success_count st
        /\ forall rest,
             repack_files (e :: rest) st dict_data
             = repack_files rest st' dict_data).
Proof.
  assert (Hm : MAGIC_NUMBER <> []) by discriminate.
  assert (G : forall data n segments,
             split_segments data MAGIC_NUMBER = Ret segments ->
             (n < 1 \/ Z.of_nat (length segments) < n)%Z ->
             extract_segment data n MAGIC_NUMBER = Raise IndexError).
  { intros data n segments Hseg Hn.
    destruct (boundaries_scanned data MAGIC_NUMBER Hm) as (starts & Hb & _).
    unfold split_segments in Hseg. rewrite Hb in Hseg. simpl in Hseg.
    injection Hseg as <-. rewrite length_segments_of in Hn.
    rewrite (extract_segment_spec _ _ _ _ Hb).
    destruct (_ || _)%bool eqn:E; [reflexivity|].
    apply orb_false_iff in E as [E1 E2]. apply Z.ltb_ge in E1, E2.
    rewrite length_app in Hn, E2. simpl in Hn, E2. lia. }
  split.
  - intros data n.
    destruct (boundaries_scanned data MAGIC_NUMBER Hm) as (starts & Hb & Hs).
    exists (segments_of data (starts ++ [length data])),
           (starts ++ [length data]).
    assert (Hseg : split_segments data MAGIC_NUMBER
                   = Ret (segments_of data (starts ++ [length data])))
      by (unfold split_segments; now rewrite Hb).
    split; [exact Hseg|]. split; [exact Hb|].
    rewrite length_segments_of, length_app. simpl length.
    split; [lia|]. split.
    + intros Hn. apply (G _ _ _ Hseg).
      rewrite length_segments_of, length_app. simpl length. exact Hn.
    + intros Hn.
      exists (nth (Z.to_nat (n - 1)) (starts ++ [length data]) 0),
             (nth (Z.to_nat n) (starts ++ [length data]) 0).
      split; [lia|]. split; [lia|].
      split; [apply getitem_in_range; rewrite length_app; simpl; lia|].
      split; [apply getitem_in_range; rewrite length_app; simpl; lia|].
      split.
      * rewrite (extract_segment_spec _ _ _ _ Hb).
        destruct (_ || _)%bool eqn:E; [|reflexivity].
        apply orb_true_iff in E as [E|E]; apply Z.ltb_lt in E;
          rewrite ?length_app in E; simpl in E; lia.
      * pose proof (spaced_nth 4 _ (Z.to_nat (n - 1))
                      (scanned_spaced _ _ _ _ Hs)) as Hw.
        rewrite length_app in Hw. simpl length in Hw.
        replace (S (Z.to_nat (n - 1))) with (Z.to_nat n) in Hw by lia.
        pose proof (scanned_nth_le _ _ _ _ (Z.to_nat n) Hs). lia.
  - intros st e dict_data segments Hseg Hn st'.
    assert (R : repack_file st e dict_data = Normal st').
    { unfold repack_file. now rewrite (G _ _ _ Hseg Hn). }
    split; [exact R|]. repeat split.
    intros rest. simpl. now rewrite R.
Qed.

(** C7. With a codec that returns, the loop over the edits ends, and the
    archive copy is as long after it as before, whatever became of each
    edit; a patch of a range returned by [extract_segment] never changes
    the length of the file. *)
Theorem archive_length_is_invariant :
  codec_returns ->
  (forall files st dict_data,
     exists st',
       repack_files files st dict_data = Normal st'
       /\ length (pak st') = length (pak st))
  /\ (forall content segment_index s en seg compressed_data content',
        extract_segment content segment_index MAGIC_NUMBER
        = Ret (s, en, seg) ->
        replace_segment content s en compressed_data = Ret content' ->
        length compressed_data <= en - s
        /\ en <= length content
        /\ length content' = length content).
Proof.
  intros Hc. split.
  - intros files st dict_data.
    destruct (repack_files_returns files dict_data Hc st) as [st' R].
    exists st'. split; [exact R|].
    pose proof (repack_files_length files dict_data st) as H.
    now rewrite R in H.
  - intros content n s en seg c content' X R.
    apply extract_segment_bounds in X as (Hw & He & _); [|discriminate].
    destruct (Z_lt_ge_dec (Z.of_nat en - Z.of_nat s)
                (Z.of_nat (length c))) as [Hbig|Hfit].
    + rewrite replace_segment_too_large in R by exact Hbig. discriminate.
    + rewrite replace_segment_fits in R by lia. injection R as <-.
      split; [lia|]. split; [exact He|].
      rewrite !length_app, length_firstn, repeat_length, length_skipn. lia.
Qed.

(* ================================================================== *)
(** ** Absent resources: claim C8 *)

(** C8, as the code has it. When no archive was detected, unpack and repack
    print and return with no file or directory touched. When the dictionary
    is absent (no dictionary file that can be read, no marker in the
    archive), the operation fails before any segment is decoded or patched,
    but after its first steps: unpack has made the unpack directory and the
    backup copy of the archive, repack has made the archive copy, equal to
    the original. *)
Theorem absent_resource_aborts :
  (forall w,
     ORIGINAL_PAK w = None ->
     unpack_zsdic w = Normal (print w [NoPakDetected])
     /\ repack_zsdic w = Normal (print w [NoPakDetected])
     /\ untouched w (print w [NoPakDetected]))
  /\ (forall w data,
        ORIGINAL_PAK w = Some data ->
        DICT_FILE w = NoDictFile \/ DICT_FILE w = UnreadableDictFile ->
        occurrences data DICT_START_HEX = [] ->
        exists w',
          unpack_zsdic w = Normal w'
          /\ console w'
             = console w
               ++ [BackupCreated; UsingEmbeddedDictionary;
                   UnpackFailed ValueError]
          /\ ORIGINAL_PAK w' = ORIGINAL_PAK w
          /\ UNPACK_DIR w' = makedirs (UNPACK_DIR w)
          /\ backup_file w' = Some data
          /\ repacked_pak w' = repacked_pak w)
  /\ (forall w data entry dir,
        ORIGINAL_PAK w = Some data ->
        DICT_FILE w = NoDictFile \/ DICT_FILE w = UnreadableDictFile ->
        occurrences data DICT_START_HEX = [] ->
        UNPACK_DIR w = Some (entry :: dir) ->
        exists w',
          repack_zsdic w = Normal w'
          /\ console w'
             = console w ++ [UsingEmbeddedDictionary; RepackFailed ValueError]
          /\ ORIGINAL_PAK w' = ORIGINAL_PAK w
          /\ UNPACK_DIR w' = UNPACK_DIR w
          /\ backup_file w' = backup_file w
          /\ repacked_pak w' = Some data).
Proof.
  split; [|split].
  - intros w Hpak. unfold unpack_zsdic, repack_zsdic, untouched.
    rewrite Hpak. repeat split. exact Hpak.
  - intros w data Hpak Hdict Hocc.
    apply extract_dictionary_absent in Hocc.
    unfold unpack_zsdic, resolve_dictionary. rewrite Hpak.
    cbn [DICT_FILE print set_backup_file set_UNPACK_DIR].
    destruct Hdict as [-> | ->]; cbn [load_dictionary]; rewrite Hocc;
      eexists; (split; [reflexivity|]); simpl;
      rewrite <- !app_assoc; repeat split; exact Hpak.
  - intros w data entry dir Hpak Hdict Hocc Hdir.
    apply extract_dictionary_absent in Hocc.
    unfold repack_zsdic, resolve_dictionary. rewrite Hpak, Hdir.
    cbn [DICT_FILE print set_repacked_pak].
    destruct Hdict as [-> | ->]; cbn [load_dictionary]; rewrite Hocc;
      eexists; (split; [reflexivity|]); simpl;
      rewrite <- ?app_assoc; repeat split; assumption.
Qed.

(* ================================================================== *)
(** ** More on the segment indexer *)

(** X1. The pieces returned by [split_segments], put end to end in order,
    are the data from the first occurrence of the pattern on (nothing when
    the pattern does not occur); when the data begin with the pattern they
    are the whole data. *)
Theorem split_segments_reassemble (data magic : bytes)
    (segments : list (nat * bytes)) :
  magic <> [] ->
  split_segments data magic = Ret segments ->
  concat (map snd segments)
  = match find data magic 0 with
    | Some first => slice_from data first
    | None => []
    end
  /\ (starts_with data magic = true -> concat (map snd segments) = data).
Proof.
  intros Hm Hseg.
  destruct (split_segments_spec data magic Hm) as (starts & Hs & _ & Hseg').
  rewrite Hseg' in Hseg. injection Hseg as <-.
  assert (E : concat (map snd
                        (segments_of data (starts ++ [length data])))
              = match find data magic 0 with
                | Some first => slice_from data first
                | None => []
                end).
  { rewrite segments_of_ranges.
    rewrite <- (scanned_first _ _ _ _ Hs).
    destruct starts as [|i starts]; [reflexivity|].
    pose proof (scanned_spaced _ _ _ _ Hs) as Hsp.
    pose proof (spaced_tiles (length magic) i (starts ++ [length data])
                  (nonempty_length magic Hm) Hsp) as Ht.
    change (i :: starts ++ [length data])
      with ((i :: starts) ++ [length data]) in Ht.
    rewrite last_last in Ht.
    rewrite (concat_tiles data _ _ _ Ht). simpl hd_error. cbv iota.
    unfold slice, slice_from. apply firstn_all2.
    rewrite length_skipn. lia. }
  split; [exact E|].
  intros Hstart. rewrite E.
  assert (Ho : occurs_at data magic 0 = true).
  { unfold occurs_at. simpl. exact Hstart. }
  destruct (find_occurs _ _ 0 0 (Nat.le_refl 0) Ho) as (i & F & Hi).
  rewrite F. replace i with 0 by lia. reflexivity.
Qed.

(** X2. The entry at position [i] of the result of [split_segments] has
    number [i + 1] and begins with the pattern, which it holds nowhere else
    when the pattern cannot overlap itself. *)
Theorem split_segments_pieces (data magic : bytes)
    (segments : list (nat * bytes)) (i n : nat) (piece : bytes) :
  magic <> [] ->
  split_segments data magic = Ret segments ->
  nth_error segments i = Some (n, piece) ->
  n = i + 1
  /\ starts_with piece magic = true
  /\ (unbordered magic = true -> occurrences piece magic = [0]).
Proof.
  intros Hm Hseg Hnth.
  destruct (split_segments_spec data magic Hm) as (starts & Hs & _ & Hseg').
  rewrite Hseg' in Hseg. injection Hseg as <-.
  destruct (segments_of_entry _ _ _ _ _ _ Hs Hnth)
    as (_ & Hn & Hp & Hw & Hb & Ha & Hgap & _).
  pose proof (piece_scanned data magic _ _ Hm Ha Hgap Hw Hb) as Hsc.
  rewrite <- Hp in Hsc.
  split; [exact Hn|]. split.
  - pose proof (scanned_occurs _ _ _ _ Hsc) as Ho.
    inversion Ho as [|x l Hx _]; subst.
    unfold occurs_at in Hx. now apply andb_true_iff in Hx as [_ Hx].
  - intros Hu. unfold occurrences.
    rewrite (scanned_all_occurrences _ _ _ _ Hm Hu Hsc).
    now rewrite Nat.sub_0_r.
Qed.

(** X3. A piece returned by [split_segments], indexed alone, is one segment:
    itself. *)
Theorem split_segments_of_piece (data magic : bytes)
    (segments : list (nat * bytes)) (n : nat) (piece : bytes) :
  magic <> [] ->
  split_segments data magic = Ret segments ->
  In (n, piece) segments ->
  split_segments piece magic = Ret [(1, piece)]
  /\ extract_segment piece 1 magic = Ret (0, length piece, piece).
Proof.
  intros Hm Hseg Hin. apply In_nth_error in Hin as [i Hnth].
  destruct (split_segments_spec data magic Hm) as (starts & Hs & _ & Hseg').
  rewrite Hseg' in Hseg. injection Hseg as <-.
  destruct (segments_of_entry _ _ _ _ _ _ Hs Hnth)
    as (_ & _ & Hp & Hw & Hb & Ha & Hgap & _).
  pose proof (piece_scanned data magic _ _ Hm Ha Hgap Hw Hb) as Hsc.
  rewrite <- Hp in Hsc.
  pose proof (boundaries_of_scanned _ _ _ Hm Hsc) as Hbd.
  split.
  - unfold split_segments. rewrite Hbd. simpl. unfold segments_of. simpl.
    now rewrite slice_full.
  - rewrite (extract_segment_spec _ _ _ _ Hbd). simpl.
    now rewrite slice_full.
Qed.

(** X4. With the empty pattern the scan never ends, whatever the data: the
    pattern is found at the cursor, which stays where it is. *)
Theorem empty_magic_never_returns (data : bytes) :
  (forall fuel start split_indices,
     start <= length data ->
     scan_loop fuel data [] start split_indices = None)
  /\ split_segments data [] = Diverge
  /\ forall segment_index, extract_segment data segment_index [] = Diverge.
Proof.
  split; [intros; now apply scan_loop_empty_magic|].
  unfold split_segments, extract_segment.
  rewrite boundaries_empty_magic. split; reflexivity.
Qed.

(* ================================================================== *)
(** ** More on the dictionary resolver *)

(** X5. What [extract_dictionary_from_pak] returns is the end of the data
    from the first occurrence of the marker on: it begins with the marker,
    and the marker does not occur before it. *)
Theorem embedded_dictionary_shape (data start_hex d : bytes) :
  extract_dictionary_from_pak data start_hex = Ret d ->
  exists dict_start,
    data = firstn dict_start data ++ d
    /\ length d = length data - dict_start
    /\ starts_with d start_hex = true
    /\ length start_hex <= length d
    /\ forall j, j < dict_start -> occurs_at data start_hex j = false.
Proof.
  unfold extract_dictionary_from_pak, slice_from.
  destruct (find data start_hex 0) as [i|] eqn:F; [|discriminate].
  intros [= <-]. exists i.
  apply find_Some in F as (_ & Ho & Hn).
  pose proof (occurs_at_bound _ _ _ Ho) as Hb.
  split; [now rewrite firstn_skipn|].
  split; [apply length_skipn|].
  unfold occurs_at in Ho. apply andb_true_iff in Ho as [_ Ho].
  split; [exact Ho|]. split; [rewrite length_skipn; lia|].
  intros j Hj. apply Hn. lia.
Qed.

(** X6. Extracting the embedded dictionary from an extracted dictionary
    gives it back. *)
Theorem embedded_dictionary_idempotent (data start_hex d : bytes) :
  extract_dictionary_from_pak data start_hex = Ret d ->
  extract_dictionary_from_pak d start_hex = Ret d.
Proof.
  unfold extract_dictionary_from_pak, slice_from.
  destruct (find data start_hex 0) as [i|] eqn:F; [|discriminate].
  intros [= <-].
  apply find_Some in F as (_ & Ho & _).
  unfold occurs_at in Ho. apply andb_true_iff in Ho as [_ Ho].
  assert (Ho' : occurs_at (skipn i data) start_hex 0 = true).
  { unfold occurs_at. simpl. exact Ho. }
  destruct (find_occurs _ _ 0 0 (Nat.le_refl 0) Ho') as (k & F' & Hk).
  rewrite F'. replace k with 0 by lia. reflexivity.
Qed.

(** X7. Dictionary resolution fails in one way only, with [ValueError] after
    "Using embedded dictionary", and exactly when there is no dictionary
    file that can be read and the marker occurs nowhere in the archive. *)
Theorem dictionary_resolution_failure (file : dict_file) (pak : bytes) :
  (forall msgs e,
     resolve_dictionary file pak = (msgs, Raise e) ->
     e = ValueError /\ msgs = [UsingEmbeddedDictionary])
  /\ ((exists msgs e, resolve_dictionary file pak = (msgs, Raise e)) <->
      (file = NoDictFile \/ file = UnreadableDictFile)
      /\ occurrences pak DICT_START_HEX = [])
  /\ snd (resolve_dictionary file pak) <> Diverge.
Proof using.
  unfold resolve_dictionary.
  destruct (extract_dictionary_cases pak DICT_START_HEX)
    as [[Hnone Hx]|[Hsome [d Hx]]];
    destruct file as [| |content]; simpl; rewrite ?Hx.
  all: split;
    [intros msgs e [= <- <-]; split; reflexivity
    |split; [|discriminate]].
  all: split;
    [intros (msgs & e & [= _ _]);
     split; first [now left | now right | exact Hnone]
    |intros [[Hf|Hf] Hocc];
     first [discriminate Hf | contradiction
           | do 2 eexists; reflexivity]].
Qed.

(* ================================================================== *)
(** ** More on the patch writer *)

(** X8. Writing back over a range of the file the bytes read from it leaves
    the file as it is. *)
Theorem replace_segment_with_itself (pak : bytes)
    (segment_start segment_end : nat) :
  segment_start <= segment_end ->
  segment_end <= length pak ->
  replace_segment pak segment_start segment_end
    (slice pak segment_start segment_end)
  = Ret pak.
Proof.
  intros Hse He.
  destruct (cut_at pak segment_start segment_end Hse He) as (Hp & _ & Hl).
  rewrite replace_segment_fits by lia.
  rewrite Hl, Nat.sub_diag. simpl. now rewrite <- Hp.
Qed.

(** X9. A patch that fits, made twice, gives what it gives made once. *)
Theorem replace_segment_twice (pak compressed_data : bytes)
    (segment_start segment_end : nat) :
  segment_end <= length pak ->
  segment_start + length compressed_data <= segment_end ->
  exists pak',
    replace_segment pak segment_start segment_end compressed_data = Ret pak'
    /\ replace_segment pak' segment_start segment_end compressed_data
       = Ret pak'.
Proof.
  intros He Hfit. eexists. split; [apply replace_segment_fits; lia|].
  set (pad := repeat x00
                (segment_end - segment_start - length compressed_data)).
  assert (Hl : length (firstn segment_start pak) = segment_start)
    by (rewrite length_firstn; lia).
  assert (Hpad : length pad
                 = segment_end - segment_start - length compressed_data)
    by apply repeat_length.
  rewrite replace_segment_fits;
    [|rewrite !length_app, length_skipn; lia|lia].
  rewrite firstn_app_exact by exact Hl.
  rewrite !app_assoc.
  rewrite skipn_app_exact by (rewrite !length_app; lia).
  reflexivity.
Qed.

(** X10. Two patches of ranges that lie one after the other in the file can
    be made in either order. *)
Theorem replace_segment_commute (pak c1 c2 : bytes) (s1 e1 s2 e2 : nat) :
  s1 + length c1 <= e1 -> e1 <= s2 ->
  s2 + length c2 <= e2 -> e2 <= length pak ->
  exists pak',
    (pak1 <- replace_segment pak s1 e1 c1 ;;
     replace_segment pak1 s2 e2 c2) = Ret pak'
    /\ (pak2 <- replace_segment pak s2 e2 c2 ;;
        replace_segment pak2 s1 e1 c1) = Ret pak'.
Proof.
  intros H1 H12 H2 He.
  assert (Hp : pak = firstn s1 pak ++ slice pak s1 e1 ++ slice pak e1 s2
                     ++ slice pak s2 e2 ++ skipn e2 pak).
  { rewrite <- (skipn_cut pak s2 e2), <- (skipn_cut pak e1 s2),
      <- (skipn_cut pak s1 e1) by lia.
    now rewrite firstn_skipn. }
  pose proof (replace_segment_commute_app (firstn s1 pak)
                (slice pak s1 e1) (slice pak e1 s2) (slice pak s2 e2)
                (skipn e2 pak) c1 c2 s1 e1 s2 e2) as H.
  rewrite !length_slice, length_firstn in H by lia.
  cbv zeta in H. rewrite <- Hp in H.
  eexists. apply H; lia.
Qed.

(* ================================================================== *)
(** ** More on the repack engine *)

(** X11. When every output of the codec for the edits holds the magic at
    its start and nowhere else, the boundaries of the archive copy are the
    same after the loop over the edits as before: an edit is given the range
    that its number has in the original archive, whatever was patched
    before it. *)
Theorem repack_keeps_boundaries (files : list edit) (dict_data : bytes)
    (st st' : repack_state) :
  (forall e, In e files -> clean_outputs e dict_data) ->
  repack_files files st dict_data = Normal st' ->
  boundaries (pak st') MAGIC_NUMBER = boundaries (pak st) MAGIC_NUMBER
  /\ forall segment_index s en d,
       extract_segment (pak st) segment_index MAGIC_NUMBER = Ret (s, en, d) ->
       extract_segment (pak st') segment_index MAGIC_NUMBER
       = Ret (s, en, slice (pak st') s en).
Proof.
  intros Hclean R.
  pose proof (repack_files_occurrences files dict_data Hclean st) as H.
  rewrite R in H. destruct H as [Hlen Hocc].
  assert (Hm : MAGIC_NUMBER <> []) by discriminate.
  assert (Hb : boundaries (pak st') MAGIC_NUMBER
               = boundaries (pak st) MAGIC_NUMBER).
  { rewrite !boundaries_unbordered by (assumption || reflexivity).
    now rewrite Hlen, Hocc. }
  split; [exact Hb|].
  intros n s en d X.
  destruct (boundaries_scanned (pak st) MAGIC_NUMBER Hm)
    as (starts & Hb0 & _).
  rewrite Hb0 in Hb.
  rewrite (extract_segment_spec _ _ _ _ Hb0) in X.
  rewrite (extract_segment_spec _ _ _ _ Hb).
  destruct (_ || _)%bool; [discriminate|].
  cbv zeta in X |- *. injection X as <- <- _. reflexivity.
Qed.

(** X12. Whatever [repack_zsdic] does, it leaves the original archive, the
    dictionary file, the unpack directory and the backup as they are; the
    archive copy is either left as it was (nothing to repack) or is a file
    as long as the original archive. *)
Theorem repack_preserves_original (w w' : world) :
  repack_zsdic w = Normal w' ->
  ORIGINAL_PAK w' = ORIGINAL_PAK w
  /\ DICT_FILE w' = DICT_FILE w
  /\ UNPACK_DIR w' = UNPACK_DIR w
  /\ backup_file w' = backup_file w
  /\ (repacked_pak w' = repacked_pak w
      \/ exists data copy,
           ORIGINAL_PAK w = Some data
           /\ repacked_pak w' = Some copy
           /\ length copy = length data).
Proof.
  unfold repack_zsdic.
  destruct (ORIGINAL_PAK w) as [data|] eqn:Hpak;
    [|intros [= <-]; simpl; repeat split; auto].
  destruct (UNPACK_DIR w) as [[|entry dir]|] eqn:Hdir;
    try (intros [= <-]; simpl; repeat split; auto).
  destruct (resolve_dictionary _ _) as [msgs dict].
  destruct dict as [dict_data| ex |]; simpl;
    [|intros [= <-]; simpl; repeat split; auto; right; eauto
     |discriminate].
  destruct (sorted_dat_files (entry :: dir)) as [files| ex |]; simpl;
    [|intros [= <-]; simpl; repeat split; auto; right; eauto
     |discriminate].
  match goal with
  | |- context [repack_files files ?st0 dict_data] =>
      pose proof (repack_files_length files dict_data st0) as Hlen;
      destruct (repack_files files st0 dict_data) as [st1|st1 ex|]
  end; try discriminate;
    intros [= <-]; simpl; repeat split; auto; right; eauto.
Qed.

(** X13. The loop over the edits ends normally or not at all, never with an
    exception; when it ends it has printed one line for each edit, and the
    count of successes has grown by the number of "Reimported" lines. *)
Theorem repack_counts_successes (files : list edit) (dict_data : bytes)
    (st : repack_state) :
  (forall st' ex, repack_files files st dict_data <> Escaped st' ex)
  /\ forall st',
       repack_files files st dict_data = Normal st' ->
       exists added,
         log st' = log st ++ added
         /\ length added = length files
         /\ success_count st'
            = success_count st + length (filter is_reimported added)
         /\ success_count st' <= success_count st + length files.
Proof.
  pose proof (repack_files_log files dict_data st) as H.
  split.
  - intros st' ex E. now rewrite E in H.
  - intros st' R. rewrite R in H. destruct H as (added & Hl & Hn & Hc).
    exists added. repeat split; try assumption.
    rewrite Hc, <- Hn. pose proof (filter_length_le is_reimported added).
    lia.
Qed.

(** X14. The numbers of the files are read before the loop, outside its
    [try]: one [.dat] file whose name gives no number makes the whole
    repack fail, with an archive copy equal to the original and no edit
    tried. *)
Theorem repack_fails_on_unnumbered_file (w : world) (data dict_data : bytes)
    (entry : string * bytes) (dir : directory) :
  ORIGINAL_PAK w = Some data ->
  UNPACK_DIR w = Some (entry :: dir) ->
  snd (resolve_dictionary (DICT_FILE w) data) = Ret dict_data ->
  (forall name,
     int_prefix name = Raise ValueError \/ exists k, int_prefix name = Ret k) ->
  (exists name content,
     In (name, content) (entry :: dir)
     /\ endswith name ".dat" = true
     /\ int_prefix name = Raise ValueError) ->
  exists w',
    repack_zsdic w = Normal w'
    /\ repacked_pak w' = Some data
    /\ console w'
       = console w ++ fst (resolve_dictionary (DICT_FILE w) data)
         ++ [RepackFailed ValueError]
    /\ ORIGINAL_PAK w' = ORIGINAL_PAK w
    /\ UNPACK_DIR w' = UNPACK_DIR w
    /\ backup_file w' = backup_file w.
Proof.
  intros Hpak Hdir Hdict Hint (name & content & Hin & Hdat & Hbad).
  assert (Hsort : sorted_dat_files (entry :: dir) = Raise ValueError).
  { unfold sorted_dat_files. rewrite with_keys_raises; [reflexivity| |].
    - intros x. apply Hint.
    - exists (name, content). split; [|exact Hbad].
      apply filter_In. split; [exact Hin|exact Hdat]. }
  unfold repack_zsdic. rewrite Hpak, Hdir.
  cbn [DICT_FILE set_repacked_pak].
  destruct (resolve_dictionary (DICT_FILE w) data) as [msgs dict].
  simpl in Hdict. subst dict. simpl bind. rewrite Hsort. simpl.
  eexists. split; [reflexivity|]. simpl.
  rewrite <- app_assoc. repeat split; auto.
Qed.

(** X15. The files are processed in ascending order of their numbers: the
    list [files] holds the [.dat] entries of the directory and no other,
    each with the number read from its name, sorted by that number. *)
Theorem files_sorted_by_number (dir : directory) (files : list edit) :
  sorted_dat_files dir = Ret files ->
  StronglySorted Z.le (map sequence_number files)
  /\ Permutation (map (fun f => (file_name f, input_data f)) files)
       (filter (fun entry => endswith (fst entry) ".dat") dir)
  /\ forall f, In f files ->
               int_prefix (file_name f) = Ret (sequence_number f).
Proof.
  apply sorted_dat_files_spec.
Qed.

(** X16. Only [ValueError] sends the search on to the next level, and it
    does so whoever raised it: with every level below [level] ending in a
    [ValueError] (raised by the codec, or by the size test), an exception
    of another class from the codec at [level] ends the search for this
    file, with the archive copy as it was, the error printed, no higher
    level tried, and the loop going on with the next file. *)
Theorem repack_stops_on_codec_error (st : repack_state) (e : edit)
    (dict_data seg : bytes) (s en level : nat) (ex : exn) :
  extract_segment (pak st) (sequence_number e) MAGIC_NUMBER
  = Ret (s, en, seg) ->
  1 <= level <= MAX_COMPRESSION_LEVEL ->
  (forall l, 1 <= l < level -> skipped e dict_data (en - s) l) ->
  compress_file (input_data e) dict_data level = Raise ex ->
  ex <> ValueError ->
  let st' := say (note_calls st (file_name e) (seq 1 level))
               (ErrorProcessing (file_name e) ex) in
  repack_file st e dict_data = Normal st'
  /\ pak st' = pak st
  /\ success_count st' = success_count st
  /\ forall rest,
       repack_files (e :: rest) st dict_data
       = repack_files rest st' dict_data.
Proof.
  intros X Hlevel Hskip Hc Hex st'.
  pose proof X as Hb.
  apply extract_segment_bounds in Hb as (Hw & He & _); [|discriminate].
  assert (R : repack_file st e dict_data = Normal st').
  { unfold repack_file. rewrite X.
    rewrite (seq_split_at level MAX_COMPRESSION_LEVEL Hlevel).
    rewrite level_loop_skipped;
      [|lia|intros l Hl; apply Hskip; apply in_seq in Hl; lia].
    rewrite (level_loop_raise _ _ _ _ _ _ _ _ Hc Hex).
    rewrite note_calls_app, seq_snoc by lia. reflexivity. }
  split; [exact R|]. repeat split.
  intros rest. simpl. now rewrite R.
Qed.

(** X17. A [ValueError] raised by the codec itself is taken for an output
    that is too large: with every level below [level] ending in a
    [ValueError] of either origin and an output that fits at [level], the
    levels 1 to [level] are tried and the output of [level] is written. *)
Theorem repack_takes_codec_value_error_for_oversize (st : repack_state)
    (e : edit) (dict_data seg compressed_data : bytes) (s en level : nat) :
  extract_segment (pak st) (sequence_number e) MAGIC_NUMBER
  = Ret (s, en, seg) ->
  1 <= level <= MAX_COMPRESSION_LEVEL ->
  (forall l, 1 <= l < level -> skipped e dict_data (en - s) l) ->
  compress_file (input_data e) dict_data level = Ret compressed_data ->
  length compressed_data <= en - s ->
  exists pak',
    replace_segment (pak st) s en compressed_data = Ret pak'
    /\ repack_file st e dict_data
       = Normal (count_success
                   (say (set_pak (note_calls st (file_name e) (seq 1 level))
                           pak')
                      (Reimported (file_name e) level))).
Proof.
  intros X Hlevel Hskip Hc Hfit.
  pose proof X as Hb.
  apply extract_segment_bounds in Hb as (Hw & He & _); [|discriminate].
  change (length MAGIC_NUMBER) with 4 in Hw.
  eexists. split; [apply replace_segment_fits; lia|].
  unfold repack_file. rewrite X.
  rewrite (seq_split_at level MAX_COMPRESSION_LEVEL Hlevel).
  rewrite level_loop_skipped;
    [|lia|intros l Hl; apply Hskip; apply in_seq in Hl; lia].
  erewrite level_loop_fit;
    [|exact Hc|simpl pak; apply replace_segment_fits; lia].
  rewrite note_calls_app, seq_snoc by lia. reflexivity.
Qed.

(* ================================================================== *)
(** ** More on unpack *)

(** X18. Whatever [unpack_zsdic] does, it leaves the original archive, the
    dictionary file and the archive copy of repack as they are; with no
    archive detected it touches nothing, and with one detected the backup
    is a copy of it and the unpack directory exists, even when the
    operation then fails. *)
Theorem unpack_preserves_original (w w' : world) :
  unpack_zsdic w = Normal w' ->
  ORIGINAL_PAK w' = ORIGINAL_PAK w
  /\ DICT_FILE w' = DICT_FILE w
  /\ repacked_pak w' = repacked_pak w
  /\ (ORIGINAL_PAK w = None -> untouched w w')
  /\ forall data,
       ORIGINAL_PAK w = Some data ->
       backup_file w' = Some data /\ UNPACK_DIR w' <> None.
Proof.
  unfold unpack_zsdic, untouched.
  destruct (ORIGINAL_PAK w) as [data|] eqn:Hpak.
  - cbn [DICT_FILE print set_backup_file set_UNPACK_DIR].
    destruct (resolve_dictionary (DICT_FILE w) data) as [msgs dict].
    assert (Hmk : makedirs (UNPACK_DIR w) <> None)
      by (destruct (UNPACK_DIR w); discriminate).
    destruct dict as [dict_data| ex |]; simpl; try discriminate;
      [|intros [= <-]; simpl; repeat split; auto; try discriminate;
        intros d [= <-]; auto].
    destruct (ZstdCompressionDict dict_data) as [dictionary| ex |]; simpl;
      try discriminate;
      [|intros [= <-]; simpl; repeat split; auto; try discriminate;
        intros d [= <-]; auto].
    destruct (split_segments data MAGIC_NUMBER) as [segments| ex |]; simpl;
      try discriminate;
      [|intros [= <-]; simpl; repeat split; auto; try discriminate;
        intros d [= <-]; auto].
    destruct (decompress_all _ _ _) as [[dir results]| ex |];
      try discriminate;
      intros [= <-]; simpl; repeat split; auto; try discriminate;
      intros d [= <-]; auto; split; auto; discriminate.
  - intros [= <-]. simpl. repeat split; auto; discriminate.
Qed.

(** X19. With a dictionary and a decoder that returns or raises, unpack
    goes through every segment and reports completion, whatever the
    decoder did: after the backup and the dictionary lines the console has
    the number of segments, then each segment's own outcome in the order
    of the segments, then "Unpack completed". *)
Theorem unpack_reports_every_segment (w : world)
    (data dict_data : bytes) (msgs : list message) (dictionary : zdict) :
  ORIGINAL_PAK w = Some data ->
  resolve_dictionary (DICT_FILE w) data = (msgs, Ret dict_data) ->
  ZstdCompressionDict dict_data = Ret dictionary ->
  (forall piece, zstd_decompress dictionary piece <> Diverge) ->
  exists w' segments,
    split_segments data MAGIC_NUMBER = Ret segments
    /\ unpack_zsdic w = Normal w'
    /\ console w'
       = console w ++ [BackupCreated] ++ msgs
         ++ [FoundSegments (length segments)]
         ++ map (decompress_outcome dictionary) segments
         ++ [UnpackCompleted].
Proof.
  intros Hpak Hres Hdict Hdec.
  destruct (split_segments_spec data MAGIC_NUMBER) as (starts & _ & _ & Hseg);
    [discriminate|].
  set (segments := segments_of data (starts ++ [length data])) in *.
  unfold unpack_zsdic. rewrite Hpak.
  cbn [DICT_FILE print set_backup_file set_UNPACK_DIR]. rewrite Hres.
  simpl bind. rewrite Hdict. simpl bind. rewrite Hseg. simpl bind.
  cbv iota beta.
  match goal with
  | |- context [decompress_all segments dictionary ?d] =>
      destruct (decompress_all_results segments dictionary
                  (fun s _ => Hdec (snd s)) d) as (dir' & ->)
  end.
  eexists. exists segments. split; [reflexivity|].
  split; [reflexivity|]. simpl. now rewrite <- !app_assoc.
Qed.

(** X20. The artifacts after the loop over the segments of an archive: the
    file named after a segment holds what the decoder gave for it, or what
    it held before when the decoder raised; a file that no segment names
    is as it was. Segments never write over each other's artifact. *)
Theorem unpack_artifacts (data : bytes) (segments : list (nat * bytes))
    (dictionary : zdict) (dir dir' : directory) (results : list message) :
  split_segments data MAGIC_NUMBER = Ret segments ->
  decompress_all segments dictionary dir = Ret (dir', results) ->
  (forall n piece,
     In (n, piece) segments ->
     read_file dir' (format_08d n ++ ".dat")
     = match zstd_decompress dictionary piece with
       | Ret plain => Some plain
       | _ => read_file dir (format_08d n ++ ".dat")
       end)
  /\ forall name,
       (forall n, 1 <= n <= length segments ->
                  name <> (format_08d n ++ ".dat")%string) ->
       read_file dir' name = read_file dir name.
Proof.
  intros Hseg Hall.
  destruct (split_segments_spec data MAGIC_NUMBER) as (starts & _ & _ & Hseg');
    [discriminate|].
  rewrite Hseg' in Hseg. injection Hseg as <-.
  set (segments := segments_of data (starts ++ [length data])) in *.
  assert (Hnum : map fst segments = seq 1 (length segments)).
  { unfold segments. rewrite segments_of_numbers, length_segments_of.
    reflexivity. }
  split.
  - intros n piece Hin.
    apply (decompress_all_artifact segments dictionary) with (2 := Hall);
      [|exact Hin].
    rewrite Hnum. apply seq_NoDup.
  - intros name Hname.
    apply (decompress_all_other segments dictionary name) with (2 := Hall).
    intros seg Hin E. apply (Hname (fst seg)); [|now symmetry].
    apply (in_map fst) in Hin. rewrite Hnum in Hin.
    apply in_seq in Hin. lia.
Qed.

(* ================================================================== *)
(** ** The detection of the files *)

(** X21. When the dictionary directory has a candidate, [detect_files]
    selects one of the candidates, and no candidate is better: if any
    candidate has [dict] in its name (in any case) the selected one has,
    and no candidate of the same kind is larger. *)
Theorem detect_files_selects_best (g : detected)
    (input_dir dict_dir : list sized_entry) :
  dict_candidates dict_dir <> [] ->
  exists d,
    In d (dict_candidates dict_dir)
    /\ dict_path (fst (fst (detect_files g input_dir dict_dir)))
       = Some (fst d)
    /\ forall c,
         In c (dict_candidates dict_dir) ->
         (has_dict c = true -> has_dict d = true)
         /\ (has_dict c = has_dict d -> snd c <= snd d).
Proof. apply detect_files_selects_best_aux. Qed.

(** X22. The three extensions [.dict], [.zstdict] and [.zdict] hold the
    word [dict]: as soon as the dictionary directory has a visible file
    with one of them, the selected dictionary has [dict] in its name, and
    no [.bin] file without it is selected, whatever its size. *)
Theorem dict_extension_outranks_size (g : detected)
    (input_dir dict_dir : list sized_entry) (entry : sized_entry) :
  In entry dict_dir ->
  String.prefix "." (fst entry) = false ->
  endswith (fst entry) ".dict" = true
  \/ endswith (fst entry) ".zstdict" = true
  \/ endswith (fst entry) ".zdict" = true ->
  exists name,
    dict_path (fst (fst (detect_files g input_dir dict_dir))) = Some name
    /\ contains "dict" (lower name) = true.
Proof.
  intros Hin Hvis Hext.
  assert (Hcand : In entry (dict_candidates dict_dir)).
  { unfold dict_candidates, SUPPORTED_DICT_EXTENSIONS. simpl.
    rewrite !in_app_iff. unfold glob_ext. rewrite !filter_In, Hvis. simpl.
    destruct Hext as [H|[H|H]]; rewrite H; tauto. }
  destruct (detect_files_selects_best_aux g input_dir dict_dir)
    as (d & _ & Hsel & Hbest); [intros E; now rewrite E in Hcand|].
  exists (fst d). split; [exact Hsel|].
  apply (Hbest entry Hcand). now apply dict_extension_has_dict.
Qed.

(** X23. [detect_files] assigns a global only when it finds something, so
    a detection outlives the file: after a call that found an archive, a
    later call that finds none in the input directory still has that
    archive as [ORIGINAL_PAK], and returns [True] as soon as a dictionary is
    set. A call that finds archives takes the first of the listing. *)
Theorem detect_files_keeps_earlier_detection (g : detected)
    (input_dir dict_dir input_dir' dict_dir' : list sized_entry)
    (p : sized_entry) (rest : list sized_entry) :
  glob_ext input_dir ".pak" = p :: rest ->
  glob_ext input_dir' ".pak" = [] ->
  let g1 := fst (fst (detect_files g input_dir dict_dir)) in
  let '(g2, _, found) := detect_files g1 input_dir' dict_dir' in
  pak_path g1 = Some (fst p)
  /\ pak_path g2 = Some (fst p)
  /\ (dict_candidates dict_dir' = [] -> dict_path g2 = dict_path g1)
  /\ (found = true <-> dict_path g2 <> None).
Proof.
  intros Hp Hnone. unfold detect_files.
  fold (dict_candidates dict_dir) (dict_candidates dict_dir').
  rewrite Hp, Hnone.
  destruct (sort_by dict_key (dict_candidates dict_dir)) as [|d ds];
    destruct (sort_by dict_key (dict_candidates dict_dir')) as [|d' ds']
      eqn:S'; simpl.
  all: split; [reflexivity|]; split; [reflexivity|]; split.
  all: try (intros E; rewrite E in S'; discriminate).
  all: try reflexivity.
  all: try (destruct (dict_path g); split; congruence).
  all: split; congruence.
Qed.

(** X24. The index and [extract_segment] agree: the entry that
    [split_segments] numbers [n] is the segment that [extract_segment]
    returns for [n], so the file that unpack names after a segment is
    patched by repack into the range of that segment; and a segment that
    [extract_segment] returns for [k] is the entry at position [k - 1] of
    the index, with number [k]. *)
Theorem extract_segment_agrees_with_index (data magic : bytes)
    (segments : list (nat * bytes)) :
  split_segments data magic = Ret segments ->
  (forall n piece,
     In (n, piece) segments ->
     exists s e,
       extract_segment data (Z.of_nat n) magic = Ret (s, e, piece)
       /\ piece = slice data s e)
  /\ forall k s e d,
       extract_segment data k magic = Ret (s, e, d) ->
       (1 <= k <= Z.of_nat (length segments))%Z
       /\ nth_error segments (Z.to_nat k - 1) = Some (Z.to_nat k, d).
Proof using.
  intros H. split.
  - intros n piece. apply (extract_segment_of_entry _ _ _ _ _ H).
  - intros k s e d. apply (entry_of_extract_segment _ _ _ _ _ _ _ H).
Qed.

(** X25. Unpack followed by repack gives back the archive, when the codec
    undoes itself: with a dictionary, an archive that has a segment, a
    decoder that returns for every segment, an encoder that at level 1
    turns what the decoder gave into the bytes of the segment, an unpack
    directory with no [.dat] file to begin with, and file names read back
    as the numbers they were written from, the archive copy that repack
    leaves is equal to the original archive and every file is counted as a
    success. *)
Theorem unpack_then_repack_restores_archive (w : world)
    (data dict_data : bytes) (msgs : list message) (dictionary : zdict)
    (segments : list (nat * bytes)) :
  ORIGINAL_PAK w = Some data ->
  resolve_dictionary (DICT_FILE w) data = (msgs, Ret dict_data) ->
  ZstdCompressionDict dict_data = Ret dictionary ->
  split_segments data MAGIC_NUMBER = Ret segments ->
  segments <> [] ->
  (forall name content,
     In (name, content)
        (match UNPACK_DIR w with Some dir => dir | None => [] end) ->
     endswith name ".dat" = false) ->
  (forall n, int_prefix (format_08d n ++ ".dat") = Ret (Z.of_nat n)) ->
  (forall n piece,
     In (n, piece) segments ->
     exists plain,
       zstd_decompress dictionary piece = Ret plain
       /\ zstd_compress dictionary 1 plain = Ret piece) ->
  exists w1 w2 out,
    unpack_zsdic w = Normal w1
    /\ repack_zsdic w1 = Normal w2
    /\ repacked_pak w2 = Some data
    /\ ORIGINAL_PAK w2 = Some data
    /\ backup_file w2 = Some data
    /\ console w2
       = out ++ [RepackCompleted (length segments) (length segments)].
Proof.
  intros Hpak Hres Hdict Hseg Hne Hold Hint Hcodec.
  set (dir := match UNPACK_DIR w with Some dir => dir | None => [] end)
    in *.
  set (new := map (artifact dictionary) segments).
  (* the numbers of the index are 1, 2, ... *)
  assert (Hnd : NoDup (map fst segments)).
  { revert Hseg. unfold split_segments.
    destruct (boundaries data MAGIC_NUMBER) as [si| |]; simpl;
      try discriminate.
    intros [= <-]. rewrite segments_of_numbers. apply seq_NoDup. }
  (* unpack *)
  destruct (decompress_all_fresh dictionary segments Hnd) with (dir := dir)
    as [results Hall].
  { intros [n piece] Hin. destruct (Hcodec n piece Hin) as (plain & Hp & _).
    now exists plain. }
  { intros [n piece] _. apply read_file_absent. intros c Hin.
    apply Hold in Hin. simpl in Hin.
    now rewrite endswith_append in Hin. }
  fold new in Hall.
  assert (Hunpack :
            unpack_zsdic w
            = Normal
                (print
                   (set_UNPACK_DIR
                      (print
                         (print
                            (print
                               (set_backup_file
                                  (set_UNPACK_DIR w
                                     (makedirs (UNPACK_DIR w)))
                                  (Some data))
                               [BackupCreated]) msgs)
                         [FoundSegments (length segments)])
                      (Some (dir ++ new)))
                   (results ++ [UnpackCompleted]))).
  { unfold unpack_zsdic. rewrite Hpak.
    cbn [DICT_FILE print set_backup_file set_UNPACK_DIR]. rewrite Hres.
    simpl bind. rewrite Hdict. simpl bind. rewrite Hseg. simpl bind.
    cbv iota beta. cbn [UNPACK_DIR print set_backup_file set_UNPACK_DIR].
    replace (match makedirs (UNPACK_DIR w) with
             | Some d => d
             | None => []
             end) with dir
      by (unfold dir; now destruct (UNPACK_DIR w)).
    now rewrite Hall. }
  match type of Hunpack with _ = Normal ?x => exists x end.
  (* the files of repack *)
  assert (Hfilter :
            filter (fun entry : string * bytes => endswith (fst entry) ".dat")
              (dir ++ new) = new).
  { rewrite filter_app.
    replace (filter _ dir) with (@nil (string * bytes)).
    - simpl. apply forallb_filter_id. apply forallb_forall.
      intros entry Hin. unfold new in Hin.
      apply in_map_iff in Hin as (seg & <- & _).
      apply endswith_append.
    - symmetry. apply filter_none.
      intros [name content] Hin. simpl. now apply Hold in Hin. }
  destruct (with_keys_returns (fun entry : string * bytes =>
                                 int_prefix (fst entry)) new)
    as [keyed Hkeyed].
  { intros entry Hin. unfold new in Hin.
    apply in_map_iff in Hin as (seg & <- & _). simpl. eauto. }
  destruct (sorted_dat_files (dir ++ new)) as [files| |] eqn:Hfiles.
  2, 3: (unfold sorted_dat_files in Hfiles; rewrite Hfilter, Hkeyed in Hfiles;
         discriminate).
  destruct (sorted_dat_files_spec _ _ Hfiles) as (_ & Hperm & Hnum).
  rewrite Hfilter in Hperm.
  assert (Hlen : length files = length segments).
  { rewrite <- (length_map (fun f => (file_name f, input_data f)) files).
    rewrite (Permutation_length Hperm). unfold new. apply length_map. }
  (* the loop over the files *)
  assert (Hid : forall e, In e files ->
                 exists s en,
                   extract_segment data (sequence_number e) MAGIC_NUMBER
                   = Ret (s, en, slice data s en)
                   /\ compress_file (input_data e) dict_data 1
                      = Ret (slice data s en)).
  { intros f Hf.
    assert (Hin : In (file_name f, input_data f) new).
    { apply (Permutation_in _ Hperm).
      apply (in_map (fun f => (file_name f, input_data f))). exact Hf. }
    unfold new in Hin.
    apply in_map_iff in Hin as ([n piece] & E & Hin).
    unfold artifact in E. simpl in E. injection E as En Ed.
    pose proof (Hnum f Hf) as Hk. rewrite <- En, Hint in Hk.
    injection Hk as Hk.
    destruct (extract_segment_of_entry _ _ _ _ _ Hseg Hin)
      as (s & en & Hx & Hslice).
    destruct (Hcodec n piece Hin) as (plain & Hp & Hc).
    exists s, en. rewrite <- Hk, <- Hslice. split; [exact Hx|].
    unfold compress_file. rewrite Hdict. simpl bind.
    rewrite <- Ed. unfold decoded. simpl. now rewrite Hp. }
  assert (Hnew : exists entry rest, dir ++ new = entry :: rest).
  { unfold new. destruct segments as [|seg segments]; [congruence|].
    destruct dir as [|entry dir']; simpl; eauto. }
  destruct Hnew as (entry & rest & Hnew).
  unfold repack_zsdic.
  cbn [ORIGINAL_PAK UNPACK_DIR DICT_FILE console print set_UNPACK_DIR
         set_backup_file set_repacked_pak backup_file].
  rewrite Hpak, Hnew, Hres. rewrite <- Hnew.
  simpl bind. rewrite Hfiles. simpl bind. cbv iota beta.
  cbn [ORIGINAL_PAK UNPACK_DIR DICT_FILE console print set_UNPACK_DIR
         set_backup_file set_repacked_pak backup_file].
  match goal with
  | |- context [repack_files files ?st dict_data] =>
      destruct (repack_files_identity files dict_data data Hid st eq_refl)
        as (st' & -> & Hpak' & Hcount)
  end.
  eexists. eexists. split; [exact Hunpack|]. split; [reflexivity|].
  cbn [ORIGINAL_PAK repacked_pak backup_file console].
  rewrite Hpak', Hcount, Hlen. simpl.
  repeat split; reflexivity.
Qed.

End Operations.

(* ================================================================== *)
(** ** The model on small inputs *)

Example find_second_marker :
  find scenario_archive MAGIC_NUMBER 1 = Some 7.
Proof. reflexivity. Qed.

Example find_empty_at_end : find [x41] [] 1 = Some 1.
Proof. reflexivity. Qed.

Example find_empty_past_end : find [x41] [] 2 = None.
Proof. reflexivity. Qed.

Example boundaries_scenario :
  boundaries scenario_archive MAGIC_NUMBER = Ret [0; 7; 15].
Proof. reflexivity. Qed.

Example boundaries_prefixed :
  boundaries prefixed_archive MAGIC_NUMBER = Ret [2; 9].
Proof. reflexivity. Qed.

(** A pattern that overlaps itself: [b"aa"] occurs at offsets 0 and 1 of
    [b"aaa"], and the scan, which resumes after each match, finds the first
    occurrence only. *)
Example boundaries_overlapping :
  occurrences [x61; x61; x61] [x61; x61] = [0; 1]
  /\ boundaries [x61; x61; x61] [x61; x61] = Ret [0; 3]
  /\ unbordered [x61; x61] = false.
Proof. repeat split. Qed.

Example extract_segment_zero :
  extract_segment scenario_archive 0 MAGIC_NUMBER = Raise IndexError.
Proof. reflexivity. Qed.

Example extract_segment_negative :
  extract_segment scenario_archive (-1) MAGIC_NUMBER = Raise IndexError.
Proof. reflexivity. Qed.

(** What the guard of [extract_segment] keeps from happening: index 0
    would read the boundary list at [-1], from the back. *)
Example getitem_from_the_back :
  getitem [0; 7; 15] (-1) = Ret 15 /\ getitem [0; 7; 15] 3 = Raise IndexError.
Proof. split; reflexivity. Qed.

Example replace_segment_pads :
  replace_segment scenario_archive 0 7 (MAGIC_NUMBER ++ [x61])
  = Ret (MAGIC_NUMBER ++ [x61; x00; x00] ++ MAGIC_NUMBER
         ++ [x42; x42; x42; x42]).
Proof. reflexivity. Qed.

Example replace_segment_refuses :
  replace_segment scenario_archive 0 7 (repeat x61 8) = Raise ValueError.
Proof. reflexivity. Qed.

(** Outside a segment of the file the write of [replace_segment] can make
    the file longer: the hypothesis of [replace_segment_fits] on the end of
    the range is needed. *)
Example replace_segment_past_end :
  replace_segment [x41; x41] 1 4 [x61]
  = Ret [x41; x61; x00; x00].
Proof. reflexivity. Qed.

Example format_08d_twelve : format_08d 12 = "00000012"%string.
Proof. reflexivity. Qed.

Example sorted_by_key_is_stable :
  sorted_by_key [(2%Z, "b"%string); (1%Z, "a"%string); (2%Z, "c"%string)]
  = [(1%Z, "a"%string); (2%Z, "b"%string); (2%Z, "c"%string)].
Proof. reflexivity. Qed.

(** Unpack and repack of the scenario archive followed by an embedded
    dictionary, with the stand-in codec. *)
Example unpack_scenario :
  unpack_zsdic bytes toy_dictionary toy_decompress
    {| ORIGINAL_PAK := Some (scenario_archive ++ DICT_START_HEX);
       DICT_FILE := NoDictFile; UNPACK_DIR := None; backup_file := None;
       repacked_pak := None; console := [] |}
  = Normal
      {| ORIGINAL_PAK := Some (scenario_archive ++ DICT_START_HEX);
         DICT_FILE := NoDictFile;
         UNPACK_DIR :=
           Some [("00000001.dat"%string, [x41; x41; x41]);
                 ("00000002.dat"%string,
                  [x42; x42; x42; x42] ++ DICT_START_HEX)];
         backup_file := Some (scenario_archive ++ DICT_START_HEX);
         repacked_pak := None;
         console :=
           [BackupCreated; UsingEmbeddedDictionary; FoundSegments 2;
            Decompressed "00000001.dat"; Decompressed "00000002.dat";
            UnpackCompleted] |}.
Proof. reflexivity. Qed.

Example repack_three_edits :
  repack_files bytes toy_dictionary toy_compress
    [small_edit; large_edit; stray_edit] scenario_state []
  = Normal
      {| pak := MAGIC_NUMBER ++ [x61; x62; x63] ++ MAGIC_NUMBER
                ++ [x42; x42; x42; x42];
         log := [Reimported "00000001.dat" 2;
                 FailedToReimport "00000001.dat";
                 ErrorProcessing "00000003.dat" IndexError];
         success_count := 1;
         codec_calls :=
           map (pair "00000001.dat"%string) [1; 2]
           ++ map (pair "00000001.dat"%string) (seq 1 22) |}.
Proof. reflexivity. Qed.

Example detect_files_listings :
  detect_files nothing_detected input_listing dict_listing
  = ({| pak_path := Some "a.pak"%string;
        dict_path := Some "z.dict"%string |},
     [DetectedPak "a.pak"; SelectedDictionary "z.dict"], true).
Proof. reflexivity. Qed.

Example dict_candidates_listing :
  dict_candidates dict_listing
  = [("big.bin", 1000); ("MyDICT.bin", 5); ("z.dict", 7); ("x.zdict", 7)]%string.
Proof. reflexivity. Qed.

Example sort_by_dict_key_listing :
  map fst (sort_by dict_key (dict_candidates dict_listing))
  = ["z.dict"; "x.zdict"; "MyDICT.bin"; "big.bin"]%string.
Proof. reflexivity. Qed.

(* ================================================================== *)
(** ** The claims at concrete inputs *)

(** C1 on the scenario archive. *)
Lemma index_tiles_from_first_marker_witness :
  MAGIC_NUMBER <> []
  /\ exists starts,
       boundaries scenario_archive MAGIC_NUMBER
       = Ret (starts ++ [length scenario_archive])
       /\ starts = occurrences scenario_archive MAGIC_NUMBER
       /\ tiles (hd (length scenario_archive) starts)
            (ranges_of (starts ++ [length scenario_archive]))
            (length scenario_archive).
Proof.
  split; [discriminate|].
  destruct (proj1 index_tiles_from_first_marker scenario_archive
              MAGIC_NUMBER)
    as (starts & Hb & _ & Hall & _ & _ & _ & Ht); [discriminate|].
  exists starts. split; [exact Hb|]. split; [|exact Ht].
  apply Hall. reflexivity.
Defined.

(** C9 on a buffer of one byte. *)
Lemma index_without_marker_is_empty_witness :
  occurrences [x41] MAGIC_NUMBER = []
  /\ split_segments [x41] MAGIC_NUMBER = Ret [].
Proof.
  split; [reflexivity|].
  apply (index_without_marker_is_empty [x41] MAGIC_NUMBER). reflexivity.
Defined.

(** C10 on the second segment of the scenario archive. *)
Lemma segment_not_shorter_than_magic_witness :
  extract_segment scenario_archive 2 MAGIC_NUMBER
  = Ret (7, 15, MAGIC_NUMBER ++ [x42; x42; x42; x42])
  /\ 7 + 4 <= 15.
Proof.
  split; [reflexivity|].
  apply (proj1 (segment_not_shorter_than_magic scenario_archive) 2%Z 7 15
           (MAGIC_NUMBER ++ [x42; x42; x42; x42])).
  reflexivity.
Defined.

(** C5 on the archive of the second scenario, for a dictionary file that
    cannot be read. *)
Lemma dictionary_resolution_witness :
  occurs_at dictionary_archive DICT_START_HEX 2 = true
  /\ resolve_dictionary UnreadableDictFile dictionary_archive
     = ([UsingEmbeddedDictionary], Ret (DICT_START_HEX ++ DICTDATA)).
Proof.
  split; [reflexivity|].
  apply (proj1 (proj2 dictionary_resolution) UnreadableDictFile
           dictionary_archive 2).
  - right. reflexivity.
  - reflexivity.
  - intros [|[|j]] Hj; [reflexivity | reflexivity | lia].
Defined.

(** C3: five bytes written over the first segment of the scenario
    archive, which has seven. *)
Lemma patch_pads_and_preserves_witness :
  7 <= length scenario_archive
  /\ exists pak',
       replace_segment scenario_archive 0 7 (MAGIC_NUMBER ++ [x61])
       = Ret pak'
       /\ nth_error pak' 5 = Some x00
       /\ nth_error pak' 6 = Some x00
       /\ nth_error pak' 7 = nth_error scenario_archive 7.
Proof.
  split; [simpl; lia|].
  destruct (patch_pads_and_preserves scenario_archive
              (MAGIC_NUMBER ++ [x61]) 0 7)
    as (pak' & Hr & _ & Hzero & Hframe); [simpl; lia | simpl; lia |].
  exists pak'. split; [exact Hr|]. split; [|split].
  - apply Hzero. simpl. lia.
  - apply Hzero. simpl. lia.
  - apply Hframe. right. lia.
Defined.

(** C2: the stand-in codec gives 8 bytes at level 1 and 7 at level 2 for
    the small edit of a segment of 7 bytes. *)
Lemma repack_accepts_first_fitting_level_witness :
  exists pak',
    repack_file bytes toy_dictionary toy_compress scenario_state small_edit
      []
    = Normal {| pak := pak';
                log := [Reimported "00000001.dat" 2];
                success_count := 1;
                codec_calls := [("00000001.dat"%string, 1);
                                ("00000001.dat"%string, 2)] |}.
Proof.
  destruct (repack_accepts_first_fitting_level bytes toy_dictionary
              toy_compress scenario_state small_edit []
              (MAGIC_NUMBER ++ [x41; x41; x41])
              (MAGIC_NUMBER ++ [x61; x62; x63]) 0 7 2)
    as (pak' & _ & Hr).
  - reflexivity.
  - unfold MAX_COMPRESSION_LEVEL. lia.
  - intros l Hl. assert (l = 1) as -> by lia.
    exists (MAGIC_NUMBER ++ [x61; x62; x63; x64]).
    split; [reflexivity | simpl; lia].
  - reflexivity.
  - simpl. lia.
  - exists pak'. exact Hr.
Defined.

(** C4: for the large edit the stand-in codec gives more than 7 bytes at
    every level. *)
Lemma repack_overflow_leaves_archive_witness :
  exists st',
    repack_file bytes toy_dictionary toy_compress scenario_state large_edit
      []
    = Normal st'
    /\ log st' = [FailedToReimport "00000001.dat"]
    /\ pak st' = scenario_archive.
Proof.
  destruct (repack_overflow_leaves_archive bytes toy_dictionary toy_compress
              scenario_state large_edit []
              (MAGIC_NUMBER ++ [x41; x41; x41]) 0 7)
    as (st' & Hr & Hlog & Hpak & _).
  - reflexivity.
  - intros l Hl. unfold MAX_COMPRESSION_LEVEL in Hl.
    eexists. split; [reflexivity|].
    rewrite length_app, length_firstn.
    change (length (input_data large_edit)) with 30.
    change (length MAGIC_NUMBER) with 4. lia.
  - exists st'. repeat split; assumption.
Defined.

(** C6: the scenario archive has no segment 0 and no segment 3. *)
Lemma out_of_range_sequence_number_witness :
  extract_segment scenario_archive 0 MAGIC_NUMBER = Raise IndexError
  /\ repack_file bytes toy_dictionary toy_compress scenario_state
       stray_edit []
     = Normal (say scenario_state
                 (ErrorProcessing "00000003.dat" IndexError)).
Proof.
  split.
  - destruct (proj1 (out_of_range_sequence_number bytes toy_dictionary
                       toy_compress) scenario_archive 0%Z)
      as (segments & split_indices & _ & _ & _ & Hout & _).
    apply Hout. left. lia.
  - apply (proj2 (out_of_range_sequence_number bytes toy_dictionary
                    toy_compress) scenario_state stray_edit []
             [(1, MAGIC_NUMBER ++ [x41; x41; x41]);
              (2, MAGIC_NUMBER ++ [x42; x42; x42; x42])]).
    + reflexivity.
    + right. simpl. lia.
Defined.

(** C7: the stand-in codec returns; three edits of the scenario archive. *)
Lemma archive_length_is_invariant_witness :
  exists st',
    repack_files bytes toy_dictionary toy_compress
      [small_edit; large_edit; stray_edit] scenario_state []
    = Normal st'
    /\ length (pak st') = 15.
Proof.
  apply (proj1 (archive_length_is_invariant bytes toy_dictionary
                  toy_compress
                  (fun input_data dict_data level H =>
                     eq_ind (Ret (MAGIC_NUMBER
                                  ++ firstn (length input_data - level)
                                       input_data))
                       (fun c => match c with
                                 | Diverge => False
                                 | _ => True
                                 end) I Diverge H))
           [small_edit; large_edit; stray_edit] scenario_state []).
Defined.

(** C8: a world with no archive, and the world with an archive and no
    dictionary. *)
Lemma absent_resource_aborts_witness :
  unpack_zsdic bytes toy_dictionary toy_decompress
    {| ORIGINAL_PAK := None; DICT_FILE := NoDictFile; UNPACK_DIR := None;
       backup_file := None; repacked_pak := None; console := [] |}
  = Normal
      {| ORIGINAL_PAK := None; DICT_FILE := NoDictFile; UNPACK_DIR := None;
         backup_file := None; repacked_pak := None;
         console := [NoPakDetected] |}
  /\ exists w',
       repack_zsdic bytes toy_dictionary toy_compress toy_int_prefix
         world_without_dictionary
       = Normal w'
       /\ repacked_pak w' = Some scenario_archive.
Proof.
  split.
  - apply (proj1 (absent_resource_aborts bytes toy_dictionary toy_compress
                    toy_decompress toy_int_prefix)
             {| ORIGINAL_PAK := None; DICT_FILE := NoDictFile;
                UNPACK_DIR := None; backup_file := None;
                repacked_pak := None; console := [] |}).
    reflexivity.
  - destruct (proj2 (proj2 (absent_resource_aborts bytes toy_dictionary
                              toy_compress toy_decompress toy_int_prefix))
                world_without_dictionary scenario_archive
                ("00000001.dat"%string, [x61; x62; x63]) [])
      as (w' & Hr & _ & _ & _ & _ & Hcopy).
    + reflexivity.
    + left. reflexivity.
    + reflexivity.
    + reflexivity.
    + exists w'. split; assumption.
Defined.

(** C8 as stated fails when it is the dictionary that is absent: unpack has
    made the backup copy, and repack the archive copy, by the time the
    search for a dictionary fails. *)
Lemma dictionary_absence_counterexample :
  (exists w',
     unpack_zsdic bytes toy_dictionary toy_decompress
       world_without_dictionary
     = Normal w'
     /\ console w'
        = [BackupCreated; UsingEmbeddedDictionary; UnpackFailed ValueError]
     /\ backup_file world_without_dictionary = None
     /\ backup_file w' = Some scenario_archive
     /\ ~ untouched world_without_dictionary w')
  /\ (exists w',
        repack_zsdic bytes toy_dictionary toy_compress toy_int_prefix
          world_without_dictionary
        = Normal w'
        /\ console w' = [UsingEmbeddedDictionary; RepackFailed ValueError]
        /\ repacked_pak world_without_dictionary = None
        /\ repacked_pak w' = Some scenario_archive
        /\ ~ untouched world_without_dictionary w').
Proof.
  split; eexists; (split; [reflexivity|]); repeat split;
    intros (_ & _ & H1 & H2); discriminate.
Qed.

(* ================================================================== *)
(** ** The further properties at concrete inputs *)

Lemma split_segments_reassemble_witness :
  concat (map snd [(1, MAGIC_NUMBER ++ [x41; x41; x41])])
  = slice_from prefixed_archive 2.
Proof.
  apply (proj1 (split_segments_reassemble prefixed_archive MAGIC_NUMBER
                  [(1, MAGIC_NUMBER ++ [x41; x41; x41])]
                  ltac:(discriminate) eq_refl)).
Defined.

Lemma split_segments_pieces_witness :
  2 = 1 + 1
  /\ starts_with (MAGIC_NUMBER ++ [x42; x42; x42; x42]) MAGIC_NUMBER = true.
Proof.
  destruct (split_segments_pieces scenario_archive MAGIC_NUMBER
              [(1, MAGIC_NUMBER ++ [x41; x41; x41]);
               (2, MAGIC_NUMBER ++ [x42; x42; x42; x42])]
              1 2 (MAGIC_NUMBER ++ [x42; x42; x42; x42]))
    as (Hn & Hs & _); [discriminate | reflexivity | reflexivity |].
  split; assumption.
Defined.

Lemma split_segments_of_piece_witness :
  split_segments (MAGIC_NUMBER ++ [x42; x42; x42; x42]) MAGIC_NUMBER
  = Ret [(1, MAGIC_NUMBER ++ [x42; x42; x42; x42])].
Proof.
  apply (proj1 (split_segments_of_piece scenario_archive MAGIC_NUMBER
                  [(1, MAGIC_NUMBER ++ [x41; x41; x41]);
                   (2, MAGIC_NUMBER ++ [x42; x42; x42; x42])]
                  2 (MAGIC_NUMBER ++ [x42; x42; x42; x42])
                  ltac:(discriminate) eq_refl
                  ltac:(right; left; reflexivity))).
Defined.

Lemma empty_magic_never_returns_witness :
  scan_loop 5 [x41] [] 0 [] = None.
Proof.
  apply (proj1 (empty_magic_never_returns [x41]) 5 0 []). simpl. lia.
Defined.

Lemma embedded_dictionary_shape_witness :
  exists dict_start,
    dictionary_archive
    = firstn dict_start dictionary_archive ++ DICT_START_HEX ++ DICTDATA
    /\ starts_with (DICT_START_HEX ++ DICTDATA) DICT_START_HEX = true.
Proof.
  destruct (embedded_dictionary_shape dictionary_archive DICT_START_HEX
              (DICT_START_HEX ++ DICTDATA) eq_refl)
    as (i & Hd & _ & Hs & _).
  exists i. split; assumption.
Defined.

Lemma embedded_dictionary_idempotent_witness :
  extract_dictionary_from_pak (DICT_START_HEX ++ DICTDATA) DICT_START_HEX
  = Ret (DICT_START_HEX ++ DICTDATA).
Proof.
  apply (embedded_dictionary_idempotent dictionary_archive DICT_START_HEX
           (DICT_START_HEX ++ DICTDATA) eq_refl).
Defined.

Lemma dictionary_resolution_failure_witness :
  ValueError = ValueError /\ [UsingEmbeddedDictionary] = [UsingEmbeddedDictionary].
Proof.
  apply (proj1 (dictionary_resolution_failure NoDictFile scenario_archive)
           [UsingEmbeddedDictionary] ValueError eq_refl).
Defined.

Lemma replace_segment_with_itself_witness :
  replace_segment scenario_archive 0 7 (slice scenario_archive 0 7)
  = Ret scenario_archive.
Proof.
  apply (replace_segment_with_itself scenario_archive 0 7); simpl; lia.
Defined.

Lemma replace_segment_twice_witness :
  exists pak',
    replace_segment scenario_archive 0 7 (MAGIC_NUMBER ++ [x61]) = Ret pak'
    /\ replace_segment pak' 0 7 (MAGIC_NUMBER ++ [x61]) = Ret pak'.
Proof.
  apply (replace_segment_twice scenario_archive (MAGIC_NUMBER ++ [x61]) 0 7);
    simpl; lia.
Defined.

Lemma replace_segment_commute_witness :
  exists pak',
    (pak1 <- replace_segment scenario_archive 0 7 (MAGIC_NUMBER ++ [x61]) ;;
     replace_segment pak1 7 15 (MAGIC_NUMBER ++ [x62])) = Ret pak'
    /\ (pak2 <- replace_segment scenario_archive 7 15
                  (MAGIC_NUMBER ++ [x62]) ;;
        replace_segment pak2 0 7 (MAGIC_NUMBER ++ [x61])) = Ret pak'.
Proof.
  apply (replace_segment_commute scenario_archive (MAGIC_NUMBER ++ [x61])
           (MAGIC_NUMBER ++ [x62]) 0 7 7 15); simpl; lia.
Defined.

Lemma repack_keeps_boundaries_witness :
  boundaries (MAGIC_NUMBER ++ [x61; x62; x63] ++ MAGIC_NUMBER
              ++ [x42; x42; x42; x42]) MAGIC_NUMBER
  = boundaries scenario_archive MAGIC_NUMBER.
Proof.
  apply (proj1 (repack_keeps_boundaries bytes toy_dictionary toy_compress
                  [small_edit] [] scenario_state
                  {| pak := MAGIC_NUMBER ++ [x61; x62; x63] ++ MAGIC_NUMBER
                            ++ [x42; x42; x42; x42];
                     log := [Reimported "00000001.dat" 2];
                     success_count := 1;
                     codec_calls := [("00000001.dat"%string, 1);
                                     ("00000001.dat"%string, 2)] |}
                  ltac:(intros e [<-|[]] level c [= <-];
                        destruct level as [|[|[|[|[|[|l]]]]]]; reflexivity)
                  eq_refl)).
Defined.

Lemma repack_preserves_original_witness :
  exists w',
    repack_zsdic bytes toy_dictionary toy_compress toy_int_prefix
      world_without_dictionary = Normal w'
    /\ ORIGINAL_PAK w' = Some scenario_archive
    /\ backup_file w' = None.
Proof.
  eexists. split; [reflexivity|].
  destruct (repack_preserves_original bytes toy_dictionary toy_compress
              toy_int_prefix world_without_dictionary _ eq_refl)
    as (H1 & _ & _ & H4 & _).
  split; assumption.
Defined.

Lemma repack_counts_successes_witness :
  exists st' added,
    repack_files bytes toy_dictionary toy_compress
      [small_edit; large_edit; stray_edit] scenario_state [] = Normal st'
    /\ log st' = added
    /\ length added = 3
    /\ success_count st' = 0 + length (filter is_reimported added).
Proof.
  assert (R : exists st',
             repack_files bytes toy_dictionary toy_compress
               [small_edit; large_edit; stray_edit] scenario_state []
             = Normal st').
  { vm_compute. eexists. reflexivity. }
  destruct R as [st' R]. exists st'.
  destruct (proj2 (repack_counts_successes bytes toy_dictionary toy_compress
                     [small_edit; large_edit; stray_edit] []
                     scenario_state) st' R)
    as (added & Hl & Hn & Hc & _).
  exists added. split; [exact R|]. repeat split; assumption.
Defined.

Lemma repack_fails_on_unnumbered_file_witness :
  exists w',
    repack_zsdic bytes toy_dictionary toy_compress picky_int_prefix
      world_with_notes = Normal w'
    /\ repacked_pak w' = Some scenario_archive
    /\ console w' = [UsingExternalDictionary; RepackFailed ValueError].
Proof.
  destruct (repack_fails_on_unnumbered_file bytes toy_dictionary
              toy_compress picky_int_prefix world_with_notes
              scenario_archive [x01]
              ("00000001.dat"%string, [x61; x62; x63])
              [("notes.dat"%string, [x61])])
    as (w' & Hr & Hp & Hc & _).
  - reflexivity.
  - reflexivity.
  - reflexivity.
  - intros name. unfold picky_int_prefix.
    destruct (String.eqb name "notes.dat"); [now left | right; eauto].
  - exists "notes.dat"%string, [x61]. repeat split. right. now left.
  - exists w'. repeat split; assumption.
Defined.

Lemma files_sorted_by_number_witness :
  StronglySorted Z.le [1%Z; 2%Z]
  /\ toy_int_prefix "xx.dat" = Ret 2%Z.
Proof.
  destruct (files_sorted_by_number toy_int_prefix
              [("xx.dat"%string, [x61]); ("x.dat"%string, [x62])]
              [{| file_name := "x.dat"; sequence_number := 1;
                  input_data := [x62] |};
               {| file_name := "xx.dat"; sequence_number := 2;
                  input_data := [x61] |}] eq_refl)
    as (Hs & _ & Hk).
  split; [exact Hs|].
  apply (Hk {| file_name := "xx.dat"; sequence_number := 2;
               input_data := [x61] |}).
  right. now left.
Defined.

Lemma repack_stops_on_codec_error_witness :
  repack_file bytes toy_dictionary (raising_compress ZstdError 2)
    scenario_state small_edit []
  = Normal (say (note_calls scenario_state "00000001.dat" [1; 2])
              (ErrorProcessing "00000001.dat" ZstdError)).
Proof.
  apply (repack_stops_on_codec_error bytes toy_dictionary
           (raising_compress ZstdError 2) scenario_state small_edit []
           (MAGIC_NUMBER ++ [x41; x41; x41]) 0 7 2 ZstdError).
  - reflexivity.
  - unfold MAX_COMPRESSION_LEVEL. lia.
  - intros l Hl. assert (l = 1) as -> by lia. left. reflexivity.
  - reflexivity.
  - discriminate.
Defined.

Lemma repack_takes_codec_value_error_for_oversize_witness :
  exists pak',
    repack_file bytes toy_dictionary (raising_compress ValueError 1)
      scenario_state small_edit []
    = Normal (count_success
                (say (set_pak
                        (note_calls scenario_state "00000001.dat" [1; 2])
                        pak')
                   (Reimported "00000001.dat" 2))).
Proof.
  destruct (repack_takes_codec_value_error_for_oversize bytes toy_dictionary
              (raising_compress ValueError 1) scenario_state small_edit []
              (MAGIC_NUMBER ++ [x41; x41; x41]) MAGIC_NUMBER 0 7 2)
    as (pak' & _ & Hr).
  - reflexivity.
  - unfold MAX_COMPRESSION_LEVEL. lia.
  - intros l Hl. assert (l = 1) as -> by lia. left. reflexivity.
  - reflexivity.
  - simpl. lia.
  - exists pak'. exact Hr.
Defined.

Lemma unpack_preserves_original_witness :
  exists w',
    unpack_zsdic bytes toy_dictionary toy_decompress
      world_without_dictionary = Normal w'
    /\ backup_file w' = Some scenario_archive
    /\ repacked_pak w' = None.
Proof.
  eexists. split; [reflexivity|].
  destruct (unpack_preserves_original bytes toy_dictionary toy_decompress
              world_without_dictionary _ eq_refl)
    as (_ & _ & H3 & _ & H5).
  split; [apply (H5 scenario_archive eq_refl) | exact H3].
Defined.

Lemma unpack_reports_every_segment_witness :
  exists w' segments,
    unpack_zsdic bytes toy_dictionary toy_decompress
      world_with_embedded_dictionary = Normal w'
    /\ console w'
       = [BackupCreated; UsingEmbeddedDictionary;
          FoundSegments (length segments)]
         ++ map (decompress_outcome bytes toy_decompress DICT_START_HEX)
              segments
         ++ [UnpackCompleted].
Proof.
  destruct (unpack_reports_every_segment bytes toy_dictionary toy_decompress
              world_with_embedded_dictionary
              (scenario_archive ++ DICT_START_HEX) DICT_START_HEX
              [UsingEmbeddedDictionary] DICT_START_HEX)
    as (w' & segments & _ & Hr & Hc).
  - reflexivity.
  - reflexivity.
  - reflexivity.
  - intros piece. unfold toy_decompress.
    destruct (starts_with piece MAGIC_NUMBER); discriminate.
  - exists w', segments. split; [exact Hr | exact Hc].
Defined.

Lemma unpack_artifacts_witness :
  exists dir',
    decompress_all bytes toy_decompress
      [(1, MAGIC_NUMBER ++ [x41; x41; x41]);
       (2, MAGIC_NUMBER ++ [x42; x42; x42; x42])] [] [] =
    Ret (dir', [Decompressed "00000001.dat"; Decompressed "00000002.dat"])
    /\ read_file dir' "00000002.dat" = Some [x42; x42; x42; x42].
Proof.
  eexists. split; [reflexivity|].
  apply (proj1 (unpack_artifacts bytes toy_decompress scenario_archive
                  [(1, MAGIC_NUMBER ++ [x41; x41; x41]);
                   (2, MAGIC_NUMBER ++ [x42; x42; x42; x42])] [] [] _
                  [Decompressed "00000001.dat"; Decompressed "00000002.dat"]
                  eq_refl eq_refl)
           2 (MAGIC_NUMBER ++ [x42; x42; x42; x42])).
  right. now left.
Defined.

Lemma detect_files_selects_best_witness :
  exists d,
    In d (dict_candidates dict_listing)
    /\ dict_path (fst (fst (detect_files nothing_detected input_listing
                               dict_listing)))
       = Some (fst d).
Proof.
  destruct (detect_files_selects_best nothing_detected input_listing
              dict_listing) as (d & Hin & Hsel & _); [discriminate|].
  exists d. split; assumption.
Defined.

Lemma dict_extension_outranks_size_witness :
  exists name,
    dict_path (fst (fst (detect_files nothing_detected input_listing
                           dict_listing))) = Some name
    /\ contains "dict" (lower name) = true.
Proof.
  apply (dict_extension_outranks_size nothing_detected input_listing
           dict_listing ("x.zdict"%string, 7)).
  - right. right. now left.
  - reflexivity.
  - right. right. reflexivity.
Defined.

Lemma detect_files_keeps_earlier_detection_witness :
  pak_path (fst (fst (detect_files
                        (fst (fst (detect_files nothing_detected
                                     input_listing dict_listing)))
                        [] [])))
  = Some "a.pak"%string.
Proof.
  apply (detect_files_keeps_earlier_detection nothing_detected
           input_listing dict_listing [] [] ("a.pak"%string, 10)
           [("b.pak"%string, 5)] eq_refl eq_refl).
Defined.

Lemma extract_segment_agrees_with_index_witness :
  exists s e,
    extract_segment scenario_archive 2 MAGIC_NUMBER
    = Ret (s, e, MAGIC_NUMBER ++ [x42; x42; x42; x42]).
Proof.
  destruct (proj1 (extract_segment_agrees_with_index scenario_archive
                     MAGIC_NUMBER
                     [(1, MAGIC_NUMBER ++ [x41; x41; x41]);
                      (2, MAGIC_NUMBER ++ [x42; x42; x42; x42])]
                     eq_refl)
              2 (MAGIC_NUMBER ++ [x42; x42; x42; x42])
              ltac:(right; left; reflexivity))
    as (s & e & H & _).
  exists s, e. exact H.
Defined.

Lemma unpack_then_repack_restores_archive_witness :
  exists w1 w2 out,
    unpack_zsdic bytes toy_dictionary toy_decompress
      world_with_embedded_dictionary = Normal w1
    /\ repack_zsdic bytes toy_dictionary framing_compress
         decimal_int_prefix w1 = Normal w2
    /\ repacked_pak w2 = Some (scenario_archive ++ DICT_START_HEX)
    /\ console w2 = out ++ [RepackCompleted 2 2].
Proof.
  destruct (unpack_then_repack_restores_archive bytes toy_dictionary
              framing_compress toy_decompress decimal_int_prefix
              world_with_embedded_dictionary
              (scenario_archive ++ DICT_START_HEX) DICT_START_HEX
              [UsingEmbeddedDictionary] DICT_START_HEX
              [(1, MAGIC_NUMBER ++ [x41; x41; x41]);
               (2, MAGIC_NUMBER ++ [x42; x42; x42; x42] ++ DICT_START_HEX)])
    as (w1 & w2 & out & H1 & H2 & H3 & _ & _ & H4).
  - reflexivity.
  - reflexivity.
  - reflexivity.
  - reflexivity.
  - discriminate.
  - intros name content [].
  - exact decimal_int_prefix_artifact.
  - intros n piece [E|[E|[]]]; injection E as <- <-;
      eexists; split; reflexivity.
  - exists w1, w2, out. repeat split; assumption.
Defined.
